(** * DPGO: the distributed pose-graph optimization agent

    A shallow embedding of the g2o loader and the manifold utilities of
    [DPGO_utils.cpp], of the agent core of [PGOAgent.cpp] and of the
    assignment of the poses to the workers in [RGDMaster.cpp], followed by the
    properties established about them.

    Conventions of the embedding.
    - A [double] that enters matrix arithmetic is an element of an ordered
      field [F]: finite values, exact arithmetic.  The quantities that
      [PGOAgent::iterate] divides and compares when it decides termination
      keep the IEEE special values (type [double] below).  Where another
      operation of the code yields such a value (the inverse of a singular
      matrix), the value is outside [F]: the operation is a parameter of which
      nothing is assumed there, and the statements are about the inputs on
      which the result is a number.
    - [size_t] values are binary naturals [N] with the wrap-around at [2^64]
      written out.
    - A failed glog [CHECK] or a [LOG(FATAL)] aborts the process: the result
      [Fatal].  Behaviour that C++ leaves undefined is the result [Undefined].
    - Eigen, ROPTLIB and the classes of this library whose sources are not part
      of the verified files are parameters of the development. *)

From HB Require Import structures.
From Stdlib Require Import NArith Lia String.
From mathcomp Require Import boot order algebra.

Set Implicit Arguments.
Unset Strict Implicit.
Unset Printing Implicit Defensive.

Import GRing.Theory Num.Theory Order.POrderTheory.
Local Open Scope ring_scope.

(** ** Results of calls that may abort *)

Variant result (A : Type) : Type :=
  | Ok of A
  | Fatal of string
  | Undefined of string.

Arguments Fatal {A} _.
Arguments Undefined {A} _.

Definition rbind A B (m : result A) (f : A -> result B) : result B :=
  match m with
  | Ok a => f a
  | Fatal s => Fatal s
  | Undefined s => Undefined s
  end.

Notation "x <-- m ;; k" := (rbind m (fun x => k))
  (at level 100, m at next level, right associativity, only parsing).

Definition CHECK (b : bool) (msg : string) : result unit :=
  if b then Ok tt else Fatal msg.

Definition is_ok A (m : result A) : bool :=
  if m is Ok _ then true else false.

(** ** [size_t] arithmetic *)

Definition size_t_modulus : N := (2 ^ 64)%num.

Definition size_t_add (a b : N) : N := ((a + b) mod size_t_modulus)%num.

Definition size_t_sub (a b : N) : N :=
  ((a + size_t_modulus - b) mod size_t_modulus)%num.

(** [std::set<size_t>]: a strictly increasing list; [emplace] inserts in
    order and leaves the set alone when the key is present. *)
Fixpoint set_emplace (x : N) (s : seq N) : seq N :=
  match s with
  | [::] => [:: x]
  | y :: s' =>
      if (x <? y)%num then x :: s
      else if (x =? y)%num then s
      else y :: set_emplace x s'
  end.

(** The order of the set. *)
Definition N_lt : rel N := fun a b => (a <? b)%num.

(** ** Dense matrices *)

Section Matrices.
Variable F : realFieldType.

(** [Eigen::MatrixXd]: the dimensions are run-time data. *)
Record Matrix : Type := mkMatrix {
  rows : nat;
  cols : nat;
  coeff : 'M[F]_(rows, cols) }.

(** Eigen's comma initializer [M << a, b, c, ...] fills row by row. *)
Definition comma_init m n (l : seq F) : 'M[F]_(m, n) :=
  \matrix_(i, j) nth 0 l (i * n + j).

(** A fixed-size view of a dynamic matrix, when the dimensions agree. *)
Definition as_mx m n (M : Matrix) : option 'M[F]_(m, n) :=
  match rows M =P m, cols M =P n with
  | ReflectT em, ReflectT en => Some (castmx (em, en) (coeff M))
  | _, _ => None
  end.

(** [A.squaredNorm()] *)
Definition squaredNorm m n (A : 'M[F]_(m, n)) : F :=
  \sum_i \sum_j A i j ^+ 2.

End Matrices.

(** ** The g2o loader: [read_g2o_file] *)

Section G2O.
Variable F : realFieldType.

Record RelativeSEMeasurement : Type := mkRelativeSEMeasurement {
  r1 : N;
  r2 : N;
  p1 : N;
  p2 : N;
  R : Matrix F;
  t : Matrix F;
  kappa : F;
  tau : F;
  weight : F;
  fixedWeight : bool;
  isKnownInlier : bool }.

(** The fields of an [EDGE_SE2] line after the token, in the order of the
    extraction [strstrm >> i >> j >> dx >> ... >> I33]. *)
Record se2_fields : Type := mkSE2 {
  se2_i : N; se2_j : N;
  se2_dx : F; se2_dy : F; se2_dtheta : F;
  se2_I11 : F; se2_I12 : F; se2_I13 : F;
  se2_I22 : F; se2_I23 : F;
  se2_I33 : F }.

(** The fields of an [EDGE_SE3:QUAT] line; [se3_I] is the upper triangle
    [I11 I12 ... I16 I22 ... I66] of the information matrix, row by row. *)
Record se3_fields : Type := mkSE3 {
  se3_i : N; se3_j : N;
  se3_dx : F; se3_dy : F; se3_dz : F;
  se3_dqx : F; se3_dqy : F; se3_dqz : F; se3_dqw : F;
  se3_I11 : F; se3_I12 : F; se3_I13 : F; se3_I14 : F; se3_I15 : F; se3_I16 : F;
  se3_I22 : F; se3_I23 : F; se3_I24 : F; se3_I25 : F; se3_I26 : F;
  se3_I33 : F; se3_I34 : F; se3_I35 : F; se3_I36 : F;
  se3_I44 : F; se3_I45 : F; se3_I46 : F;
  se3_I55 : F; se3_I56 : F;
  se3_I66 : F }.

(** One line of the file, already split at white space.  An edge line
    carries all the fields its format lists.  [Unrecognized tok] is a line whose
    first token is none of the five the loader knows.  [Blank] is a line
    without any token: [strstrm >> token] then fails and leaves [token], and
    every later extraction leaves its variable, as the previous line set
    them. *)
Inductive g2o_line : Type :=
  | EDGE_SE2 of se2_fields
  | EDGE_SE3_QUAT of se3_fields
  | VERTEX_SE2
  | VERTEX_SE3_QUAT
  | FIX
  | Unrecognized of string
  | Blank.

(** Eigen's conversions of an angle and of a quaternion [(w, x, y, z)] to a
    rotation matrix. *)
Variable Rotation2D_toRotationMatrix : F -> 'M[F]_2.
Variable Quaternion_toRotationMatrix : F -> F -> F -> F -> 'M[F]_3.

(** Eigen's [M.inverse()] of a fixed-size matrix.  On an invertible matrix
    it is the inverse ([inverse_spec] below).  On a singular matrix Eigen
    divides by the zero determinant and the entries are infinities or
    not-a-numbers, values that [F] does not have: nothing is known of the
    parameter there, and the statements about the precisions are about lines
    whose blocks are invertible. *)
Variable Matrix_inverse : forall n, 'M[F]_n -> 'M[F]_n.

(** The quotient [x / y] of two doubles.  It is the quotient of [F] when
    [y] is not zero ([quotient_spec] below); with a zero divisor it is an
    infinity or a not-a-number, and nothing is known of the parameter
    there. *)
Variable double_quotient : F -> F -> F.

(** The branch [token == "EDGE_SE2"]. *)
Definition fill_EDGE_SE2 (measurement : RelativeSEMeasurement) (e : se2_fields)
  : RelativeSEMeasurement :=
  let i := se2_i e in
  let j := se2_j e in
  let TranCov : 'M[F]_2 :=
    comma_init 2 2 [:: se2_I11 e; se2_I12 e; se2_I12 e; se2_I22 e] in
  {| r1 := 0%num;
     r2 := 0%num;
     p1 := i;
     p2 := j;
     t := mkMatrix (comma_init 2 1 [:: se2_dx e; se2_dy e]);
     R := mkMatrix (Rotation2D_toRotationMatrix (se2_dtheta e));
     tau := double_quotient 2%:R (\tr (Matrix_inverse TranCov));
     kappa := se2_I33 e;
     weight := weight measurement;
     fixedWeight := size_t_add i 1 == j;
     isKnownInlier := isKnownInlier measurement |}.

(** The branch [token == "EDGE_SE3:QUAT"]. *)
Definition fill_EDGE_SE3_QUAT (measurement : RelativeSEMeasurement)
  (e : se3_fields) : RelativeSEMeasurement :=
  let i := se3_i e in
  let j := se3_j e in
  let TranCov : 'M[F]_3 :=
    comma_init 3 3 [:: se3_I11 e; se3_I12 e; se3_I13 e;
                       se3_I12 e; se3_I22 e; se3_I23 e;
                       se3_I13 e; se3_I23 e; se3_I33 e] in
  let RotCov : 'M[F]_3 :=
    comma_init 3 3 [:: se3_I44 e; se3_I45 e; se3_I46 e;
                       se3_I45 e; se3_I55 e; se3_I56 e;
                       se3_I46 e; se3_I56 e; se3_I66 e] in
  {| r1 := 0%num;
     r2 := 0%num;
     p1 := i;
     p2 := j;
     t := mkMatrix (comma_init 3 1 [:: se3_dx e; se3_dy e; se3_dz e]);
     R := mkMatrix (Quaternion_toRotationMatrix
                      (se3_dqw e) (se3_dqx e) (se3_dqy e) (se3_dqz e));
     tau := double_quotient 3%:R (\tr (Matrix_inverse TranCov));
     kappa := double_quotient 3%:R (2%:R * \tr (Matrix_inverse RotCov));
     weight := weight measurement;
     fixedWeight := size_t_add i 1 == j;
     isKnownInlier := isKnownInlier measurement |}.

(** The variables that live across the iterations of the [while] loop:
    the output vector, the set of pose IDs, the measurement being filled in,
    and what the last line with a token left in [token] and in the scalars. *)
Record reader : Type := mkReader {
  measurements : seq RelativeSEMeasurement;
  pose_ids : seq N;
  measurement : RelativeSEMeasurement;
  last_line : option g2o_line }.

Definition push_measurement (m : RelativeSEMeasurement) (l : g2o_line)
  (st : reader) : reader :=
  {| measurements := rcons (measurements st) m;
     pose_ids := set_emplace (p2 m) (set_emplace (p1 m) (pose_ids st));
     measurement := m;
     last_line := Some l |}.

Definition skip_line (l : g2o_line) (st : reader) : reader :=
  {| measurements := measurements st;
     pose_ids := pose_ids st;
     measurement := measurement st;
     last_line := Some l |}.

(** One iteration of [while (std::getline(infile, line))]. *)
Definition read_line (st : reader) (l : g2o_line) : result reader :=
  let effective := if l is Blank then last_line st else Some l in
  match effective with
  | Some (EDGE_SE2 e as l') =>
      Ok (push_measurement (fill_EDGE_SE2 (measurement st) e) l' st)
  | Some (EDGE_SE3_QUAT e as l') =>
      Ok (push_measurement (fill_EDGE_SE3_QUAT (measurement st) e) l' st)
  | Some (VERTEX_SE2 as l') | Some (VERTEX_SE3_QUAT as l') | Some (FIX as l') =>
      Ok (skip_line l' st)
  | Some (Unrecognized tok) =>
      Fatal ("[read_g2o_file] Unrecognized type: " ++ tok ++ "!")
  | Some Blank | None =>
      Fatal "[read_g2o_file] Unrecognized type: !"
  end.

Fixpoint read_lines (st : reader) (lines : seq g2o_line) : result reader :=
  match lines with
  | [::] => Ok st
  | l :: lines' => st' <-- read_line st l ;; read_lines st' lines'
  end.

(** The loop [for (const size_t& pose_id : pose_ids)], which aborts at the
    first gap. *)
Fixpoint consecutive_from (prev_pose_id : N) (ids : seq N) : bool :=
  match ids with
  | [::] => true
  | pose_id :: ids' =>
      if pose_id != size_t_add prev_pose_id 1 then false
      else consecutive_from pose_id ids'
  end.

Definition reindex (first_pose_id : N) (m : RelativeSEMeasurement)
  : RelativeSEMeasurement :=
  {| r1 := r1 m; r2 := r2 m;
     p1 := size_t_sub (p1 m) first_pose_id;
     p2 := size_t_sub (p2 m) first_pose_id;
     R := R m; t := t m; kappa := kappa m; tau := tau m; weight := weight m;
     fixedWeight := fixedWeight m; isKnownInlier := isKnownInlier m |}.

(** The state of the loop before the first line: [default_measurement] is
    the default-constructed [RelativeSEMeasurement], whose weight the loader
    sets to 1. *)
Definition initial_reader (default_measurement : RelativeSEMeasurement) : reader :=
  mkReader [::] [::]
    {| r1 := r1 default_measurement; r2 := r2 default_measurement;
       p1 := p1 default_measurement; p2 := p2 default_measurement;
       R := R default_measurement; t := t default_measurement;
       kappa := kappa default_measurement; tau := tau default_measurement;
       weight := 1;
       fixedWeight := fixedWeight default_measurement;
       isKnownInlier := isKnownInlier default_measurement |}
    None.

(** The result is the returned vector together with the value stored in
    [num_poses]. *)
Definition read_g2o_file (default_measurement : RelativeSEMeasurement)
  (lines : seq g2o_line) : result (seq RelativeSEMeasurement * N) :=
  st <-- read_lines (initial_reader default_measurement) lines ;;
  match pose_ids st with
  | [::] => Undefined "*pose_ids.begin() on an empty set"
  | first_pose_id :: _ =>
      if consecutive_from (size_t_sub first_pose_id 1) (pose_ids st) then
        let measurements' :=
          if first_pose_id != 0%num
          then [seq reindex first_pose_id m | m <- measurements st]
          else measurements st in
        Ok (measurements', N.of_nat (size (pose_ids st)))
      else
        Fatal "[read_g2o_file] Invalid pose ID sequencing. The set of pose IDs must be consecutive!"
  end.

(** *** The quantities the statements about the loader refer to *)

(** The symmetric information matrix of an edge line, filled from the upper
    triangle the line lists: translation block first, rotation block last. *)
Definition information_SE2 (e : se2_fields) : 'M[F]_(2 + 1) :=
  comma_init 3 3 [:: se2_I11 e; se2_I12 e; se2_I13 e;
                     se2_I12 e; se2_I22 e; se2_I23 e;
                     se2_I13 e; se2_I23 e; se2_I33 e].

Definition information_SE3 (e : se3_fields) : 'M[F]_(3 + 3) :=
  comma_init 6 6
    [:: se3_I11 e; se3_I12 e; se3_I13 e; se3_I14 e; se3_I15 e; se3_I16 e;
        se3_I12 e; se3_I22 e; se3_I23 e; se3_I24 e; se3_I25 e; se3_I26 e;
        se3_I13 e; se3_I23 e; se3_I33 e; se3_I34 e; se3_I35 e; se3_I36 e;
        se3_I14 e; se3_I24 e; se3_I34 e; se3_I44 e; se3_I45 e; se3_I46 e;
        se3_I15 e; se3_I25 e; se3_I35 e; se3_I45 e; se3_I55 e; se3_I56 e;
        se3_I16 e; se3_I26 e; se3_I36 e; se3_I46 e; se3_I56 e; se3_I66 e].

(** What is known of Eigen's [inverse()] and of the quotient. *)
Definition inverse_spec : Prop :=
  forall n (A : 'M[F]_n), A \in unitmx -> Matrix_inverse A = invmx A.

Definition quotient_spec : Prop :=
  forall x y : F, y != 0 -> double_quotient x y = x / y.

(** The two blocks of an information matrix are invertible and the traces
    of the covariances are not zero: the quotients of the formulas are
    quotients of numbers by numbers other than zero. *)
Definition regular_information dt dr (I : 'M[F]_(dt + dr)) : bool :=
  [&& ulsubmx I \in unitmx, drsubmx I \in unitmx,
      \tr (invmx (ulsubmx I)) != 0 & \tr (invmx (drsubmx I)) != 0].

Definition regular_edge (l : g2o_line) : bool :=
  match l with
  | EDGE_SE2 e => regular_information (information_SE2 e)
  | EDGE_SE3_QUAT e => regular_information (information_SE3 e)
  | _ => true
  end.

(** The measurement [m] carries the precisions of the edge line [l]:
    [kappa = d / (2 tr(Sigma_r))] and [tau = d / tr(Sigma_t)], where the
    covariances are the inverses of the rotation block (lower right) and of
    the translation block (upper left, of size [d]) of the information matrix
    of [l], and [d] is 2 for [EDGE_SE2] and 3 for [EDGE_SE3:QUAT]. *)
Definition line_precisions (l : g2o_line) (m : RelativeSEMeasurement) : Prop :=
  match l with
  | EDGE_SE2 e =>
      let Sigma_r := invmx (drsubmx (information_SE2 e)) in
      let Sigma_t := invmx (ulsubmx (information_SE2 e)) in
      kappa m = 2%:R / (2%:R * \tr Sigma_r) /\ tau m = 2%:R / \tr Sigma_t
  | EDGE_SE3_QUAT e =>
      let Sigma_r := invmx (drsubmx (information_SE3 e)) in
      let Sigma_t := invmx (ulsubmx (information_SE3 e)) in
      kappa m = 3%:R / (2%:R * \tr Sigma_r) /\ tau m = 3%:R / \tr Sigma_t
  | _ => False
  end.

Definition is_edge (l : g2o_line) : bool :=
  match l with
  | EDGE_SE2 _ | EDGE_SE3_QUAT _ => true
  | _ => false
  end.

(** The lines of the file as the loop reads them, a blank line standing for
    the line before it (a blank first line stays), and the edge lines among
    them: the lines the measurements are parsed from, in the order of the
    file. *)
Fixpoint lines_read (previous : g2o_line) (lines : seq g2o_line)
  : seq g2o_line :=
  match lines with
  | [::] => [::]
  | l :: lines' =>
      let l' := if l is Blank then previous else l in
      l' :: lines_read l' lines'
  end.

Definition parsed_edges (lines : seq g2o_line) : seq g2o_line :=
  [seq l <- lines_read Blank lines | is_edge l].

(** The line that a blank line repeats, as the loop variables hold it. *)
Definition previous_line (st : reader) : g2o_line :=
  if last_line st is Some l then l else Blank.

(** The pose IDs a line names, and those of a file. *)
Definition line_pose_ids (l : g2o_line) : seq N :=
  match l with
  | EDGE_SE2 e => [:: se2_i e; se2_j e]
  | EDGE_SE3_QUAT e => [:: se3_i e; se3_j e]
  | _ => [::]
  end.

Definition file_pose_ids (lines : seq g2o_line) : seq N :=
  flatten [seq line_pose_ids l | l <- lines].

(** The IDs are exactly the [n] integers from [k] on. *)
Definition is_range (k n : N) (ids : seq N) : Prop :=
  forall x, x \in ids <-> (k <= x /\ x < k + n)%num.

(** Every pose ID of the file is a [size_t]. *)
Definition size_t_ids (lines : seq g2o_line) : Prop :=
  forall x, x \in file_pose_ids lines -> (x < size_t_modulus)%num.

(** Both endpoints moved down by [k]. *)
Definition decrement_ids (k : N) (m : RelativeSEMeasurement) : RelativeSEMeasurement :=
  {| r1 := r1 m; r2 := r2 m;
     p1 := (p1 m - k)%num;
     p2 := (p2 m - k)%num;
     R := R m; t := t m; kappa := kappa m; tau := tau m; weight := weight m;
     fixedWeight := fixedWeight m; isKnownInlier := isKnownInlier m |}.

(** What holds of the loop variables after the lines [seen]: the set is
    ordered and holds the pose IDs seen, every measurement has its endpoints
    in the set, the line remembered for a blank line is one seen, and every
    pose ID is an endpoint of a measurement. *)
Definition reader_ok (seen : seq g2o_line) (st : reader) : Prop :=
  [/\ sorted N_lt (pose_ids st),
      forall x, x \in pose_ids st <-> x \in file_pose_ids seen,
      forall m, List.In m (measurements st) ->
        p1 m \in pose_ids st /\ p2 m \in pose_ids st,
      forall l, last_line st = Some l -> l <> Blank /\ List.In l seen
    & forall x, x \in pose_ids st ->
        exists2 m, List.In m (measurements st) & x = p1 m \/ x = p2 m].

End G2O.

(** ** Poses, dictionaries and the scalars of the termination test *)

Section Types.
Variable F : realFieldType.

(** The result of [Eigen::JacobiSVD] with thin factors, of a matrix with at
    least as many rows as columns.  For a square matrix the thin and the full
    factors coincide. *)
Record SVD (m n : nat) : Type := mkSVD {
  matrixU : 'M[F]_(m, n);
  singularValues : 'rV[F]_n;
  matrixV : 'M[F]_n }.

(** What a singular value decomposition of [M] is. *)
Definition svd_spec m n (M : 'M[F]_(m, n)) (s : SVD m n) : Prop :=
  [/\ M = matrixU s *m diag_mx (singularValues s) *m (matrixV s)^T,
      (matrixU s)^T *m matrixU s = 1%:M,
      (matrixV s)^T *m matrixV s = 1%:M
    & forall i, 0 <= singularValues s 0 i].

(** Modelled from the spec: the classes of [DPGO_types] are not among the
    verified files.  [LiftedPose(r, d)] is the block [[Y | p]] with [Y] of
    size r-by-d and [p] in R^r, [Pose(d)] is the case r = d, and a
    [LiftedPoseArray] is the column-concatenation of its poses, kept here as
    the list of the blocks. *)
Record LiftedPose (r d : nat) : Type := mkLiftedPose {
  rotation : 'M[F]_(r, d);
  translation : 'cV[F]_r }.

Definition Pose (d : nat) : Type := LiftedPose d d.
Definition LiftedPoseArray (r d : nat) : Type := seq (LiftedPose r d).
Definition PoseArray (d : nat) : Type := LiftedPoseArray d d.

(** [A * X.pose()] and [A * X.getData()]: the product acts on every block. *)
Definition lmul_pose q r d (A : 'M[F]_(q, r)) (x : LiftedPose r d)
  : LiftedPose q d :=
  mkLiftedPose (A *m rotation x) (A *m translation x).

Definition lmul_array q r d (A : 'M[F]_(q, r)) (X : LiftedPoseArray r d)
  : LiftedPoseArray q d :=
  [seq lmul_pose A x | x <- X].

(** [a * X + b * V] on the data of two arrays of the same length. *)
Definition lincomb_pose r d (a : F) (x : LiftedPose r d) (b : F)
  (v : LiftedPose r d) : LiftedPose r d :=
  mkLiftedPose (a *: rotation x + b *: rotation v)
               (a *: translation x + b *: translation v).

Definition lincomb_array r d (a : F) (X : LiftedPoseArray r d) (b : F)
  (V : LiftedPoseArray r d) : LiftedPoseArray r d :=
  [seq lincomb_pose a xv.1 b xv.2 | xv <- zip X V].

(** Modelled from the spec: the rigid transforms [[R | t]] of class [Pose]
    with the identity, the product and the inverse of SE(d). *)
Definition Pose_Identity d : Pose d := mkLiftedPose 1%:M 0.

Definition Pose_mul d (T1 T2 : Pose d) : Pose d :=
  mkLiftedPose (rotation T1 *m rotation T2)
               (rotation T1 *m translation T2 + translation T1).

Definition Pose_inverse d (T : Pose d) : Pose d :=
  mkLiftedPose (rotation T)^T (- ((rotation T)^T *m translation T)).

(** [X.pose(i)]: an index past the end is undefined behaviour. *)
Definition pose_at r d (X : LiftedPoseArray r d) (i : N)
  : result (LiftedPose r d) :=
  if nth None [seq Some x | x <- X] (N.to_nat i) is Some x then Ok x
  else Undefined "pose index out of range".

(** Modelled from the spec: [PoseID] is the pair [(robot_id, frame_id)]. *)
Record PoseID : Type := mkPoseID { robot_id : N; frame_id : N }.

(** A lifted pose received from another robot: its dimensions are data. *)
Record LiftedPoseDyn : Type := mkLiftedPoseDyn {
  lp_r : nat;
  lp_d : nat;
  lp_pose : LiftedPose lp_r lp_d }.

Definition as_LiftedPose r d (x : LiftedPoseDyn) : option (LiftedPose r d) :=
  match lp_r x =P r, lp_d x =P d with
  | ReflectT er, ReflectT ed =>
      Some (mkLiftedPose (castmx (er, ed) (rotation (lp_pose x)))
                         (castmx (er, erefl) (translation (lp_pose x))))
  | _, _ => None
  end.

(** Modelled from the spec: the three states of the agent. *)
Variant PGOAgentState : Type :=
  | WAIT_FOR_DATA
  | WAIT_FOR_INITIALIZATION
  | INITIALIZED.

Definition PGOAgentState_eqb (s1 s2 : PGOAgentState) : bool :=
  match s1, s2 with
  | WAIT_FOR_DATA, WAIT_FOR_DATA => true
  | WAIT_FOR_INITIALIZATION, WAIT_FOR_INITIALIZATION => true
  | INITIALIZED, INITIALIZED => true
  | _, _ => false
  end.

(** A C++ [double] where the special values matter: not-a-number, an
    infinity with its sign ([true] for negative), or a finite value. *)
Variant double : Type :=
  | DNaN
  | DInf of bool
  | DFin of F.

(** [x / y] on finite operands; a zero divisor is the positive zero. *)
Definition ddiv (x y : F) : double :=
  if y == 0 then (if x == 0 then DNaN else DInf (x < 0)) else DFin (x / y).

(** [x < y]: false as soon as an operand is not a number. *)
Definition dlt (x y : double) : bool :=
  match x, y with
  | DNaN, _ | _, DNaN => false
  | DInf sx, DInf sy => sx && ~~ sy
  | DInf sx, DFin _ => sx
  | DFin _, DInf sy => ~~ sy
  | DFin a, DFin b => a < b
  end.

Definition dgt (x y : double) : bool := dlt y x.

(** [x <= y] and [x >= y], also false on a not-a-number. *)
Definition dle (x y : double) : bool :=
  match x, y with
  | DNaN, _ | _, DNaN => false
  | DInf sx, DInf sy => sx || ~~ sy
  | DInf sx, DFin _ => sx
  | DFin _, DInf sy => ~~ sy
  | DFin a, DFin b => a <= b
  end.

Definition dge (x y : double) : bool := dle y x.

(** Modelled from the spec: the status message, with the fields in the
    order of the constructor call
    [PGOAgentStatus(ID, mState, 0, 0, false, 0)]. *)
Record PGOAgentStatus : Type := mkPGOAgentStatus {
  agentID : N;
  state : PGOAgentState;
  instanceNumber : N;
  iterationNumber : N;
  readyToTerminate : bool;
  relativeChange : double }.

(** [PoseGraph::Statistics]: the three fields that [iterate] reads, which
    it prints with [%f] and which are therefore floating-point. *)
Record Statistics : Type := mkStatistics {
  total_loop_closures : F;
  accept_loop_closures : F;
  reject_loop_closures : F }.

Variant ROptMethod : Type := RTR | RGD.

Variant RobustCostType : Type := L2 | TLS | Huber | Tukey | GM.

End Types.

Definition PoseID_pair (p : PoseID) : N * N := (robot_id p, frame_id p).
Definition pair_PoseID (p : N * N) : PoseID := mkPoseID p.1 p.2.
Definition PoseID_pairK : cancel PoseID_pair pair_PoseID :=
  fun p => let: mkPoseID _ _ := p in erefl.
HB.instance Definition _ := Equality.copy PoseID (can_type PoseID_pairK).

(** [PoseDict], a [std::map<PoseID, LiftedPose>], as an association list;
    a key is looked up at its first occurrence. *)
Section PoseDict.
Variable F : realFieldType.

Definition PoseDict : Type := seq (PoseID * LiftedPoseDyn F).

Fixpoint dict_find (k : PoseID) (m : PoseDict) : option (LiftedPoseDyn F) :=
  match m with
  | [::] => None
  | (k', v) :: m' => if k' == k then Some v else dict_find k m'
  end.

(** [m[k] = v] *)
Fixpoint dict_set (k : PoseID) (v : LiftedPoseDyn F) (m : PoseDict) : PoseDict :=
  match m with
  | [::] => [:: (k, v)]
  | (k', v') :: m' =>
      if k' == k then (k, v) :: m' else (k', v') :: dict_set k v m'
  end.

End PoseDict.

(** ** What the agent uses and the verified files do not define *)

Section Utilities.
Variable F : realFieldType.

(** Eigen and libm, the C library generator and ROPTLIB, and the classes
    [LiftedArray], [LiftedSEManifold], [PoseGraph], [QuadraticOptimizer] and
    [RobustCost] with the averaging routines of [DPGO_robust].
    - [rand_state] is the state of the random generators of the process,
      [srand seed] is [std::srand(seed)] and [RandInManifold] is
      [ROPTLIB::StieVariable::RandInManifold].
    - [translation_by_reference] tells whether [PoseArray::translation(i)]
      hands out a view into the array (so that an [auto] variable initialized
      with it follows later writes) or a copy.
    - [constructDataMatrices] returns its success flag and the graph with
      its cache. *)
Record External : Type := mkExternal {
  JacobiSVD : forall m n, 'M[F]_(m, n) -> SVD F m n;
  sqrt : F -> F;
  sin : F -> F;
  rand_state : Type;
  srand : N -> rand_state -> rand_state;
  RandInManifold : forall r d, rand_state -> 'M[F]_(r, d) * rand_state;
  LiftedPoseArray_new : forall r d, N -> LiftedPoseArray F r d;
  translation_by_reference : bool;
  averageTranslationDistance :
    forall r d, LiftedPoseArray F r d -> LiftedPoseArray F r d -> double F;
  manifold_project : forall r d, LiftedPoseArray F r d -> LiftedPoseArray F r d;
  PoseGraph : Type;
  PoseGraph_new : N -> nat -> nat -> PoseGraph;
  PoseGraph_n : PoseGraph -> N;
  neighborPublicPoseIDs : PoseGraph -> seq PoseID;
  sharedLoopClosuresWithRobot : PoseGraph -> N -> seq (RelativeSEMeasurement F);
  privateLoopClosures : PoseGraph -> seq (RelativeSEMeasurement F);
  set_privateLoopClosures : seq (RelativeSEMeasurement F) -> PoseGraph -> PoseGraph;
  sharedLoopClosures : PoseGraph -> seq (RelativeSEMeasurement F);
  set_sharedLoopClosures : seq (RelativeSEMeasurement F) -> PoseGraph -> PoseGraph;
  setNeighborPoses : PoseDict F -> PoseGraph -> PoseGraph;
  constructDataMatrices : PoseGraph -> bool * PoseGraph;
  clearDataMatrices : PoseGraph -> PoseGraph;
  statistics : PoseGraph -> Statistics F;
  optimize :
    forall r d, PoseGraph -> ROptMethod -> LiftedPoseArray F r d -> LiftedPoseArray F r d;
  RobustCostParameters : Type;
  costType : RobustCostParameters -> RobustCostType;
  RobustCost : Type;
  RobustCost_new : RobustCostParameters -> RobustCost;
  RobustCost_reset : RobustCost -> RobustCost;
  RobustCost_update : RobustCost -> RobustCost;
  RobustCost_weight : RobustCost -> F -> F;
  robustSingleRotationAveraging :
    forall d, seq 'M[F]_d -> seq F -> F -> 'M[F]_d * seq N;
  singleTranslationAveraging : forall d, seq 'cV[F]_d -> 'cV[F]_d }.

Variable E : External.

(** *** The utilities of [DPGO_utils.cpp] *)

Definition negate_last_col m n (U : 'M[F]_(m, n)) : 'M[F]_(m, n) :=
  \matrix_(i, j) (if (j.+1 == n)%N then - U i j else U i j).

Definition projectToRotationGroup d (M : 'M[F]_d) : 'M[F]_d :=
  let svd := JacobiSVD E M in
  let detU := \det (matrixU svd) in
  let detV := \det (matrixV svd) in
  if 0 < detU * detV then matrixU svd *m (matrixV svd)^T
  else
    let Uprime := negate_last_col (matrixU svd) in
    Uprime *m (matrixV svd)^T.

Definition projectToStiefelManifold r d (M : 'M[F]_(r, d)) : result 'M[F]_(r, d) :=
  _ <-- CHECK (d <= r)%N "r >= d" ;;
  let svd := JacobiSVD E M in
  Ok (matrixU svd *m (matrixV svd)^T).

Definition fixedStiefelVariable (d r : nat) (g : rand_state E)
  : Matrix F * rand_state E :=
  let g := srand 1%num g in
  let: (var, g') := RandInManifold r d g in
  (mkMatrix var, g').

Definition randomStiefelVariable (d r : nat) (g : rand_state E)
  : Matrix F * rand_state E :=
  let: (var, g') := RandInManifold r d g in
  (mkMatrix var, g').

(** The measurement holds [R] and [t] as dynamic matrices; a product with
    mismatched dimensions is outside Eigen's contract. *)
Definition computeMeasurementError r d (m : RelativeSEMeasurement F)
  (R1 : 'M[F]_(r, d)) (t1 : 'cV[F]_r) (R2 : 'M[F]_(r, d)) (t2 : 'cV[F]_r)
  : result F :=
  match as_mx d d (R m), as_mx d 1 (t m) with
  | Some mR, Some mt =>
      let rotationErrorSq := squaredNorm (R1 *m mR - R2) in
      let translationErrorSq := squaredNorm (t2 - t1 - R1 *m mt) in
      Ok (kappa m * rotationErrorSq + tau m * translationErrorSq)
  | _, _ => Undefined "Eigen: operands of different dimensions"
  end.

Definition angular2ChordalSO3 (rad : F) : F :=
  2%:R * sqrt E 2%:R * sin E (rad / 2%:R).

(** Predicates on matrices used in the statements. *)
Definition is_stiefel r d (Y : 'M[F]_(r, d)) : Prop := Y^T *m Y = 1%:M.

Definition is_rotation d (R : 'M[F]_d) : Prop :=
  R^T *m R = 1%:M /\ \det R = 1.

(** [JacobiSVD] returns orthogonal factors for the square matrices of
    dimension [d]. *)
Definition svd_orthogonal (d : nat) : Prop :=
  forall M : 'M[F]_d,
    (matrixU (JacobiSVD E M))^T *m matrixU (JacobiSVD E M) = 1%:M
    /\ (matrixV (JacobiSVD E M))^T *m matrixV (JacobiSVD E M) = 1%:M.

(** The diagonal of signs by which [negate_last_col] multiplies. *)
Definition last_sign n : 'rV[F]_n := \row_j (if (j.+1 == n)%N then -1 else 1).

End Utilities.

(** ** The agent: [PGOAgent] *)

Section PGOAgent.
Variable F : realFieldType.
Variable E : External F.

(** The dimension [d] and the relaxation rank [r], which the constructor
    copies from [params.d] and [params.r] and nothing changes afterwards. *)
Variables r d : nat.

(** The fields of [PGOAgentParameters] that the functions below read. *)
Record PGOAgentParameters : Type := mkPGOAgentParameters {
  verbose : bool;
  logData : bool;
  logDirectory : string;
  algorithm : ROptMethod;
  acceleration : bool;
  restartInterval : N;
  numRobots : N;
  maxNumIters : N;
  relChangeTol : double F;
  multirobot_initialization : bool;
  robustInitMinInliers : N;
  robustOptWarmStart : bool;
  robustOptInnerIters : N;
  robustOptMinConvergenceRatio : double F;
  robustCostParams : RobustCostParameters E }.

(** The members of the agent that the functions below read or write.  The
    counters are naturals without a bound: the header that declares their
    type is not among the verified files.  [mOptimizationThread] tells
    whether the worker thread exists.  The locks, the logger and the rate of
    the worker carry no state of the model, and writing the log changes no
    member. *)
Record PGOAgent : Type := mkPGOAgent {
  mID : N;
  X : LiftedPoseArray F r d;
  mParams : PGOAgentParameters;
  mState : PGOAgentState;
  mStatus : PGOAgentStatus F;
  mRobustCost : RobustCost E;
  mPoseGraph : PoseGraph E;
  mInstanceNumber : N;
  mIterationNumber : N;
  mNumPosesReceived : N;
  gamma : F;
  alpha : F;
  Y : LiftedPoseArray F r d;
  V : LiftedPoseArray F r d;
  XPrev : LiftedPoseArray F r d;
  YLift : option 'M[F]_(r, d);
  globalAnchor : option (LiftedPose F r d);
  TLocalInit : option (PoseArray F d);
  XInit : option (LiftedPoseArray F r d);
  neighborPoseDict : PoseDict F;
  neighborAuxPoseDict : PoseDict F;
  mTeamStatus : seq (N * PGOAgentStatus F);
  mOptimizationRequested : bool;
  mPublishPublicPosesRequested : bool;
  mPublishWeightsRequested : bool;
  mOptimizationThread : bool }.

(** Assignment to one member. *)
Definition set_X (v : LiftedPoseArray F r d) (a : PGOAgent) : PGOAgent :=
  mkPGOAgent (mID a) v (mParams a) (mState a) (mStatus a) (mRobustCost a)
    (mPoseGraph a) (mInstanceNumber a) (mIterationNumber a) (mNumPosesReceived
    a) (gamma a) (alpha a) (Y a) (V a) (XPrev a) (YLift a) (globalAnchor a)
    (TLocalInit a) (XInit a) (neighborPoseDict a) (neighborAuxPoseDict a)
    (mTeamStatus a) (mOptimizationRequested a) (mPublishPublicPosesRequested
    a) (mPublishWeightsRequested a) (mOptimizationThread a).

Definition set_mState (v : PGOAgentState) (a : PGOAgent) : PGOAgent :=
  mkPGOAgent (mID a) (X a) (mParams a) v (mStatus a) (mRobustCost a)
    (mPoseGraph a) (mInstanceNumber a) (mIterationNumber a) (mNumPosesReceived
    a) (gamma a) (alpha a) (Y a) (V a) (XPrev a) (YLift a) (globalAnchor a)
    (TLocalInit a) (XInit a) (neighborPoseDict a) (neighborAuxPoseDict a)
    (mTeamStatus a) (mOptimizationRequested a) (mPublishPublicPosesRequested
    a) (mPublishWeightsRequested a) (mOptimizationThread a).

Definition set_mStatus (v : PGOAgentStatus F) (a : PGOAgent) : PGOAgent :=
  mkPGOAgent (mID a) (X a) (mParams a) (mState a) v (mRobustCost a)
    (mPoseGraph a) (mInstanceNumber a) (mIterationNumber a) (mNumPosesReceived
    a) (gamma a) (alpha a) (Y a) (V a) (XPrev a) (YLift a) (globalAnchor a)
    (TLocalInit a) (XInit a) (neighborPoseDict a) (neighborAuxPoseDict a)
    (mTeamStatus a) (mOptimizationRequested a) (mPublishPublicPosesRequested
    a) (mPublishWeightsRequested a) (mOptimizationThread a).

Definition set_mRobustCost (v : RobustCost E) (a : PGOAgent) : PGOAgent :=
  mkPGOAgent (mID a) (X a) (mParams a) (mState a) (mStatus a) v (mPoseGraph a)
    (mInstanceNumber a) (mIterationNumber a) (mNumPosesReceived a) (gamma a)
    (alpha a) (Y a) (V a) (XPrev a) (YLift a) (globalAnchor a) (TLocalInit a)
    (XInit a) (neighborPoseDict a) (neighborAuxPoseDict a) (mTeamStatus a)
    (mOptimizationRequested a) (mPublishPublicPosesRequested a)
    (mPublishWeightsRequested a) (mOptimizationThread a).

Definition set_mPoseGraph (v : PoseGraph E) (a : PGOAgent) : PGOAgent :=
  mkPGOAgent (mID a) (X a) (mParams a) (mState a) (mStatus a) (mRobustCost a)
    v (mInstanceNumber a) (mIterationNumber a) (mNumPosesReceived a) (gamma a)
    (alpha a) (Y a) (V a) (XPrev a) (YLift a) (globalAnchor a) (TLocalInit a)
    (XInit a) (neighborPoseDict a) (neighborAuxPoseDict a) (mTeamStatus a)
    (mOptimizationRequested a) (mPublishPublicPosesRequested a)
    (mPublishWeightsRequested a) (mOptimizationThread a).

Definition set_mInstanceNumber (v : N) (a : PGOAgent) : PGOAgent :=
  mkPGOAgent (mID a) (X a) (mParams a) (mState a) (mStatus a) (mRobustCost a)
    (mPoseGraph a) v (mIterationNumber a) (mNumPosesReceived a) (gamma a)
    (alpha a) (Y a) (V a) (XPrev a) (YLift a) (globalAnchor a) (TLocalInit a)
    (XInit a) (neighborPoseDict a) (neighborAuxPoseDict a) (mTeamStatus a)
    (mOptimizationRequested a) (mPublishPublicPosesRequested a)
    (mPublishWeightsRequested a) (mOptimizationThread a).

Definition set_mIterationNumber (v : N) (a : PGOAgent) : PGOAgent :=
  mkPGOAgent (mID a) (X a) (mParams a) (mState a) (mStatus a) (mRobustCost a)
    (mPoseGraph a) (mInstanceNumber a) v (mNumPosesReceived a) (gamma a)
    (alpha a) (Y a) (V a) (XPrev a) (YLift a) (globalAnchor a) (TLocalInit a)
    (XInit a) (neighborPoseDict a) (neighborAuxPoseDict a) (mTeamStatus a)
    (mOptimizationRequested a) (mPublishPublicPosesRequested a)
    (mPublishWeightsRequested a) (mOptimizationThread a).

Definition set_mNumPosesReceived (v : N) (a : PGOAgent) : PGOAgent :=
  mkPGOAgent (mID a) (X a) (mParams a) (mState a) (mStatus a) (mRobustCost a)
    (mPoseGraph a) (mInstanceNumber a) (mIterationNumber a) v (gamma a) (alpha
    a) (Y a) (V a) (XPrev a) (YLift a) (globalAnchor a) (TLocalInit a) (XInit
    a) (neighborPoseDict a) (neighborAuxPoseDict a) (mTeamStatus a)
    (mOptimizationRequested a) (mPublishPublicPosesRequested a)
    (mPublishWeightsRequested a) (mOptimizationThread a).

Definition set_gamma (v : F) (a : PGOAgent) : PGOAgent :=
  mkPGOAgent (mID a) (X a) (mParams a) (mState a) (mStatus a) (mRobustCost a)
    (mPoseGraph a) (mInstanceNumber a) (mIterationNumber a) (mNumPosesReceived
    a) v (alpha a) (Y a) (V a) (XPrev a) (YLift a) (globalAnchor a)
    (TLocalInit a) (XInit a) (neighborPoseDict a) (neighborAuxPoseDict a)
    (mTeamStatus a) (mOptimizationRequested a) (mPublishPublicPosesRequested
    a) (mPublishWeightsRequested a) (mOptimizationThread a).

Definition set_alpha (v : F) (a : PGOAgent) : PGOAgent :=
  mkPGOAgent (mID a) (X a) (mParams a) (mState a) (mStatus a) (mRobustCost a)
    (mPoseGraph a) (mInstanceNumber a) (mIterationNumber a) (mNumPosesReceived
    a) (gamma a) v (Y a) (V a) (XPrev a) (YLift a) (globalAnchor a)
    (TLocalInit a) (XInit a) (neighborPoseDict a) (neighborAuxPoseDict a)
    (mTeamStatus a) (mOptimizationRequested a) (mPublishPublicPosesRequested
    a) (mPublishWeightsRequested a) (mOptimizationThread a).

Definition set_Y (v : LiftedPoseArray F r d) (a : PGOAgent) : PGOAgent :=
  mkPGOAgent (mID a) (X a) (mParams a) (mState a) (mStatus a) (mRobustCost a)
    (mPoseGraph a) (mInstanceNumber a) (mIterationNumber a) (mNumPosesReceived
    a) (gamma a) (alpha a) v (V a) (XPrev a) (YLift a) (globalAnchor a)
    (TLocalInit a) (XInit a) (neighborPoseDict a) (neighborAuxPoseDict a)
    (mTeamStatus a) (mOptimizationRequested a) (mPublishPublicPosesRequested
    a) (mPublishWeightsRequested a) (mOptimizationThread a).

Definition set_V (v : LiftedPoseArray F r d) (a : PGOAgent) : PGOAgent :=
  mkPGOAgent (mID a) (X a) (mParams a) (mState a) (mStatus a) (mRobustCost a)
    (mPoseGraph a) (mInstanceNumber a) (mIterationNumber a) (mNumPosesReceived
    a) (gamma a) (alpha a) (Y a) v (XPrev a) (YLift a) (globalAnchor a)
    (TLocalInit a) (XInit a) (neighborPoseDict a) (neighborAuxPoseDict a)
    (mTeamStatus a) (mOptimizationRequested a) (mPublishPublicPosesRequested
    a) (mPublishWeightsRequested a) (mOptimizationThread a).

Definition set_XPrev (v : LiftedPoseArray F r d) (a : PGOAgent) : PGOAgent :=
  mkPGOAgent (mID a) (X a) (mParams a) (mState a) (mStatus a) (mRobustCost a)
    (mPoseGraph a) (mInstanceNumber a) (mIterationNumber a) (mNumPosesReceived
    a) (gamma a) (alpha a) (Y a) (V a) v (YLift a) (globalAnchor a)
    (TLocalInit a) (XInit a) (neighborPoseDict a) (neighborAuxPoseDict a)
    (mTeamStatus a) (mOptimizationRequested a) (mPublishPublicPosesRequested
    a) (mPublishWeightsRequested a) (mOptimizationThread a).

Definition set_YLift (v : option 'M[F]_(r, d)) (a : PGOAgent) : PGOAgent :=
  mkPGOAgent (mID a) (X a) (mParams a) (mState a) (mStatus a) (mRobustCost a)
    (mPoseGraph a) (mInstanceNumber a) (mIterationNumber a) (mNumPosesReceived
    a) (gamma a) (alpha a) (Y a) (V a) (XPrev a) v (globalAnchor a)
    (TLocalInit a) (XInit a) (neighborPoseDict a) (neighborAuxPoseDict a)
    (mTeamStatus a) (mOptimizationRequested a) (mPublishPublicPosesRequested
    a) (mPublishWeightsRequested a) (mOptimizationThread a).

Definition set_globalAnchor (v : option (LiftedPose F r d)) (a : PGOAgent) : PGOAgent :=
  mkPGOAgent (mID a) (X a) (mParams a) (mState a) (mStatus a) (mRobustCost a)
    (mPoseGraph a) (mInstanceNumber a) (mIterationNumber a) (mNumPosesReceived
    a) (gamma a) (alpha a) (Y a) (V a) (XPrev a) (YLift a) v (TLocalInit a)
    (XInit a) (neighborPoseDict a) (neighborAuxPoseDict a) (mTeamStatus a)
    (mOptimizationRequested a) (mPublishPublicPosesRequested a)
    (mPublishWeightsRequested a) (mOptimizationThread a).

Definition set_TLocalInit (v : option (PoseArray F d)) (a : PGOAgent) : PGOAgent :=
  mkPGOAgent (mID a) (X a) (mParams a) (mState a) (mStatus a) (mRobustCost a)
    (mPoseGraph a) (mInstanceNumber a) (mIterationNumber a) (mNumPosesReceived
    a) (gamma a) (alpha a) (Y a) (V a) (XPrev a) (YLift a) (globalAnchor a) v
    (XInit a) (neighborPoseDict a) (neighborAuxPoseDict a) (mTeamStatus a)
    (mOptimizationRequested a) (mPublishPublicPosesRequested a)
    (mPublishWeightsRequested a) (mOptimizationThread a).

Definition set_XInit (v : option (LiftedPoseArray F r d)) (a : PGOAgent) : PGOAgent :=
  mkPGOAgent (mID a) (X a) (mParams a) (mState a) (mStatus a) (mRobustCost a)
    (mPoseGraph a) (mInstanceNumber a) (mIterationNumber a) (mNumPosesReceived
    a) (gamma a) (alpha a) (Y a) (V a) (XPrev a) (YLift a) (globalAnchor a)
    (TLocalInit a) v (neighborPoseDict a) (neighborAuxPoseDict a) (mTeamStatus
    a) (mOptimizationRequested a) (mPublishPublicPosesRequested a)
    (mPublishWeightsRequested a) (mOptimizationThread a).

Definition set_neighborPoseDict (v : PoseDict F) (a : PGOAgent) : PGOAgent :=
  mkPGOAgent (mID a) (X a) (mParams a) (mState a) (mStatus a) (mRobustCost a)
    (mPoseGraph a) (mInstanceNumber a) (mIterationNumber a) (mNumPosesReceived
    a) (gamma a) (alpha a) (Y a) (V a) (XPrev a) (YLift a) (globalAnchor a)
    (TLocalInit a) (XInit a) v (neighborAuxPoseDict a) (mTeamStatus a)
    (mOptimizationRequested a) (mPublishPublicPosesRequested a)
    (mPublishWeightsRequested a) (mOptimizationThread a).

Definition set_neighborAuxPoseDict (v : PoseDict F) (a : PGOAgent) : PGOAgent :=
  mkPGOAgent (mID a) (X a) (mParams a) (mState a) (mStatus a) (mRobustCost a)
    (mPoseGraph a) (mInstanceNumber a) (mIterationNumber a) (mNumPosesReceived
    a) (gamma a) (alpha a) (Y a) (V a) (XPrev a) (YLift a) (globalAnchor a)
    (TLocalInit a) (XInit a) (neighborPoseDict a) v (mTeamStatus a)
    (mOptimizationRequested a) (mPublishPublicPosesRequested a)
    (mPublishWeightsRequested a) (mOptimizationThread a).

Definition set_mTeamStatus (v : seq (N * PGOAgentStatus F)) (a : PGOAgent) : PGOAgent :=
  mkPGOAgent (mID a) (X a) (mParams a) (mState a) (mStatus a) (mRobustCost a)
    (mPoseGraph a) (mInstanceNumber a) (mIterationNumber a) (mNumPosesReceived
    a) (gamma a) (alpha a) (Y a) (V a) (XPrev a) (YLift a) (globalAnchor a)
    (TLocalInit a) (XInit a) (neighborPoseDict a) (neighborAuxPoseDict a) v
    (mOptimizationRequested a) (mPublishPublicPosesRequested a)
    (mPublishWeightsRequested a) (mOptimizationThread a).

Definition set_mOptimizationRequested (v : bool) (a : PGOAgent) : PGOAgent :=
  mkPGOAgent (mID a) (X a) (mParams a) (mState a) (mStatus a) (mRobustCost a)
    (mPoseGraph a) (mInstanceNumber a) (mIterationNumber a) (mNumPosesReceived
    a) (gamma a) (alpha a) (Y a) (V a) (XPrev a) (YLift a) (globalAnchor a)
    (TLocalInit a) (XInit a) (neighborPoseDict a) (neighborAuxPoseDict a)
    (mTeamStatus a) v (mPublishPublicPosesRequested a)
    (mPublishWeightsRequested a) (mOptimizationThread a).

Definition set_mPublishPublicPosesRequested (v : bool) (a : PGOAgent) : PGOAgent :=
  mkPGOAgent (mID a) (X a) (mParams a) (mState a) (mStatus a) (mRobustCost a)
    (mPoseGraph a) (mInstanceNumber a) (mIterationNumber a) (mNumPosesReceived
    a) (gamma a) (alpha a) (Y a) (V a) (XPrev a) (YLift a) (globalAnchor a)
    (TLocalInit a) (XInit a) (neighborPoseDict a) (neighborAuxPoseDict a)
    (mTeamStatus a) (mOptimizationRequested a) v (mPublishWeightsRequested a)
    (mOptimizationThread a).

Definition set_mPublishWeightsRequested (v : bool) (a : PGOAgent) : PGOAgent :=
  mkPGOAgent (mID a) (X a) (mParams a) (mState a) (mStatus a) (mRobustCost a)
    (mPoseGraph a) (mInstanceNumber a) (mIterationNumber a) (mNumPosesReceived
    a) (gamma a) (alpha a) (Y a) (V a) (XPrev a) (YLift a) (globalAnchor a)
    (TLocalInit a) (XInit a) (neighborPoseDict a) (neighborAuxPoseDict a)
    (mTeamStatus a) (mOptimizationRequested a) (mPublishPublicPosesRequested
    a) v (mOptimizationThread a).

Definition set_mOptimizationThread (v : bool) (a : PGOAgent) : PGOAgent :=
  mkPGOAgent (mID a) (X a) (mParams a) (mState a) (mStatus a) (mRobustCost a)
    (mPoseGraph a) (mInstanceNumber a) (mIterationNumber a) (mNumPosesReceived
    a) (gamma a) (alpha a) (Y a) (V a) (XPrev a) (YLift a) (globalAnchor a)
    (TLocalInit a) (XInit a) (neighborPoseDict a) (neighborAuxPoseDict a)
    (mTeamStatus a) (mOptimizationRequested a) (mPublishPublicPosesRequested
    a) (mPublishWeightsRequested a) v.

Definition getID (a : PGOAgent) : N := mID a.
Definition num_poses (a : PGOAgent) : N := PoseGraph_n (mPoseGraph a).
Definition instance_number (a : PGOAgent) : N := mInstanceNumber a.
Definition iteration_number (a : PGOAgent) : N := mIterationNumber a.

(** Modelled from the spec: [LiftedArray::setData] is not among the verified
    files.  An array of [n] poses is an r-by-n(d+1) matrix, and [setData] is
    taken to check that its argument has these dimensions, as [setX] checks
    before it calls it. *)
Definition setData (n : nat) q p (M : LiftedPoseArray F q p)
  : result (LiftedPoseArray F q p) :=
  _ <-- CHECK (size M == n) "setData: dimension mismatch" ;;
  Ok M.

(** *** The worker thread

    [endOptimizationLoop] joins the worker.  The iterations the worker
    completes before it exits are calls of [iterate] that precede the
    caller's next statement. *)
Definition isOptimizationRunning (a : PGOAgent) : bool := mOptimizationThread a.

Definition endOptimizationLoop (a : PGOAgent) : PGOAgent :=
  if ~~ isOptimizationRunning a then a else set_mOptimizationThread false a.

Definition startOptimizationLoop (a : PGOAgent) : result PGOAgent :=
  _ <-- CHECK (~~ acceleration (mParams a)) "CHECK(!mParams.acceleration)" ;;
  if isOptimizationRunning a then Ok a else Ok (set_mOptimizationThread true a).

(** *** Construction and the lifting matrix *)

Definition setLiftingMatrix (M : Matrix F) (a : PGOAgent) : result PGOAgent :=
  _ <-- CHECK (rows M == r) "CHECK_EQ(M.rows(), r)" ;;
  _ <-- CHECK (cols M == d) "CHECK_EQ(M.cols(), d)" ;;
  if as_mx r d M is Some YL then Ok (set_YLift (Some YL) a)
  else Fatal "CHECK_EQ(M.rows(), r)".

(** The constructor, with the state of the random generator it runs in. *)
Definition PGOAgent_new (ID : N) (params : PGOAgentParameters)
  (g : rand_state E) : result (PGOAgent * rand_state E) :=
  let X0 := LiftedPoseArray_new E r d 1%num in
  let a :=
    {| mID := ID; X := X0; mParams := params; mState := WAIT_FOR_DATA;
       mStatus := mkPGOAgentStatus ID WAIT_FOR_DATA 0%num 0%num false (DFin 0);
       mRobustCost := RobustCost_new (robustCostParams params);
       mPoseGraph := PoseGraph_new E ID r d;
       mInstanceNumber := 0%num; mIterationNumber := 0%num;
       mNumPosesReceived := 0%num;
       gamma := 0; alpha := 0; Y := X0; V := X0; XPrev := X0;
       YLift := None; globalAnchor := None; TLocalInit := None; XInit := None;
       neighborPoseDict := [::]; neighborAuxPoseDict := [::];
       mTeamStatus := [::];
       mOptimizationRequested := false;
       mPublishPublicPosesRequested := false;
       mPublishWeightsRequested := false;
       mOptimizationThread := false |} in
  if ID == 0%num then
    let: (M, g') := fixedStiefelVariable d r g in
    a' <-- setLiftingMatrix M a ;;
    Ok (a', g')
  else Ok (a, g).

Definition setGlobalAnchor (M : Matrix F) (a : PGOAgent) : result PGOAgent :=
  _ <-- CHECK (rows M == r) "CHECK(M.rows() == relaxation_rank())" ;;
  _ <-- CHECK (cols M == (d + 1)%N) "CHECK(M.cols() == dimension() + 1)" ;;
  if as_mx r (d + 1) M is Some Xa then
    Ok (set_globalAnchor (Some (mkLiftedPose (lsubmx Xa) (rsubmx Xa))) a)
  else Fatal "CHECK(M.rows() == relaxation_rank())".

(** *** Nesterov acceleration *)

Definition initializeAcceleration (a : PGOAgent) : result PGOAgent :=
  _ <-- CHECK (acceleration (mParams a)) "CHECK(mParams.acceleration)" ;;
  if PGOAgentState_eqb (mState a) INITIALIZED then
    let a := set_XPrev (X a) a in
    let a := set_gamma 0 a in
    let a := set_alpha 0 a in
    let a := set_V (X a) a in
    let a := set_Y (X a) a in
    Ok a
  else Ok a.

Definition check_accelerated (a : PGOAgent) : result unit :=
  _ <-- CHECK (acceleration (mParams a)) "CHECK(mParams.acceleration)" ;;
  CHECK (PGOAgentState_eqb (mState a) INITIALIZED)
        "CHECK(mState == PGOAgentState::INITIALIZED)".

Definition numRobotsF (a : PGOAgent) : F := (N.to_nat (numRobots (mParams a)))%:R.

Definition updateGamma (a : PGOAgent) : result PGOAgent :=
  _ <-- check_accelerated a ;;
  Ok (set_gamma ((1 + sqrt E (1 + 4%:R * numRobotsF a ^+ 2 * gamma a ^+ 2))
                 / (2%:R * numRobotsF a)) a).

Definition updateAlpha (a : PGOAgent) : result PGOAgent :=
  _ <-- check_accelerated a ;;
  Ok (set_alpha (1 / (gamma a * numRobotsF a)) a).

(** The sum of two data matrices needs equal dimensions. *)
Definition same_cols (A B : LiftedPoseArray F r d) : result unit :=
  if size A == size B then Ok tt
  else Undefined "Eigen: operands of different dimensions".

Definition updateY (a : PGOAgent) : result PGOAgent :=
  _ <-- check_accelerated a ;;
  _ <-- same_cols (X a) (V a) ;;
  let M := lincomb_array (1 - alpha a) (X a) (alpha a) (V a) in
  Y' <-- setData (size (Y a)) (manifold_project E M) ;;
  Ok (set_Y Y' a).

Definition updateV (a : PGOAgent) : result PGOAgent :=
  _ <-- check_accelerated a ;;
  _ <-- same_cols (X a) (Y a) ;;
  _ <-- same_cols (V a) (X a) ;;
  let M := lincomb_array 1 (V a) (gamma a)
             (lincomb_array 1 (X a) (-1) (Y a)) in
  V' <-- setData (size (V a)) (manifold_project E M) ;;
  Ok (set_V V' a).

(** *** One optimization step: [updateX] *)

Definition updateX (doOptimization acceleration_ : bool) (a : PGOAgent)
  : result (bool * PGOAgent) :=
  if ~~ doOptimization then
    Ok (true, if acceleration_ then set_X (Y a) a else a)
  else
    _ <-- (if acceleration_
           then CHECK (acceleration (mParams a)) "CHECK(mParams.acceleration)"
           else Ok tt) ;;
    _ <-- CHECK (PGOAgentState_eqb (mState a) INITIALIZED)
                "CHECK(mState == PGOAgentState::INITIALIZED)" ;;
    let g :=
      if acceleration_
      then setNeighborPoses (neighborAuxPoseDict a) (mPoseGraph a)
      else setNeighborPoses (neighborPoseDict a) (mPoseGraph a) in
    let: (constructed, g') := constructDataMatrices g in
    let a := set_mPoseGraph g' a in
    if ~~ constructed then Ok (false, a)
    else
      let X0 := if acceleration_ then Y a else X a in
      _ <-- CHECK (N.of_nat (size X0) == num_poses a)
                  "CHECK(X0.cols() == (dimension() + 1) * num_poses())" ;;
      X' <-- setData (size (X a)) (optimize g' (algorithm (mParams a)) X0) ;;
      Ok (true, set_X X' a).

(** [a % b] on unsigned operands; a zero divisor is undefined. *)
Definition unsigned_mod (x y : N) : result N :=
  if y == 0%num then Undefined "remainder by zero" else Ok (x mod y)%num.

Definition shouldRestart (a : PGOAgent) : result bool :=
  if acceleration (mParams a) then
    m <-- unsigned_mod (mIterationNumber a + 1)%num (restartInterval (mParams a)) ;;
    Ok (m == 0%num)
  else Ok false.

Definition restartNesterovAcceleration (doOptimization : bool) (a : PGOAgent)
  : result PGOAgent :=
  if acceleration (mParams a) && PGOAgentState_eqb (mState a) INITIALIZED then
    let a := set_X (XPrev a) a in
    sa <-- updateX doOptimization false a ;;
    let a := sa.2 in
    let a := set_V (X a) a in
    let a := set_Y (X a) a in
    let a := set_gamma 0 a in
    let a := set_alpha 0 a in
    Ok a
  else Ok a.

(** *** Robust reweighting *)

Definition shouldUpdateLoopClosureWeights (a : PGOAgent) : result bool :=
  if costType (robustCostParams (mParams a)) is L2 then Ok false
  else
    m <-- unsigned_mod (mIterationNumber a + 1)%num
                       (robustOptInnerIters (mParams a)) ;;
    Ok (m == 0%num).

Definition set_weight (w : F) (m : RelativeSEMeasurement F)
  : RelativeSEMeasurement F :=
  {| r1 := r1 m; r2 := r2 m; p1 := p1 m; p2 := p2 m; R := R m; t := t m;
     kappa := kappa m; tau := tau m; weight := w;
     fixedWeight := fixedWeight m; isKnownInlier := isKnownInlier m |}.

Definition reweigh (a : PGOAgent) (m : RelativeSEMeasurement F)
  (x1 x2 : LiftedPose F r d) : result (RelativeSEMeasurement F) :=
  e <-- computeMeasurementError m (rotation x1) (translation x1)
                                  (rotation x2) (translation x2) ;;
  let residual := sqrt E e in
  let weight := RobustCost_weight (mRobustCost a) residual in
  Ok (set_weight weight m).

Definition reweigh_private (a : PGOAgent) (m : RelativeSEMeasurement F)
  : result (RelativeSEMeasurement F) :=
  if isKnownInlier m then Ok m
  else
    x1 <-- pose_at (X a) (p1 m) ;;
    x2 <-- pose_at (X a) (p2 m) ;;
    reweigh a m x1 x2.

Definition neighbor_pose (a : PGOAgent) (id : PoseID)
  : option (result (LiftedPose F r d)) :=
  if dict_find id (neighborPoseDict a) is Some v then
    Some (if as_LiftedPose r d v is Some x then Ok x
          else Undefined "Eigen: operands of different dimensions")
  else None.

Definition reweigh_shared (a : PGOAgent) (m : RelativeSEMeasurement F)
  : result (RelativeSEMeasurement F) :=
  if isKnownInlier m then Ok m
  else if r1 m == getID a then
    if (r2 m <? getID a)%num then Ok m
    else
      x1 <-- pose_at (X a) (p1 m) ;;
      if neighbor_pose a (mkPoseID (r2 m) (p2 m)) is Some X2 then
        x2 <-- X2 ;; reweigh a m x1 x2
      else Ok m
  else
    if (r1 m <? getID a)%num then Ok m
    else
      x2 <-- pose_at (X a) (p2 m) ;;
      if neighbor_pose a (mkPoseID (r1 m) (p1 m)) is Some X1 then
        x1 <-- X1 ;; reweigh a m x1 x2
      else Ok m.

Fixpoint for_each A B (f : A -> result B) (s : seq A) : result (seq B) :=
  match s with
  | [::] => Ok [::]
  | x :: s' => y <-- f x ;; ys <-- for_each f s' ;; Ok (y :: ys)
  end.

Definition updateLoopClosuresWeights (a : PGOAgent) : result PGOAgent :=
  _ <-- CHECK (PGOAgentState_eqb (mState a) INITIALIZED)
              "CHECK(mState == PGOAgentState::INITIALIZED)" ;;
  let g := clearDataMatrices (mPoseGraph a) in
  private <-- for_each (reweigh_private a) (privateLoopClosures g) ;;
  let g := set_privateLoopClosures private g in
  shared <-- for_each (reweigh_shared a) (sharedLoopClosures g) ;;
  let g := set_sharedLoopClosures shared g in
  Ok (set_mPublishWeightsRequested true (set_mPoseGraph g a)).

(** *** [iterate] *)

(** The block [if (shouldUpdateLoopClosureWeights()) { ... }]. *)
Definition iterate_reweight (a : PGOAgent) : result PGOAgent :=
  due <-- shouldUpdateLoopClosureWeights a ;;
  if due then
    a <-- updateLoopClosuresWeights a ;;
    let a := set_mRobustCost (RobustCost_update (mRobustCost a)) a in
    a <-- (if ~~ robustOptWarmStart (mParams a) then
             if XInit a is Some X0 then Ok (set_X X0 a)
             else Fatal "CHECK(XInit)"
           else Ok a) ;;
    if acceleration (mParams a) then initializeAcceleration a else Ok a
  else Ok a.

(** The update of the iterate, after [XPrev = X]; the flag is [success]. *)
Definition iterate_step (doOptimization : bool) (a : PGOAgent)
  : result (bool * PGOAgent) :=
  if acceleration (mParams a) then
    a <-- updateGamma a ;;
    a <-- updateAlpha a ;;
    a <-- updateY a ;;
    sa <-- updateX doOptimization true a ;;
    let: (success, a) := sa in
    a <-- updateV a ;;
    restart <-- shouldRestart a ;;
    a <-- (if restart then restartNesterovAcceleration doOptimization a
           else Ok a) ;;
    Ok (success, set_mPublishPublicPosesRequested true a)
  else
    sa <-- updateX doOptimization false a ;;
    let: (success, a) := sa in
    Ok (success,
        if doOptimization then set_mPublishPublicPosesRequested true a else a).

(** The ratio of converged loop closures. *)
Definition convergence_ratio (a : PGOAgent) : double F :=
  let stat := statistics (mPoseGraph a) in
  ddiv (accept_loop_closures stat + reject_loop_closures stat)
       (total_loop_closures stat).

(** The block [if (doOptimization) { mStatus... }]. *)
Definition iterate_status (success : bool) (a : PGOAgent) : PGOAgent :=
  let relativeChange := averageTranslationDistance E (X a) (XPrev a) in
  let readyToTerminate := true in
  let readyToTerminate := if ~~ success then false else readyToTerminate in
  let readyToTerminate :=
    if dgt relativeChange (relChangeTol (mParams a)) then false
    else readyToTerminate in
  let ratio := convergence_ratio a in
  let readyToTerminate :=
    if dlt ratio (robustOptMinConvergenceRatio (mParams a)) then false
    else readyToTerminate in
  set_mStatus
    (mkPGOAgentStatus (getID a) (mState a) (instance_number a)
                      (iteration_number a) readyToTerminate relativeChange) a.

Definition iterate (doOptimization : bool) (a : PGOAgent) : result PGOAgent :=
  let a := set_mIterationNumber (mIterationNumber a + 1)%num a in
  a <-- iterate_reweight a ;;
  if PGOAgentState_eqb (mState a) INITIALIZED then
    let a := set_XPrev (X a) a in
    sa <-- iterate_step doOptimization a ;;
    let: (success, a) := sa in
    if doOptimization then Ok (iterate_status success a) else Ok a
  else Ok a.

(** *** Initialization in the global frame *)

(** [optional::value()] raises an exception on an empty optional, which
    nothing catches. *)
Definition value A (o : option A) (what : string) : result A :=
  if o is Some x then Ok x else Fatal what.

Definition measured_transform (m : RelativeSEMeasurement F) : result (Pose F d) :=
  match as_mx d d (R m), as_mx d 1 (t m) with
  | Some mR, Some mt => Ok (mkLiftedPose mR mt)
  | _, _ => Undefined "Eigen: operands of different dimensions"
  end.

Definition computeNeighborTransform (m : RelativeSEMeasurement F)
  (neighbor_pose : LiftedPoseDyn F) (a : PGOAgent) : result (Pose F d) :=
  YL <-- value (YLift a) "CHECK(YLift)" ;;
  _ <-- CHECK (lp_r neighbor_pose == r) "CHECK_EQ(neighbor_pose.r(), r)" ;;
  _ <-- CHECK (lp_d neighbor_pose == d) "CHECK_EQ(neighbor_pose.d(), d)" ;;
  np <-- value (as_LiftedPose r d neighbor_pose) "CHECK_EQ(neighbor_pose.r(), r)" ;;
  dT <-- measured_transform m ;;
  let T_world2_frame2 : Pose F d := lmul_pose YL^T np in
  T <-- value (TLocalInit a) "TLocalInit.value()" ;;
  ft <-- (if r2 m == getID a then
            T_world1_frame1 <-- pose_at T (p2 m) ;;
            Ok (Pose_inverse dT, T_world1_frame1)
          else
            T_world1_frame1 <-- pose_at T (p1 m) ;;
            Ok (dT, T_world1_frame1)) ;;
  let: (T_frame1_frame2, T_world1_frame1) := ft in
  let T_world2_frame1 := Pose_mul T_world2_frame2 (Pose_inverse T_frame1_frame2) in
  let T_world2_world1 := Pose_mul T_world2_frame1 (Pose_inverse T_world1_frame1) in
  Ok T_world2_world1.

(** The candidate alignments, one for each shared loop closure whose
    neighbor pose is in [poseDict]. *)
Fixpoint candidate_alignments (neighborID : N) (poseDict : PoseDict F)
  (a : PGOAgent) (ms : seq (RelativeSEMeasurement F)) : result (seq (Pose F d)) :=
  match ms with
  | [::] => Ok [::]
  | m :: ms' =>
      let nbr_pose_id :=
        mkPoseID neighborID (if r1 m == neighborID then p1 m else p2 m) in
      if dict_find nbr_pose_id poseDict is Some v then
        T <-- computeNeighborTransform m v a ;;
        Ts <-- candidate_alignments neighborID poseDict a ms' ;;
        Ok (T :: Ts)
      else candidate_alignments neighborID poseDict a ms'
  end.

(** [tVec[index]] *)
Definition at_index A (s : seq A) (i : N) : result A :=
  if nth None [seq Some x | x <- s] (N.to_nat i) is Some x then Ok x
  else Undefined "vector index out of range".

(** The result is [Some T_world_robot] when the function returns [true]. *)
Definition computeRobustNeighborTransformTwoStage (neighborID : N)
  (poseDict : PoseDict F) (a : PGOAgent) : result (option (Pose F d)) :=
  Ts <-- candidate_alignments neighborID poseDict a
           (sharedLoopClosuresWithRobot (mPoseGraph a) neighborID) ;;
  let RVec := [seq rotation T | T <- Ts] in
  let tVec := [seq translation T | T <- Ts] in
  if nilp RVec then Ok None
  else
    let m := size RVec in
    let kappa : seq F := nseq m 1 in
    let maxRotationError := angular2ChordalSO3 E (1 / 2%:R) in
    let: (ROpt, inlierIndices) :=
      robustSingleRotationAveraging E RVec kappa maxRotationError in
    if (N.of_nat (size inlierIndices) <? robustInitMinInliers (mParams a))%num
    then Ok None
    else
      tVecInliers <-- for_each (at_index tVec) inlierIndices ;;
      let tOpt := singleTranslationAveraging E tVecInliers in
      Ok (Some (mkLiftedPose ROpt tOpt)).

(** The loop [for (size_t i = 0; i < num_poses(); ++i)] over [T]. *)
Definition transform_poses (T_world_robot : Pose F d) (n : N) (T : PoseArray F d)
  : result (PoseArray F d) :=
  if (N.to_nat n <= size T)%N then
    Ok ([seq Pose_mul T_world_robot T_robot_frame
           | T_robot_frame <- take (N.to_nat n) T] ++ drop (N.to_nat n) T)
  else Undefined "pose index out of range".

(** [checkRotationMatrix] only logs a warning. *)
Definition initializeInGlobalFrame (T_world_robot : Pose F d) (a : PGOAgent)
  : result PGOAgent :=
  YL <-- value (YLift a) "CHECK(YLift)" ;;
  let optimizationHalted := isOptimizationRunning a in
  let a := if optimizationHalted then endOptimizationLoop a else a in
  let a := set_neighborPoseDict [::] a in
  let a := set_neighborAuxPoseDict [::] a in
  T <-- value (TLocalInit a) "TLocalInit.value()" ;;
  T <-- transform_poses T_world_robot (num_poses a) T ;;
  X' <-- setData (size (X a)) (lmul_array YL T) ;;
  let a := set_X X' a in
  let a := set_XInit (Some X') a in
  let a := set_mState INITIALIZED a in
  a <-- (if acceleration (mParams a) then initializeAcceleration a else Ok a) ;;
  if optimizationHalted then startOptimizationLoop a else Ok a.

(** *** The cache of neighbor poses *)

(** Modelled from the spec: [PoseGraph::hasNeighborPose] is not among the
    verified files; the pose graph's derived set [neighborPublicPoseIDs]
    holds the poses of other robots that its shared edges refer to, and the
    test is membership in it. *)
Definition hasNeighborPose (g : PoseGraph E) (id : PoseID) : bool :=
  id \in neighborPublicPoseIDs g.

(** Modelled from the spec: [hasNeighborStatus] and [getNeighborStatus]
    are not among the verified files; they read the latest status of a
    robot in [mTeamStatus], the map that [shouldTerminate] searches. *)
Fixpoint getNeighborStatus (team : seq (N * PGOAgentStatus F)) (neighborID : N)
  : option (PGOAgentStatus F) :=
  match team with
  | [::] => None
  | (k, st) :: team' =>
      if k == neighborID then Some st else getNeighborStatus team' neighborID
  end.

Definition hasNeighborStatus (a : PGOAgent) (neighborID : N) : bool :=
  if getNeighborStatus (mTeamStatus a) neighborID is Some _ then true else false.

(** The body of [for (const auto &it : poseDict)]; [aux] selects
    [neighborAuxPoseDict]. *)
Definition cache_neighbor_pose (aux : bool) (neighborID : N)
  (neighborState : PGOAgentState) (a : PGOAgent) (it : PoseID * LiftedPoseDyn F)
  : result PGOAgent :=
  let nID := it.1 in
  let var := it.2 in
  _ <-- CHECK (robot_id nID == neighborID) "CHECK_EQ(nID.robot_id, neighborID)" ;;
  _ <-- CHECK (lp_r var == r) "CHECK_EQ(var.r(), r)" ;;
  _ <-- CHECK (lp_d var == d) "CHECK_EQ(var.d(), d)" ;;
  let a := set_mNumPosesReceived (mNumPosesReceived a + 1)%num a in
  if ~~ hasNeighborPose (mPoseGraph a) nID then Ok a
  else if PGOAgentState_eqb (mState a) INITIALIZED
          && PGOAgentState_eqb neighborState INITIALIZED then
    if aux then Ok (set_neighborAuxPoseDict (dict_set nID var (neighborAuxPoseDict a)) a)
    else Ok (set_neighborPoseDict (dict_set nID var (neighborPoseDict a)) a)
  else Ok a.

Fixpoint cache_neighbor_poses (aux : bool) (neighborID : N)
  (neighborState : PGOAgentState) (a : PGOAgent) (poseDict : PoseDict F)
  : result PGOAgent :=
  match poseDict with
  | [::] => Ok a
  | it :: poseDict' =>
      a <-- cache_neighbor_pose aux neighborID neighborState a it ;;
      cache_neighbor_poses aux neighborID neighborState a poseDict'
  end.

Definition updateNeighborPoses (neighborID : N) (poseDict : PoseDict F)
  (a : PGOAgent) : result PGOAgent :=
  _ <-- CHECK (neighborID != mID a) "CHECK(neighborID != mID)" ;;
  if getNeighborStatus (mTeamStatus a) neighborID is Some status then
    let neighborState := state status in
    a <-- (if PGOAgentState_eqb (mState a) WAIT_FOR_INITIALIZATION then
             T <-- computeRobustNeighborTransformTwoStage neighborID poseDict a ;;
             if T is Some T_world_robot
             then initializeInGlobalFrame T_world_robot a
             else Ok a
           else Ok a) ;;
    cache_neighbor_poses false neighborID neighborState a poseDict
  else Ok a.

Definition updateAuxNeighborPoses (neighborID : N) (poseDict : PoseDict F)
  (a : PGOAgent) : result PGOAgent :=
  _ <-- CHECK (acceleration (mParams a)) "CHECK(mParams.acceleration)" ;;
  _ <-- CHECK (neighborID != mID a) "CHECK(neighborID != mID)" ;;
  if getNeighborStatus (mTeamStatus a) neighborID is Some status then
    let neighborState := state status in
    cache_neighbor_poses true neighborID neighborState a poseDict
  else Ok a.

(** *** Rounded trajectories *)

Definition round_pose (t0 : 'cV[F]_d) (x : Pose F d) : Pose F d :=
  mkLiftedPose (projectToRotationGroup E (rotation x)) (translation x - t0).

(** The loop of [getTrajectoryInLocalFrame], where [t0] is declared [auto]:
    when [T.translation(0)] is a view, [t0] reads the first translation as
    the first iteration left it. *)
Definition round_local (T : PoseArray F d) : PoseArray F d :=
  match T with
  | [::] => [::]
  | x0 :: T' =>
      let t0 := translation x0 in
      let x0' := round_pose t0 x0 in
      let t0' := if translation_by_reference E then translation x0' else t0 in
      x0' :: [seq round_pose t0' x | x <- T']
  end.

(** The result is [Some Trajectory] when the function returns [true]. *)
Definition getTrajectoryInLocalFrame (a : PGOAgent) : result (option (PoseArray F d)) :=
  if ~~ PGOAgentState_eqb (mState a) INITIALIZED then Ok None
  else
    x0 <-- pose_at (X a) 0%num ;;
    T <-- setData (N.to_nat (num_poses a)) (lmul_array (rotation x0)^T (X a)) ;;
    Ok (Some (round_local T)).

Definition getTrajectoryInGlobalFrame (a : PGOAgent) : result (option (PoseArray F d)) :=
  if globalAnchor a is Some Xa then
    if ~~ PGOAgentState_eqb (mState a) INITIALIZED then Ok None
    else
      T <-- setData (N.to_nat (num_poses a)) (lmul_array (rotation Xa)^T (X a)) ;;
      let t0 := (rotation Xa)^T *m translation Xa in
      Ok (Some [seq round_pose t0 x | x <- T])
  else Ok None.

(** *** [reset]

    With [logData] the function computes the trajectory in the global frame
    for the log before it resets the members. *)

Definition reset (a : PGOAgent) : result PGOAgent :=
  let a := endOptimizationLoop a in
  _ <-- (if logData (mParams a)
         then T <-- getTrajectoryInGlobalFrame a ;; Ok tt
         else Ok tt) ;;
  let mInstanceNumber' := (mInstanceNumber a + 1)%num in
  let mIterationNumber' := 0%num in
  let mState' := WAIT_FOR_DATA in
  Ok {| mID := mID a;
        X := LiftedPoseArray_new E r d 1%num;
        mParams := mParams a;
        mState := mState';
        mStatus := mkPGOAgentStatus (getID a) mState' mInstanceNumber'
                     mIterationNumber' false (DFin 0);
        mRobustCost := RobustCost_reset (mRobustCost a);
        mPoseGraph := PoseGraph_new E (mID a) r d;
        mInstanceNumber := mInstanceNumber';
        mIterationNumber := mIterationNumber';
        mNumPosesReceived := 0%num;
        gamma := gamma a; alpha := alpha a;
        Y := Y a; V := V a; XPrev := XPrev a;
        YLift := YLift a;
        globalAnchor := None; TLocalInit := None; XInit := None;
        neighborPoseDict := [::]; neighborAuxPoseDict := [::];
        mTeamStatus := [::];
        mOptimizationRequested := false;
        mPublishPublicPosesRequested := false;
        mPublishWeightsRequested := false;
        mOptimizationThread := mOptimizationThread a |}.

(** *** Notions for the statements about the agent *)

(** The members that neither the iteration nor the neighbor updates change. *)
Definition same_frame (a b : PGOAgent) : Prop :=
  [/\ mID b = mID a, mParams b = mParams a, mState b = mState a,
      mIterationNumber b = mIterationNumber a
    & mInstanceNumber b = mInstanceNumber a].

(** The dictionary that the loop over [poseDict] writes. *)
Definition cache_of (aux : bool) (a : PGOAgent) : PoseDict F :=
  if aux then neighborAuxPoseDict a else neighborPoseDict a.

(** Every entry of [new] was in [old] or was stored from [poseDict]: under a
    pose ID of the neighbor that is among [neighborPublicPoseIDs], with this
    agent in state [mine] and the neighbor reporting the state [theirs] both
    [INITIALIZED]. *)
Definition cached_from (neighborID : N) (poseDict : PoseDict F)
  (g : PoseGraph E) (mine : PGOAgentState) (theirs : option PGOAgentState)
  (old new : PoseDict F) : Prop :=
  forall k v, dict_find k new = Some v ->
    dict_find k old = Some v
    \/ [/\ robot_id k = neighborID, k \in neighborPublicPoseIDs g,
           List.In (k, v) poseDict, mine = INITIALIZED
         & theirs = Some INITIALIZED].

(** The state that the neighbor reports, when the agent has its status. *)
Definition neighbor_state (a : PGOAgent) (neighborID : N) : option PGOAgentState :=
  omap (@state F) (getNeighborStatus (mTeamStatus a) neighborID).

(** The termination test as the specification words it. *)
Definition ready_as_specified (success : bool) (a : PGOAgent) : bool :=
  [&& success,
      dle (averageTranslationDistance E (X a) (XPrev a)) (relChangeTol (mParams a))
    & dge (convergence_ratio a) (robustOptMinConvergenceRatio (mParams a))].

End PGOAgent.

(** ** A small instance

    Rational scalars, dimension and rank 2, and simple stand-ins for the
    libraries: a pose graph that stores what the agent reads back, an
    optimizer that returns its starting point, a decomposition that returns
    identity factors. *)

Module Example.

Definition Rotation2D_toRotationMatrix (theta : rat) : 'M[rat]_2 := 1%:M.

Definition Quaternion_toRotationMatrix (w x y z : rat) : 'M[rat]_3 := 1%:M.

(** The inverse and the quotient; the blocks of the lines below are
    invertible and the traces of their inverses are not zero. *)
Definition Matrix_inverse (n : nat) (A : 'M[rat]_n) : 'M[rat]_n := invmx A.

Definition double_quotient (x y : rat) : rat := x / y.

Definition default_measurement : RelativeSEMeasurement rat :=
  {| r1 := 0%num; r2 := 0%num; p1 := 0%num; p2 := 0%num;
     R := mkMatrix (1%:M : 'M[rat]_2);
     t := mkMatrix (0 : 'cV[rat]_2);
     kappa := 1; tau := 1; weight := 1;
     fixedWeight := false; isKnownInlier := false |}.

(** An [EDGE_SE2] line from pose [i] to pose [j] with the identity as
    information matrix. *)
Definition edge (i j : N) : g2o_line rat :=
  EDGE_SE2 (mkSE2 i j 1 0 0 1 0 0 1 0 1).

(** An [EDGE_SE2] line with the information matrix diag(2, 2, 3), and an
    [EDGE_SE3:QUAT] line with the information matrix diag(4, 4, 4, 2, 2, 2). *)
Definition precise_edge (i j : N) : g2o_line rat :=
  EDGE_SE2 (mkSE2 i j 1 0 0 2 0 0 2 0 3).

Definition precise_edge3 (i j : N) : g2o_line rat :=
  EDGE_SE3_QUAT
    (mkSE3 i j 1 0 0 0 0 0 1
           4 0 0 0 0 0
             4 0 0 0 0
               4 0 0 0
                 2 0 0
                   2 0
                     2).

(** A file whose lines carry different information matrices, the second
    line blank. *)
Definition precise_lines : seq (g2o_line rat) :=
  [:: precise_edge 0 1; Blank rat; edge 1 2; precise_edge3 2 3].

(** The file of the reindexing scenario: pose IDs 5, 6, 7 and 8. *)
Definition lines : seq (g2o_line rat) :=
  [:: VERTEX_SE2 rat; edge 5 6; edge 6 7; edge 7 8; Blank rat].

(** A file with a gap: pose IDs 5, 6 and 8. *)
Definition gap_lines : seq (g2o_line rat) := [:: edge 5 6; edge 6 8].

Record SimpleGraph : Type := mkSimpleGraph {
  sg_n : N;
  sg_neighborPublicPoseIDs : seq PoseID;
  sg_privateLoopClosures : seq (RelativeSEMeasurement rat);
  sg_sharedLoopClosures : seq (RelativeSEMeasurement rat);
  sg_neighborPoses : PoseDict rat;
  sg_constructible : bool }.

Definition sg_statistics (g : SimpleGraph) : Statistics rat :=
  let lcs := sg_privateLoopClosures g ++ sg_sharedLoopClosures g in
  {| total_loop_closures := (size lcs)%:R;
     accept_loop_closures := (count (fun m => weight m == 1) lcs)%:R;
     reject_loop_closures := (count (fun m => weight m == 0) lcs)%:R |}.

Definition env : External rat :=
  {| JacobiSVD := fun m n _ => mkSVD (pid_mx n) (const_mx 1) 1%:M;
     sqrt := id;
     sin := id;
     rand_state := N;
     srand := fun seed _ => seed;
     RandInManifold := fun r d g => (pid_mx d, N.succ g);
     LiftedPoseArray_new := fun r d n =>
       nseq (N.to_nat n) (mkLiftedPose (pid_mx d) 0);
     translation_by_reference := true;
     averageTranslationDistance := fun _ _ _ _ => DFin 0;
     manifold_project := fun _ _ X => X;
     PoseGraph := SimpleGraph;
     PoseGraph_new := fun _ _ _ => mkSimpleGraph 0 [::] [::] [::] [::] true;
     PoseGraph_n := sg_n;
     neighborPublicPoseIDs := sg_neighborPublicPoseIDs;
     sharedLoopClosuresWithRobot := fun g id =>
       [seq m <- sg_sharedLoopClosures g | (r1 m == id) || (r2 m == id)];
     privateLoopClosures := sg_privateLoopClosures;
     set_privateLoopClosures := fun ms g =>
       mkSimpleGraph (sg_n g) (sg_neighborPublicPoseIDs g) ms
         (sg_sharedLoopClosures g) (sg_neighborPoses g) (sg_constructible g);
     sharedLoopClosures := sg_sharedLoopClosures;
     set_sharedLoopClosures := fun ms g =>
       mkSimpleGraph (sg_n g) (sg_neighborPublicPoseIDs g)
         (sg_privateLoopClosures g) ms (sg_neighborPoses g) (sg_constructible g);
     setNeighborPoses := fun dict g =>
       mkSimpleGraph (sg_n g) (sg_neighborPublicPoseIDs g)
         (sg_privateLoopClosures g) (sg_sharedLoopClosures g) dict
         (sg_constructible g);
     constructDataMatrices := fun g => (sg_constructible g, g);
     clearDataMatrices := id;
     statistics := sg_statistics;
     optimize := fun _ _ _ _ X0 => X0;
     RobustCostParameters := RobustCostType;
     costType := id;
     RobustCost := unit;
     RobustCost_new := fun _ => tt;
     RobustCost_reset := id;
     RobustCost_update := id;
     RobustCost_weight := fun _ _ => 1;
     robustSingleRotationAveraging := fun d Rs _ _ => (head 1%:M Rs, [:: 0%num]);
     singleTranslationAveraging := fun d ts => head 0 ts |}.

Definition params (accelerated : bool) : PGOAgentParameters env :=
  {| verbose := false; logData := true; logDirectory := "";
     algorithm := RTR;
     acceleration := accelerated;
     restartInterval := 1%num;
     numRobots := 2%num;
     maxNumIters := 500%num;
     relChangeTol := DFin 1;
     multirobot_initialization := true;
     robustInitMinInliers := 1%num;
     robustOptWarmStart := true;
     robustOptInnerIters := 10%num;
     robustOptMinConvergenceRatio := DFin 1;
     robustCostParams := (L2 : RobustCostParameters env) |}.

(** The pose [[I | (1, 1)]] and the anchor [[I | 0]]. *)
Definition pose11 : LiftedPose rat 2 2 := mkLiftedPose 1%:M (const_mx 1).

Definition origin : LiftedPose rat 2 2 := mkLiftedPose 1%:M 0.

(** A graph of one pose without any loop closure, which knows the pose
    (1, 0) of robot 1. *)
Definition graph (constructible : bool) : SimpleGraph :=
  mkSimpleGraph 1 [:: mkPoseID 1 0] [::] [::] [::] constructible.

Definition status1 : PGOAgentStatus rat :=
  mkPGOAgentStatus 1%num INITIALIZED 0%num 0%num false (DFin 0).

(** An initialized agent 0 holding the single pose [pose11], with the
    anchor at the origin and the status of robot 1. *)
Definition agent (accelerated constructible : bool) : PGOAgent env 2 2 :=
  {| mID := 0%num; X := [:: pose11]; mParams := params accelerated;
     mState := INITIALIZED;
     mStatus := mkPGOAgentStatus 0%num INITIALIZED 0%num 0%num false (DFin 0);
     mRobustCost := tt;
     mPoseGraph := graph constructible;
     mInstanceNumber := 3%num; mIterationNumber := 7%num;
     mNumPosesReceived := 0%num;
     gamma := 0; alpha := 0;
     Y := [:: pose11]; V := [:: pose11]; XPrev := [:: pose11];
     YLift := Some 1%:M;
     globalAnchor := Some origin;
     TLocalInit := Some [:: pose11];
     XInit := Some [:: pose11];
     neighborPoseDict := [::]; neighborAuxPoseDict := [::];
     mTeamStatus := [:: (1%num, status1)];
     mOptimizationRequested := false;
     mPublishPublicPosesRequested := false;
     mPublishWeightsRequested := false;
     mOptimizationThread := false |}.

(** A private loop closure between the poses 0 and 1, of weight [w]; the
    stand-in for the statistics counts it as accepted when [w] is 1 and as
    rejected when [w] is 0. *)
Definition loop_closure (w : rat) : RelativeSEMeasurement rat :=
  {| r1 := 0%num; r2 := 0%num; p1 := 0%num; p2 := 1%num;
     R := mkMatrix (1%:M : 'M[rat]_2);
     t := mkMatrix (0 : 'cV[rat]_2);
     kappa := 1; tau := 1; weight := w;
     fixedWeight := false; isKnownInlier := false |}.

(** An initialized agent 0 with the two poses [pose11] and [origin] and two
    loop closures, of weights [w1] and [w2]. *)
Definition graph2 (w1 w2 : rat) : SimpleGraph :=
  mkSimpleGraph 2 [:: mkPoseID 1 0] [:: loop_closure w1; loop_closure w2]
                [::] [::] true.

Definition agent2 (w1 w2 : rat) : PGOAgent env 2 2 :=
  set_X [:: pose11; origin]
    (set_mPoseGraph (graph2 w1 w2 : PoseGraph env) (agent false true)).

(** What robot 1 sends: its pose 0, which the graph knows, and its pose 4,
    which it does not. *)
Definition received : PoseDict rat :=
  [:: (mkPoseID 1 0, mkLiftedPoseDyn origin); (mkPoseID 1 4, mkLiftedPoseDyn pose11)].

End Example.

(** ** Further functions of [DPGO_utils.cpp] *)

Section MoreUtilities.
Variable F : realFieldType.

Variant InitializationMethod : Type := Odometry | Chordal | GNC_TLS.

Definition ROptMethodToString (method : ROptMethod) : string :=
  match method with
  | RTR => "RTR"
  | RGD => "RGD"
  end.

Definition InitializationMethodToString (method : InitializationMethod) : string :=
  match method with
  | Odometry => "Odometry"
  | Chordal => "Chordal"
  | GNC_TLS => "GNC_TLS"
  end.

(** [M.size()], the number of coefficients. *)
Definition Matrix_size (M : Matrix F) : N := N.of_nat (rows M * cols M).

(** The loop [for (const auto& meas: measurements)] with [std::max]. *)
Definition max_pose_count (num_poses : N) (meas : RelativeSEMeasurement F) : N :=
  let num_poses := N.max num_poses (size_t_add (p1 meas) 1) in
  N.max num_poses (size_t_add (p2 meas) 1).

(** The result is the pair of the values stored in [dimension] and in
    [num_poses]. *)
Definition get_dimension_and_num_poses (measurements : seq (RelativeSEMeasurement F))
  : result (N * N) :=
  _ <-- CHECK (~~ nilp measurements) "CHECK(!measurements.empty())" ;;
  if measurements is meas0 :: _ then
    let dimension := Matrix_size (t meas0) in
    _ <-- CHECK ((dimension == 2%num) || (dimension == 3%num))
                "CHECK(dimension == 2 || dimension == 3)" ;;
    let num_poses := foldl max_pose_count 0%num measurements in
    Ok (dimension, num_poses)
  else Undefined "measurements[0] on an empty vector".

(** A line that is no edge. *)
Definition no_edge (l : g2o_line F) : bool :=
  match l with
  | EDGE_SE2 _ | EDGE_SE3_QUAT _ | Unrecognized _ => false
  | VERTEX_SE2 | VERTEX_SE3_QUAT | FIX | Blank => true
  end.

Definition is_Blank (l : g2o_line F) : bool :=
  if l is Blank then true else false.

End MoreUtilities.

Section LoaderNotions.
Variable F : realFieldType.

(** What a measurement of the loader carries besides the data of its line:
    robot IDs 0, weight 1, the flag [isKnownInlier] of the default
    measurement, [fixedWeight] set for the edges from a pose to the next, and
    a square [R] and a column [t] of dimension 2 or 3. *)
Definition loaded_measurement (m0 m : RelativeSEMeasurement F) : Prop :=
  [/\ r1 m = 0%num /\ r2 m = 0%num,
      weight m = 1,
      isKnownInlier m = isKnownInlier m0,
      fixedWeight m = (size_t_add (p1 m) 1 == p2 m)
    & exists2 dim : nat, dim = 2%N \/ dim = 3%N
        & [/\ rows (R m) = dim, cols (R m) = dim, rows (t m) = dim
            & cols (t m) = 1%N]].

(** The invariant of the loop of the loader on the measurement being filled
    in and on the output vector. *)
Definition reader_loaded (m0 : RelativeSEMeasurement F) (st : reader F) : Prop :=
  [/\ weight (measurement st) = 1,
      isKnownInlier (measurement st) = isKnownInlier m0
    & forall m, List.In m (measurements st) -> loaded_measurement m0 m].

End LoaderNotions.

(** ** Further functions of [PGOAgent.cpp] *)

Section AgentInterface.
Variable F : realFieldType.
Variable E : External F.
Variables r d : nat.

Local Notation PGOAgent := (PGOAgent E r d).

(** *** Termination *)

(** The loop [for (size_t robot_id = 0; robot_id < mParams.numRobots;
    ++robot_id)] over the robot IDs still to visit; [mTeamStatus.find] is the
    lookup [getNeighborStatus]. *)
Fixpoint team_ready (team : seq (N * PGOAgentStatus F)) (robot_ids : seq N)
  : result bool :=
  match robot_ids with
  | [::] => Ok true
  | robot_id :: robot_ids' =>
      if getNeighborStatus team robot_id is Some robot_status then
        _ <-- CHECK (agentID robot_status == robot_id)
                    "CHECK_EQ(robot_status.agentID, robot_id)" ;;
        if ~~ PGOAgentState_eqb (state robot_status) INITIALIZED then Ok false
        else if ~~ readyToTerminate robot_status then Ok false
        else team_ready team robot_ids'
      else Ok false
  end.

(** The values [0, 1, ..., numRobots - 1] of the loop variable. *)
Definition robot_ids (numRobots : N) : seq N :=
  [seq N.of_nat i | i <- iota 0 (N.to_nat numRobots)].

Definition shouldTerminate (a : PGOAgent) : result bool :=
  if (maxNumIters (mParams a) <? iteration_number a)%num then Ok true
  else team_ready (mTeamStatus a) (robot_ids (numRobots (mParams a))).

(** *** The lifting matrix *)

(** The result is [Some M] when the function returns [true]. *)
Definition getLiftingMatrix (a : PGOAgent) : result (option (Matrix F)) :=
  _ <-- CHECK (mID a == 0%num) "CHECK(mID == 0)" ;;
  if YLift a is Some M then Ok (Some (mkMatrix M)) else Ok None.

(** *** Poses in the global frame *)

(** [Ti = Ya^T * Xi; Ti.col(d) -= t0].  The two [CHECK]s on the dimensions
    of the anchor and of [Ti] hold by typing. *)
Definition anchor_pose (Xa : LiftedPose F r d) (Xi : LiftedPose F r d) : Pose F d :=
  let Ya := rotation Xa in
  let pa := translation Xa in
  let t0 := Ya^T *m pa in
  let Ti := lmul_pose Ya^T Xi in
  mkLiftedPose (rotation Ti) (translation Ti - t0).

Definition getPoseInGlobalFrame (poseID : N) (a : PGOAgent)
  : result (option (Pose F d)) :=
  if globalAnchor a is Some Xa then
    if ~~ PGOAgentState_eqb (mState a) INITIALIZED then Ok None
    else if (num_poses a <=? poseID)%num then Ok None
    else
      Xi <-- pose_at (X a) poseID ;;
      Ok (Some (anchor_pose Xa Xi))
  else Ok None.

Definition getNeighborPoseInGlobalFrame (neighborID poseID : N) (a : PGOAgent)
  : result (option (Pose F d)) :=
  if globalAnchor a is Some Xa then
    if ~~ PGOAgentState_eqb (mState a) INITIALIZED then Ok None
    else
      let nID := mkPoseID neighborID poseID in
      if dict_find nID (neighborPoseDict a) is Some Xi then
        _ <-- CHECK (lp_r Xi == r) "CHECK(Xi.r() == r)" ;;
        _ <-- CHECK (lp_d Xi == d) "CHECK(Xi.d() == d)" ;;
        Xi <-- value (as_LiftedPose r d Xi) "CHECK(Xi.r() == r)" ;;
        Ok (Some (anchor_pose Xa Xi))
      else Ok None
  else Ok None.

(** *** The poses an agent shares *)

Definition getSharedPose (index : N) (a : PGOAgent)
  : result (option (LiftedPose F r d)) :=
  if ~~ PGOAgentState_eqb (mState a) INITIALIZED then Ok None
  else if (num_poses a <=? index)%num then Ok None
  else Xi <-- pose_at (X a) index ;; Ok (Some Xi).

Definition getAuxSharedPose (index : N) (a : PGOAgent)
  : result (option (LiftedPose F r d)) :=
  _ <-- CHECK (acceleration (mParams a)) "CHECK(mParams.acceleration)" ;;
  if ~~ PGOAgentState_eqb (mState a) INITIALIZED then Ok None
  else if (num_poses a <=? index)%num then Ok None
  else Yi <-- pose_at (Y a) index ;; Ok (Some Yi).

(** [map.emplace(k, v)]: no effect when the key is present. *)
Definition dict_emplace (k : PoseID) (v : LiftedPoseDyn F) (m : PoseDict F)
  : PoseDict F :=
  if dict_find k m is Some _ then m else rcons m (k, v).

(** Modelled from the spec: [PoseGraph::myPublicPoseIDs] is not among the
    verified files; it is the set of the poses of this robot that a shared
    edge refers to. *)
Variable myPublicPoseIDs : PoseGraph E -> seq PoseID.

(** The loop [for (const auto &pose_id : mPoseGraph->myPublicPoseIDs())] of
    [getSharedPoseDict] and [getAuxSharedPoseDict] over the array [Xs]. *)
Fixpoint shared_poses (a : PGOAgent) (Xs : LiftedPoseArray F r d)
  (pose_ids : seq PoseID) (map : PoseDict F) : result (PoseDict F) :=
  match pose_ids with
  | [::] => Ok map
  | pose_id :: pose_ids' =>
      _ <-- CHECK (robot_id pose_id == getID a) "CHECK_EQ(robot_id, getID())" ;;
      Xi <-- pose_at Xs (frame_id pose_id) ;;
      shared_poses a Xs pose_ids' (dict_emplace pose_id (mkLiftedPoseDyn Xi) map)
  end.

(** The result is [Some map] when the function returns [true]. *)
Definition getSharedPoseDict (a : PGOAgent) : result (option (PoseDict F)) :=
  if ~~ PGOAgentState_eqb (mState a) INITIALIZED then Ok None
  else
    map <-- shared_poses a (X a) (myPublicPoseIDs (mPoseGraph a)) [::] ;;
    Ok (Some map).

Definition getAuxSharedPoseDict (a : PGOAgent) : result (option (PoseDict F)) :=
  _ <-- CHECK (acceleration (mParams a)) "CHECK(mParams.acceleration)" ;;
  if ~~ PGOAgentState_eqb (mState a) INITIALIZED then Ok None
  else
    map <-- shared_poses a (Y a) (myPublicPoseIDs (mPoseGraph a)) [::] ;;
    Ok (Some map).

(** *** Notions for the statements *)

(** Every cached neighbor pose has the dimensions of the agent. *)
Definition cache_dims (m : PoseDict F) : Prop :=
  forall k v, dict_find k m = Some v -> lp_r v = r /\ lp_d v = d.

(** All the members of an edge but its weight. *)
Definition same_edge (m m' : RelativeSEMeasurement F) : Prop :=
  m' = set_weight (weight m') m.

(** Two vectors of the same length whose elements at the same index are
    related. *)
Definition pointwise A B (P : A -> B -> Prop) (s : seq A) (s' : seq B) : Prop :=
  size s' = size s /\ forall x y, List.In (x, y) (zip s s') -> P x y.

(** The number of which [updateGamma] takes the square root, and what it
    means that [sqrt] returns its square root. *)
Definition updateGamma_radicand (a : PGOAgent) : F :=
  1 + 4%:R * numRobotsF a ^+ 2 * gamma a ^+ 2.

Definition sqrt_at (x : F) : Prop := 0 <= sqrt E x /\ sqrt E x ^+ 2 = x.

(** The robot at the other end of a shared loop closure. *)
Definition other_robot (a : PGOAgent) (m : RelativeSEMeasurement F) : N :=
  if r1 m == getID a then r2 m else r1 m.

End AgentInterface.

(** *** Initialization of the agent *)

Section Initialization.
Variable F : realFieldType.
Variable E : External F.
Variables r d : nat.

Local Notation PGOAgent := (PGOAgent E r d).

(** A trajectory estimate handed to [initialize]: its dimension is data. *)
Record PoseArrayDyn : Type := mkPoseArrayDyn {
  pa_d : nat;
  pa_poses : PoseArray F pa_d }.

Definition as_PoseArray (T : PoseArrayDyn) : option (PoseArray F d) :=
  match pa_d T =P d with
  | ReflectT e => Some (ecast k (PoseArray F k) e (pa_poses T))
  | _ => None
  end.

(** The coefficient [(i, j)] of a dynamic matrix, 0 outside of it. *)
Definition coeff_at (M : Matrix F) (i j : nat) : F :=
  match insub i, insub j with
  | Some i', Some j' => coeff M i' j'
  | _, _ => 0
  end.

(** Modelled from the spec: [LiftedPoseArray::setData] and the layout of the
    data matrix are not among the verified files; pose [i] of a data matrix
    is the block of its columns [i (d + 1), ..., i (d + 1) + d]. *)
Definition pose_of_data (M : Matrix F) (i : nat) : Pose F d :=
  mkLiftedPose (\matrix_(a, b) coeff_at M a (i * (d + 1) + b))
               (\col_a coeff_at M a (i * (d + 1) + d)).

Definition poses_of_data (n : nat) (M : Matrix F) : PoseArray F d :=
  [seq pose_of_data M i | i <- iota 0 n].

(** Modelled from the spec: the value of [Pose(d)], the initializations
    [chordalInitialization] and [odometryInitialization] of [DPGO_solver] and
    the accessors [localMeasurements] and [odometry] of [PoseGraph] are not
    among the verified files. *)
Variable Pose_new : Pose F d.
Variable chordalInitialization : nat -> N -> seq (RelativeSEMeasurement F) -> Matrix F.
Variable odometryInitialization : nat -> N -> seq (RelativeSEMeasurement F) -> Matrix F.
Variable localMeasurements : PoseGraph E -> seq (RelativeSEMeasurement F).
Variable odometry : PoseGraph E -> seq (RelativeSEMeasurement F).

Definition initializeLocalTrajectory (a : PGOAgent) : result PGOAgent :=
  let T0 :=
    if costType (robustCostParams (mParams a)) is L2
    then chordalInitialization d (num_poses a) (localMeasurements (mPoseGraph a))
    else odometryInitialization d (num_poses a) (odometry (mPoseGraph a)) in
  _ <-- CHECK (rows T0 == d) "CHECK(T0.rows() == d)" ;;
  _ <-- CHECK (N.of_nat (cols T0) == N.of_nat (d + 1) * num_poses a)%num
              "CHECK(T0.cols() == (d + 1) * num_poses())" ;;
  let T := poses_of_data (N.to_nat (num_poses a)) T0 in
  Ok (set_TLocalInit (Some T) a).

(** [TInitPtr] is [None] for the null pointer. *)
Definition initialize (TInitPtr : option PoseArrayDyn) (a : PGOAgent)
  : result PGOAgent :=
  _ <-- CHECK (PGOAgentState_eqb (mState a) WAIT_FOR_DATA)
              "CHECK_EQ(mState, PGOAgentState::WAIT_FOR_DATA)" ;;
  _ <-- CHECK (~~ mOptimizationThread a)
              "Optimization thread should not be running at initialization!" ;;
  if PoseGraph_n (mPoseGraph a) == 0%num then Ok a
  else
    let provided :=
      if TInitPtr is Some TInit then
        if as_PoseArray TInit is Some T then
          if N.of_nat (size T) == num_poses a then Some T else None
        else None
      else None in
    let a := set_X (LiftedPoseArray_new E r d (num_poses a)) a in
    a <-- (if provided is Some T then Ok (set_TLocalInit (Some T) a)
           else initializeLocalTrajectory a) ;;
    let a := set_mState WAIT_FOR_INITIALIZATION a in
    if (mID a == 0%num) || ~~ multirobot_initialization (mParams a)
    then initializeInGlobalFrame Pose_new a
    else Ok a.

End Initialization.

(** ** The multithreaded solver: [RGDMaster.cpp] *)

Section RGDMaster.

(** Arithmetic of [unsigned]. *)
Definition unsigned_modulus : N := (2 ^ 32)%num.

Definition unsigned_mul (a b : N) : N := ((a * b) mod unsigned_modulus)%num.

Definition unsigned_add (a b : N) : N := ((a + b) mod unsigned_modulus)%num.

Definition unsigned_sub (a b : N) : N :=
  ((a + unsigned_modulus - b) mod unsigned_modulus)%num.

(** The integers [start, start + 1, ..., start + len - 1]. *)
Definition N_iota (start : N) (len : nat) : seq N :=
  [seq (start + N.of_nat i)%num | i <- iota 0 len].

(** The loop [for (unsigned idx = indexStart; idx <= indexEnd; ++idx)
    updateIndices.push_back(idx)].  When [indexEnd] is the largest
    [unsigned] the test holds for every [idx], and the vector grows until the
    allocation fails. *)
Definition push_indices (indexStart indexEnd : N) : result (seq N) :=
  if indexEnd == (unsigned_modulus - 1)%num then Fatal "std::bad_alloc"
  else if (indexStart <=? indexEnd)%num
  then Ok (N_iota indexStart (N.to_nat (indexEnd - indexStart + 1)))
  else Ok [::].

(** The body of [for (unsigned i = 0; i < num_threads; ++i)] of
    [RGDMaster::solve], as far as it computes the vector passed to
    [setUpdateIndices]. *)
Definition worker_updateIndices (n num_threads numPosesPerWorker i : N)
  : result (seq N) :=
  let indexStart := unsigned_mul numPosesPerWorker i in
  let indexEnd :=
    unsigned_sub (unsigned_mul numPosesPerWorker (unsigned_add i 1)) 1 in
  let indexEnd :=
    if i == unsigned_sub num_threads 1 then unsigned_sub n 1 else indexEnd in
  push_indices indexStart indexEnd.

(** The update indices that [solve(num_threads)] hands to its workers, in
    the order of the workers; [None] when it returns before it creates
    any.  [NDEBUG] tells whether [assert] is compiled out. *)
Definition solve_updateIndices (NDEBUG : bool) (n num_threads : N)
  : result (option (seq (seq N))) :=
  if num_threads == 0%num then Ok None
  else
    let numPosesPerWorker := (n / num_threads)%num in
    _ <-- (if NDEBUG then Ok tt
           else CHECK (numPosesPerWorker != 0%num) "assert(numPosesPerWorker != 0)") ;;
    if numPosesPerWorker == 0%num then Ok None
    else
      parts <-- for_each (worker_updateIndices n num_threads numPosesPerWorker)
                  (N_iota 0 (N.to_nat num_threads)) ;;
      Ok (Some parts).

End RGDMaster.

(** ** Further instances

    Files, agents and stand-ins for the statements about the functions
    above, over the small instance. *)

Module Example2.
Import Example.

(** A file whose pose IDs are 0, 1 and 2. *)
Definition lines0 : seq (g2o_line rat) := [:: edge 0 1; edge 1 2].

(** A file with a line of an unknown type, and a file without any edge. *)
Definition unknown_lines : seq (g2o_line rat) :=
  [:: edge 0 1; Unrecognized rat "VERTEX_XYZ"].

Definition vertex_lines : seq (g2o_line rat) :=
  [:: VERTEX_SE2 rat; FIX rat; Blank rat].

(** Two measurements of dimension 2 between the poses 0, 1 and 3. *)
Definition measurement_between (i j : N) : RelativeSEMeasurement rat :=
  {| r1 := 0%num; r2 := 0%num; p1 := i; p2 := j;
     R := mkMatrix (1%:M : 'M[rat]_2);
     t := mkMatrix (0 : 'cV[rat]_2);
     kappa := 1; tau := 1; weight := 1;
     fixedWeight := false; isKnownInlier := false |}.

Definition two_measurements : seq (RelativeSEMeasurement rat) :=
  [:: measurement_between 0 1; measurement_between 1 3].

(** The agent of the small instance with other parameters, with another
    ID, and in another state. *)
Definition with_params (p : PGOAgentParameters env) (a : PGOAgent env 2 2)
  : PGOAgent env 2 2 :=
  mkPGOAgent (mID a) (X a) p (mState a) (mStatus a) (mRobustCost a)
    (mPoseGraph a) (mInstanceNumber a) (mIterationNumber a)
    (mNumPosesReceived a) (gamma a) (alpha a) (Y a) (V a) (XPrev a) (YLift a)
    (globalAnchor a) (TLocalInit a) (XInit a) (neighborPoseDict a)
    (neighborAuxPoseDict a) (mTeamStatus a) (mOptimizationRequested a)
    (mPublishPublicPosesRequested a) (mPublishWeightsRequested a)
    (mOptimizationThread a).

Definition with_ID (ID : N) (a : PGOAgent env 2 2) : PGOAgent env 2 2 :=
  mkPGOAgent ID (X a) (mParams a) (mState a) (mStatus a) (mRobustCost a)
    (mPoseGraph a) (mInstanceNumber a) (mIterationNumber a)
    (mNumPosesReceived a) (gamma a) (alpha a) (Y a) (V a) (XPrev a) (YLift a)
    (globalAnchor a) (TLocalInit a) (XInit a) (neighborPoseDict a)
    (neighborAuxPoseDict a) (mTeamStatus a) (mOptimizationRequested a)
    (mPublishPublicPosesRequested a) (mPublishWeightsRequested a)
    (mOptimizationThread a).

(** Parameters with a robust cost whose weights are due every 9 iterations. *)
Definition robust_params : PGOAgentParameters env :=
  {| verbose := false; logData := true; logDirectory := "";
     algorithm := RTR;
     acceleration := false;
     restartInterval := 1%num;
     numRobots := 2%num;
     maxNumIters := 500%num;
     relChangeTol := DFin 1;
     multirobot_initialization := true;
     robustInitMinInliers := 1%num;
     robustOptWarmStart := true;
     robustOptInnerIters := 9%num;
     robustOptMinConvergenceRatio := DFin 1;
     robustCostParams := (TLS : RobustCostParameters env) |}.

(** Agent 0 before it has data, with the quadratic and with the robust
    cost; it is at iteration 7. *)
Definition waiting : PGOAgent env 2 2 :=
  set_mState WAIT_FOR_DATA (agent false true).

Definition robust_waiting : PGOAgent env 2 2 := with_params robust_params waiting.

(** Agent 1, which receives the poses of agent 0. *)
Definition agent1 (accelerated : bool) : PGOAgent env 2 2 :=
  with_ID 1 (agent accelerated true).

(** The public poses of a robot are its pose 0. *)
Definition myPublicPoseIDs (g : SimpleGraph) : seq PoseID := [:: mkPoseID 0 0].

(** Stand-ins for the value of [Pose(d)] and for the local initializations. *)
Definition Pose_new : Pose rat 2 := Pose_Identity rat 2.

Definition chordalInitialization (d : nat) (n : N)
  (ms : seq (RelativeSEMeasurement rat)) : Matrix rat :=
  mkMatrix (0 : 'M[rat]_(2, 3)).

Definition localMeasurements (g : SimpleGraph) : seq (RelativeSEMeasurement rat) :=
  sg_privateLoopClosures g.

(** An outgoing edge from pose 0 of robot 0 to pose 0 of robot 1, with the
    identity as measurement. *)
Definition shared_edge : RelativeSEMeasurement rat :=
  {| r1 := 0%num; r2 := 1%num; p1 := 0%num; p2 := 0%num;
     R := mkMatrix (1%:M : 'M[rat]_2);
     t := mkMatrix (0 : 'cV[rat]_2);
     kappa := 1; tau := 1; weight := 1;
     fixedWeight := false; isKnownInlier := false |}.


(** Agent 0 with two poses, an undecided private loop closure and the shared
    edge to robot 1, whose pose 0 it has received. *)
Definition agent3 : PGOAgent env 2 2 :=
  set_neighborPoseDict [:: (mkPoseID 1 0, mkLiftedPoseDyn origin)]
    (set_mPoseGraph
       (mkSimpleGraph 2 [:: mkPoseID 1 0] [:: loop_closure 2^-1] [:: shared_edge]
                      [::] true : PoseGraph env)
       (set_X [:: pose11; origin] (agent false true))).

End Example2.

(** * Properties

    The statements about the loader come first, then those about the
    projections, then those about the agent; the last section checks them on
    the small instance. *)

(** Inversion of a successful bind. *)
Ltac bind_inv H :=
  let x := fresh "x" in
  let e := fresh "e" in
  lazymatch type of H with
  | rbind ?m _ = Ok _ =>
      destruct m as [x| |] eqn:e; [simpl in H | discriminate H | discriminate H]
  end.

(** ** Arithmetic of [size_t] and ordered sets *)

Lemma N_ltP (a b : N) : reflect (a < b)%num (N_lt a b).
Proof. exact: N.ltb_spec0. Qed.

Lemma N_eqbE (a b : N) : (a =? b)%num = (a == b).
Proof. by apply/idP/eqP => /N.eqb_eq. Qed.

Lemma size_t_sub_add1 (x : N) :
  (x < size_t_modulus)%num -> size_t_add (size_t_sub x 1) 1 = x.
Proof.
rewrite /size_t_add /size_t_sub.
have [->|x0] := N.eq_dec x 0%num; first by vm_compute.
have : (1 < size_t_modulus)%num by [].
move: size_t_modulus => M hM hx.
have e : (x + M - 1 = (x - 1) + 1 * M)%num by lia.
rewrite e.
rewrite N.Div0.mod_add (N.mod_small (x - 1)); try lia.
by rewrite N.mod_small; lia.
Qed.

Lemma size_t_add1_small (x : N) :
  (x + 1 < size_t_modulus)%num -> size_t_add x 1 = (x + 1)%num.
Proof. by move=> hx; rewrite /size_t_add N.mod_small. Qed.

Lemma size_t_sub_small (x k : N) :
  (k <= x)%num -> (x < size_t_modulus)%num -> size_t_sub x k = (x - k)%num.
Proof.
rewrite /size_t_sub => hk hx.
have e : (x + size_t_modulus - k = (x - k) + 1 * size_t_modulus)%num by lia.
by rewrite e N.Div0.mod_add N.mod_small; lia.
Qed.

Lemma mem_set_emplace (x y : N) (s : seq N) :
  (y \in set_emplace x s) = (y == x) || (y \in s).
Proof.
elim: s => [|z s ih] /=; first by rewrite !inE orbF.
case: ifP => _; first by rewrite !inE.
rewrite N_eqbE; case: eqP => [->|_].
  by rewrite !inE; case: (y == z).
by rewrite !inE ih; case: (y == x); case: (y == z).
Qed.

Lemma path_set_emplace (x z : N) (s : seq N) :
  N_lt z x -> path N_lt z s -> path N_lt z (set_emplace x s).
Proof.
elim: s z => [|y s ih] z /= hzx; first by rewrite hzx.
case/andP=> hzy hp.
case hxy: (x <? y)%num; first by rewrite /= hzx [N_lt x y]hxy hp.
rewrite N_eqbE; case: eqP => [e|ne]; first by rewrite /= hzy hp.
rewrite /= hzy ih //.
apply/N_ltP; move/N.ltb_ge: hxy => hxy.
by have : x <> y by []; lia.
Qed.

Lemma sorted_set_emplace (x : N) (s : seq N) :
  sorted N_lt s -> sorted N_lt (set_emplace x s).
Proof.
case: s => [|y s] //= hp.
case hxy: (x <? y)%num; first by rewrite /= [N_lt x y]hxy hp.
rewrite N_eqbE; case: eqP => [e|ne] //=.
apply: path_set_emplace => //.
apply/N_ltP; move/N.ltb_ge: hxy => hxy.
by have : x <> y by []; lia.
Qed.
(** ** The loader *)

Section InformationBlocks.
Variable F : realFieldType.

Lemma ulsubmx_information_SE2 (e : se2_fields F) :
  ulsubmx (information_SE2 e)
  = comma_init 2 2 [:: se2_I11 e; se2_I12 e; se2_I12 e; se2_I22 e].
Proof.
apply/matrixP => i j; rewrite !mxE.
by case: i => [[|[|i]] hi] //; case: j => [[|[|j]] hj].
Qed.

Lemma drsubmx_information_SE2 (e : se2_fields F) :
  drsubmx (information_SE2 e) = (se2_I33 e)%:M.
Proof.
apply/matrixP => i j; rewrite !mxE !ord1 /=.
by rewrite mulr1n.
Qed.

Lemma ulsubmx_information_SE3 (e : se3_fields F) :
  ulsubmx (information_SE3 e)
  = comma_init 3 3 [:: se3_I11 e; se3_I12 e; se3_I13 e;
                       se3_I12 e; se3_I22 e; se3_I23 e;
                       se3_I13 e; se3_I23 e; se3_I33 e].
Proof.
apply/matrixP => i j; rewrite !mxE.
by case: i => [[|[|[|i]]] hi] //; case: j => [[|[|[|j]]] hj].
Qed.

Lemma drsubmx_information_SE3 (e : se3_fields F) :
  drsubmx (information_SE3 e)
  = comma_init 3 3 [:: se3_I44 e; se3_I45 e; se3_I46 e;
                       se3_I45 e; se3_I55 e; se3_I56 e;
                       se3_I46 e; se3_I56 e; se3_I66 e].
Proof.
apply/matrixP => i j; rewrite !mxE.
by case: i => [[|[|[|i]]] hi] //; case: j => [[|[|[|j]]] hj].
Qed.

(** The 1-by-1 case of the formula: [2 / (2 tr(Sigma_r))] is [I33]. *)
Lemma precision_kappa_SE2 (e : se2_fields F) :
  2%:R / (2%:R * \tr (invmx (drsubmx (information_SE2 e)))) = se2_I33 e.
Proof.
rewrite drsubmx_information_SE2 invmx_scalar mxtrace_scalar.
rewrite mulr1n invfM invrK mulrA divff ?mul1r //.
by rewrite pnatr_eq0.
Qed.

(** Blocks that are multiples of the identity. *)
Lemma comma_init_scalar2 (a : F) : comma_init 2 2 [:: a; 0; 0; a] = a%:M.
Proof.
apply/matrixP => i j; rewrite !mxE.
by case: i => [[|[|i]] hi] //; case: j => [[|[|j]] hj].
Qed.

Lemma comma_init_scalar3 (a : F) :
  comma_init 3 3 [:: a; 0; 0; 0; a; 0; 0; 0; a] = a%:M.
Proof.
apply/matrixP => i j; rewrite !mxE.
by case: i => [[|[|[|i]]] hi] //; case: j => [[|[|[|j]]] hj].
Qed.

Lemma mxtrace_invmx_scalar n (a : F) :
  \tr (invmx (a%:M : 'M[F]_n)) = a^-1 * n%:R.
Proof. by rewrite invmx_scalar mxtrace_scalar mulr_natr. Qed.

Lemma regular_information_scalar dt dr (I : 'M[F]_(dt.+1 + dr.+1)) (a b : F) :
  ulsubmx I = a%:M -> drsubmx I = b%:M -> a != 0 -> b != 0 ->
  regular_information I.
Proof.
rewrite /regular_information => -> -> a0 b0.
rewrite !unitmxE !det_scalar !unitfE !expf_neq0 //=.
by rewrite !mxtrace_invmx_scalar !mulf_neq0 ?invr_eq0 ?pnatr_eq0.
Qed.

Lemma scalar_precision n (a : F) :
  a != 0 -> n.+1%:R / \tr (invmx (a%:M : 'M[F]_n.+1)) = a.
Proof.
move=> a0; rewrite mxtrace_invmx_scalar invfM invrK mulrCA divff ?mulr1 //.
by rewrite pnatr_eq0.
Qed.

Variable Rotation2D_toRotationMatrix : F -> 'M[F]_2.
Variable Quaternion_toRotationMatrix : F -> F -> F -> F -> 'M[F]_3.
Variable Matrix_inverse : forall n, 'M[F]_n -> 'M[F]_n.
Variable double_quotient : F -> F -> F.
Hypothesis inverse_ok : inverse_spec Matrix_inverse.
Hypothesis quotient_ok : quotient_spec double_quotient.

Lemma fill_EDGE_SE2_precisions m (e : se2_fields F) :
  regular_edge (EDGE_SE2 e) ->
  line_precisions (EDGE_SE2 e)
    (fill_EDGE_SE2 Rotation2D_toRotationMatrix Matrix_inverse double_quotient
                   m e).
Proof.
rewrite /= /regular_information precision_kappa_SE2.
rewrite ulsubmx_information_SE2 => /and4P[ht _ tt0 _].
by rewrite inverse_ok // quotient_ok.
Qed.

Lemma fill_EDGE_SE3_QUAT_precisions m (e : se3_fields F) :
  regular_edge (EDGE_SE3_QUAT e) ->
  line_precisions (EDGE_SE3_QUAT e)
    (fill_EDGE_SE3_QUAT Quaternion_toRotationMatrix Matrix_inverse
                        double_quotient m e).
Proof.
rewrite /= /regular_information.
rewrite ulsubmx_information_SE3 drsubmx_information_SE3 => /and4P[ht hr tt0 tr0].
by rewrite !inverse_ok // !quotient_ok // mulf_neq0 // pnatr_eq0.
Qed.

End InformationBlocks.

Section Ranges.

Lemma path_N_lt_mem (z x : N) (s : seq N) :
  path N_lt z s -> x \in s -> (z < x)%num.
Proof.
elim: s z => [|y s ih] z //= /andP[/N_ltP hzy hp].
rewrite inE => /orP[/eqP-> //|hx].
by have := ih _ hp hx; lia.
Qed.

Lemma range_head (y : N) (s : seq N) (k n : N) :
  sorted N_lt (y :: s) -> is_range k n (y :: s) -> y = k.
Proof.
move=> hs hr.
have hy : (k <= y /\ y < k + n)%num by apply/hr; rewrite inE eqxx.
have /hr : (k <= k /\ k < k + n)%num by lia.
rewrite inE => /orP[/eqP-> //|hk].
by have := path_N_lt_mem hs hk; lia.
Qed.

Lemma range_behead (y : N) (s : seq N) (k n : N) :
  sorted N_lt (y :: s) -> is_range k n (y :: s) ->
  is_range (k + 1)%num (n - 1)%num s.
Proof.
move=> hs hr x; have yk := range_head hs hr; split=> [hx|hx].
  have : (k <= x /\ x < k + n)%num by apply/hr; rewrite inE hx orbT.
  by have := path_N_lt_mem hs hx; lia.
have /hr : (k <= x /\ x < k + n)%num by lia.
by rewrite inE => /orP[/eqP|] //; lia.
Qed.

Lemma consecutive_of_range (s : seq N) (k n prev : N) :
  sorted N_lt s -> is_range k n s -> (k + n <= size_t_modulus)%num ->
  (s <> [::] -> size_t_add prev 1 = k) ->
  consecutive_from prev s /\ N.of_nat (size s) = n.
Proof.
elim: s k n prev => [|y s ih] k n prev hs hr hb hp.
  split=> //; case: (N.eq_dec n 0%num) => // n0.
  by have /hr : (k <= k /\ k < k + n)%num by lia.
have hy : (k <= y /\ y < k + n)%num by apply/hr; rewrite inE eqxx.
have yk := range_head hs hr.
have hr' := range_behead hs hr.
have hb' : (k + 1 + (n - 1) <= size_t_modulus)%num by lia.
have hp' : s <> [::] -> size_t_add y 1 = (k + 1)%num.
  case: s {ih hs hr hp} hr' => [|z s] // hr' _; rewrite yk.
  have : (k + 1 <= z /\ z < k + 1 + (n - 1))%num by apply/hr'; rewrite inE eqxx.
  by move=> hz; apply: size_t_add1_small; lia.
have [hc hn] := ih _ _ _ (path_sorted hs) hr' hb' hp'.
split.
- by rewrite /= hp // yk eqxx -yk.
- by rewrite [size _]/= Nat2N.inj_succ hn; lia.
Qed.

Lemma range_of_consecutive (s : seq N) (x : N) :
  path N_lt x s -> (forall y, y \in s -> (y < size_t_modulus)%num) ->
  consecutive_from x s -> is_range x (N.of_nat (size s) + 1)%num (x :: s).
Proof.
elim: s x => [|y s ih] x.
  by move=> _ _ _ z; rewrite inE /=; split=> [/eqP->|hz]; [lia|apply/eqP; lia].
rewrite [path _ _ _]/= [consecutive_from _ _]/=.
case/andP=> /N_ltP hxy hp hM.
case: eqP => // ey hc.
have es : N.of_nat (size (y :: s)) = (N.of_nat (size s) + 1)%num.
  by rewrite [size _]/= Nat2N.inj_succ; lia.
rewrite es.
have yM : (y < size_t_modulus)%num by apply: hM; rewrite inE eqxx.
have ey' : y = (x + 1)%num by rewrite ey size_t_add1_small //; lia.
have hM' z : z \in s -> (z < size_t_modulus)%num.
  by move=> hz; apply: hM; rewrite inE hz orbT.
have hr := ih y hp hM' hc.
move=> z; rewrite inE; split.
  case/orP=> [/eqP->|/hr]; first by lia.
  by lia.
move=> hz; case: (N.eq_dec z x) => [->|zx]; first by rewrite eqxx.
by apply/orP; right; apply/hr; lia.
Qed.

End Ranges.

Section Loader.
Variable F : realFieldType.
Variable Rotation2D_toRotationMatrix : F -> 'M[F]_2.
Variable Quaternion_toRotationMatrix : F -> F -> F -> F -> 'M[F]_3.
Variable Matrix_inverse : forall n, 'M[F]_n -> 'M[F]_n.
Variable double_quotient : F -> F -> F.

Local Notation read_line :=
  (read_line Rotation2D_toRotationMatrix Quaternion_toRotationMatrix
             Matrix_inverse double_quotient).
Local Notation read_lines :=
  (read_lines Rotation2D_toRotationMatrix Quaternion_toRotationMatrix
              Matrix_inverse double_quotient).
Local Notation read_g2o_file :=
  (read_g2o_file Rotation2D_toRotationMatrix Quaternion_toRotationMatrix
                 Matrix_inverse double_quotient).

Lemma file_pose_ids_rcons (seen : seq (g2o_line F)) l :
  file_pose_ids (rcons seen l) = file_pose_ids seen ++ line_pose_ids l.
Proof. by rewrite /file_pose_ids map_rcons -cats1 flatten_cat /= cats0. Qed.

Lemma In_rcons A (x y : A) (s : seq A) :
  List.In x (rcons s y) <-> x = y \/ List.In x s.
Proof.
elim: s => [|z s ih] /=; first by split=> [[]|[]] //; auto.
by rewrite ih; split=> [[|[]]|[|[]]]; auto.
Qed.

Lemma mem_line_pose_ids (seen : seq (g2o_line F)) l x :
  List.In l seen -> x \in line_pose_ids l -> x \in file_pose_ids seen.
Proof.
elim: seen => [|l' seen ih] //= [->|hl] hx; rewrite /file_pose_ids /= mem_cat.
  by rewrite hx.
by rewrite [X in _ || X]ih ?orbT.
Qed.

Lemma push_measurement_ok seen st l l' m :
  reader_ok seen st ->
  List.In l' (rcons seen l) -> l' <> Blank F ->
  (forall x, x \in file_pose_ids (rcons seen l)
             <-> x \in file_pose_ids seen ++ line_pose_ids l') ->
  line_pose_ids l' = [:: p1 m; p2 m] ->
  reader_ok (rcons seen l) (push_measurement m l' st).
Proof.
move=> [hs hi hm hl he] hin hnb hids hl'.
have hmem x : x \in pose_ids (push_measurement m l' st)
              <-> x \in file_pose_ids (rcons seen l).
  rewrite /= !mem_set_emplace hids mem_cat hl' !inE.
  have := hi x; case: (x \in pose_ids st); case: (x \in file_pose_ids seen);
    case: (x == p1 m); case: (x == p2 m) => //=; intuition.
split=> //.
- exact/sorted_set_emplace/sorted_set_emplace.
- move=> m' /= /In_rcons [->|/hm [h1 h2]].
    by split; rewrite ?mem_set_emplace ?eqxx ?orbT.
  by split; rewrite ?mem_set_emplace ?h1 ?h2 ?orbT.
- by move=> l0 [<-].
- move=> x; rewrite /= !mem_set_emplace => /orP[/eqP->|/orP[/eqP->|/he [m1 h1 h2]]].
  + by exists m; [apply/In_rcons; left|right].
  + by exists m; [apply/In_rcons; left|left].
  + by exists m1 => //; apply/In_rcons; right.
Qed.

Lemma skip_line_ok seen st l l' :
  reader_ok seen st ->
  List.In l' (rcons seen l) -> l' <> Blank F ->
  (forall x, x \in file_pose_ids (rcons seen l) <-> x \in file_pose_ids seen) ->
  reader_ok (rcons seen l) (skip_line l' st).
Proof.
move=> [hs hi hm hl he] hin hnb hids; split=> //.
- by move=> x; rewrite hids; exact: hi.
- by move=> l0 [<-].
Qed.

Lemma effective_line_ok seen st l l' :
  reader_ok seen st ->
  (if l is Blank then last_line st else Some l) = Some l' ->
  [/\ List.In l' (rcons seen l), l' <> Blank F
    & forall x, x \in file_pose_ids (rcons seen l)
                <-> x \in file_pose_ids seen ++ line_pose_ids l'].
Proof.
case=> _ _ _ hlast _.
have base : l = l' -> l' <> Blank F ->
    [/\ List.In l' (rcons seen l), l' <> Blank F
      & forall x, x \in file_pose_ids (rcons seen l)
                  <-> x \in file_pose_ids seen ++ line_pose_ids l'].
  by move=> -> hnb; split=> //; [apply/In_rcons; left|rewrite file_pose_ids_rcons].
case: l base => [e|e| | | |tok|] base;
  try by case=> el; apply: (base el); rewrite -el.
move=> /hlast [hnb hin]; split=> //; first by apply/In_rcons; right.
move=> x; rewrite file_pose_ids_rcons /= cats0 mem_cat; split=> [->//|].
by case/orP=> // /(mem_line_pose_ids hin).
Qed.

Lemma read_line_ok seen st l st' :
  reader_ok seen st -> read_line st l = Ok st' -> reader_ok (rcons seen l) st'.
Proof.
move=> hok; rewrite /read_line.
have := @effective_line_ok seen st l ^~ hok.
case: (if l is Blank then _ else _) => [[e|e| | | |tok|]|] heff //; case=> <-.
- have [h1 h2 h3] := heff _ erefl.
  exact: push_measurement_ok.
- have [h1 h2 h3] := heff _ erefl.
  exact: push_measurement_ok.
- have [h1 h2 h3] := heff _ erefl.
  by apply: skip_line_ok => // x; rewrite h3 /= cats0.
- have [h1 h2 h3] := heff _ erefl.
  by apply: skip_line_ok => // x; rewrite h3 /= cats0.
- have [h1 h2 h3] := heff _ erefl.
  by apply: skip_line_ok => // x; rewrite h3 /= cats0.
Qed.

Lemma read_lines_ok seen st lines st' :
  reader_ok seen st -> read_lines st lines = Ok st' ->
  reader_ok (seen ++ lines) st'.
Proof.
elim: lines seen st => [|l lines ih] seen st hok /=.
  by case=> <-; rewrite cats0.
case hl: (read_line st l) => [st1|s|s] //= hrest.
by rewrite -cat_rcons; apply: ih hrest; apply: read_line_ok hl.
Qed.

Lemma initial_reader_ok (m0 : RelativeSEMeasurement F) :
  reader_ok [::] (initial_reader m0).
Proof. by split. Qed.


Lemma N_lt_uniq (s : seq N) : sorted N_lt s -> uniq s.
Proof.
apply: sorted_uniq => [y x z /N_ltP hxy /N_ltP hyz|x]; first by apply/N_ltP; lia.
by apply/N_ltP; lia.
Qed.

Lemma map_reindex (k : N) (ms : seq (RelativeSEMeasurement F)) :
  (forall m, List.In m ms ->
     [/\ (k <= p1 m)%num, (k <= p2 m)%num, (p1 m < size_t_modulus)%num
       & (p2 m < size_t_modulus)%num]) ->
  [seq reindex k m | m <- ms] = [seq decrement_ids k m | m <- ms].
Proof.
elim: ms => [|m ms ih] //= h.
rewrite (ih (fun m' hm' => h m' (or_intror hm'))).
have [h1 h2 h3 h4] := h m (or_introl erefl).
by rewrite /reindex /decrement_ids !size_t_sub_small.
Qed.

Lemma read_line_parsed st l st' :
  inverse_spec Matrix_inverse -> quotient_spec double_quotient ->
  read_line st l = Ok st' ->
  let l' := if l is Blank then previous_line st else l in
  [/\ previous_line st' = l',
      is_edge l' = false -> measurements st' = measurements st
    & is_edge l' ->
      exists2 m, measurements st' = rcons (measurements st) m
               & regular_edge l' -> line_precisions l' m].
Proof.
move=> hinv hquo; rewrite /read_line /previous_line.
have -> : (if l is Blank then if last_line st is Some l0 then l0 else Blank F
           else l)
          = if (if l is Blank then last_line st else Some l) is Some l0
            then l0 else Blank F.
  by case: l.
case: (if l is Blank then _ else _) => [[e|e| | | |tok|]|] //= [<-] /=;
  split=> //.
- move=> _; eexists; first by [].
  exact: (fill_EDGE_SE2_precisions _ hinv hquo).
- move=> _; eexists; first by [].
  exact: (fill_EDGE_SE3_QUAT_precisions _ hinv hquo).
Qed.

Lemma read_lines_parsed st lines st' :
  inverse_spec Matrix_inverse -> quotient_spec double_quotient ->
  read_lines st lines = Ok st' ->
  exists2 ms, measurements st' = measurements st ++ ms
    & List.Forall2 (fun l m => regular_edge l -> line_precisions l m)
        [seq l <- lines_read (previous_line st) lines | is_edge l] ms.
Proof.
move=> hinv hquo; elim: lines st => [|l lines ih] st /=.
  by case=> <-; exists [::]; rewrite ?cats0 //; constructor.
case hl: (read_line st l) => [st1|s|s] //= /ih [ms ems hms].
have [hprev hskip hedge] := read_line_parsed hinv hquo hl.
rewrite hprev in hms.
case he: (is_edge _) hskip hedge => hskip hedge.
  have [m em hm] := hedge isT.
  exists (m :: ms); first by rewrite ems em -cats1 -catA.
  by constructor.
by exists ms => //; rewrite ems (hskip erefl).
Qed.

Lemma lines_read_id (previous : g2o_line F) (lines : seq (g2o_line F)) :
  ~ List.In (Blank F) lines -> lines_read previous lines = lines.
Proof.
elim: lines previous => [|l lines ih] previous //= hb.
have hl : (if l is Blank then previous else l) = l.
  by case: l hb => // hb; case: hb; left.
by rewrite hl ih // => h; apply: hb; right.
Qed.

(** C1: the measurements the loader returns are, in the order of the file,
    those of the edge lines it has read (a blank line standing for the line
    before it), and each of them carries the precisions
    [kappa = d / (2 tr(Sigma_r))] and [tau = d / tr(Sigma_t)] of the line it
    was parsed from, where [Sigma_t] and [Sigma_r] are the inverses of the
    translation and rotation blocks of that line's information matrix and
    [d] is 2 for [EDGE_SE2] and 3 for [EDGE_SE3:QUAT].  This holds of every
    line whose two blocks are invertible, with covariances of non-zero trace,
    when Eigen's [inverse()] is the inverse on invertible matrices and the
    quotient of doubles is the quotient of numbers when the divisor is not
    zero. *)
Theorem read_g2o_file_precisions m0 lines ms n :
  inverse_spec Matrix_inverse -> quotient_spec double_quotient ->
  read_g2o_file m0 lines = Ok (ms, n) ->
  List.Forall2 (fun l m => regular_edge l -> line_precisions l m)
               (parsed_edges lines) ms
  /\ (~ List.In (Blank F) lines ->
      parsed_edges lines = [seq l <- lines | is_edge l]).
Proof.
move=> hinv hquo; rewrite /read_g2o_file.
case hst: (read_lines _ _) => [st|s|s] //= H.
split; last by move=> hb; rewrite /parsed_edges lines_read_id.
have [ms0 /= ems hms] := read_lines_parsed hinv hquo hst.
case: (pose_ids st) H => [|first ids] //; case: ifP => // _ [<- _].
rewrite ems /parsed_edges; case: ifP => _ //.
elim: hms => [|l m ls ms1 hlm _ ih] /=; first by constructor.
by constructor=> // hr; case: l (hlm hr) {hlm hr}.
Qed.

(** C7: when the pose IDs of the file are the [n] consecutive integers from
    some [k > 0] on, the loader returns the measurements with both endpoint
    IDs decremented by [k], so that an endpoint with ID 0 exists, and stores
    in [num_poses] the number [n] of distinct pose IDs; when the pose IDs are
    not consecutive, loading aborts. *)
Theorem read_g2o_file_reindex m0 lines st :
  size_t_ids lines ->
  read_lines (initial_reader m0) lines = Ok st ->
  (forall k n, (0 < k)%num -> (0 < n)%num ->
     is_range k n (file_pose_ids lines) ->
     [/\ read_g2o_file m0 lines
         = Ok ([seq decrement_ids k m | m <- measurements st], n),
         n = N.of_nat (size (undup (file_pose_ids lines)))
       & exists2 m, List.In m [seq decrement_ids k m | m <- measurements st]
                  & p1 m = 0%num \/ p2 m = 0%num])
  /\ (file_pose_ids lines <> [::] ->
      ~ (exists k n, is_range k n (file_pose_ids lines)) ->
      exists msg, read_g2o_file m0 lines = Fatal msg).
Proof.
move=> hwf hst.
have [hs hi hm _ he] := read_lines_ok (initial_reader_ok m0) hst.
rewrite /= in hi hm he.
split=> [k n k0 n0 hr|hne hnr].
  have hr' : is_range k n (pose_ids st) by move=> x; rewrite hi; exact: hr.
  have hb : (k + n <= size_t_modulus)%num.
    have /hr/hwf : (k <= k + n - 1 /\ k + n - 1 < k + n)%num by lia.
    by lia.
  have kM : (k < size_t_modulus)%num by lia.
  have hsz : N.of_nat (size (pose_ids st)) = n.
    by have [] := consecutive_of_range (prev := size_t_sub k 1) hs hr' hb
                    (fun _ => size_t_sub_add1 kM).
  have hbounds m : List.In m (measurements st) ->
      [/\ (k <= p1 m)%num, (k <= p2 m)%num, (p1 m < size_t_modulus)%num
        & (p2 m < size_t_modulus)%num].
    move=> /hm [h1 h2]; have /hi/hwf ? := h1; have /hi/hwf ? := h2.
    by have /hr' [? ?] := h1; have /hr' [? ?] := h2.
  split.
  - rewrite /read_g2o_file hst /=.
    case hids: (pose_ids st) hs hr' hsz => [|first ids] hs hr' hsz.
      by move: hsz n0 => /= <-.
    have fk := range_head hs hr'; rewrite {first}fk in hids hs hr' hsz *.
    have [-> _] := consecutive_of_range (prev := size_t_sub k 1) hs hr' hb
                     (fun _ => size_t_sub_add1 kM).
    have -> : (k != 0%num) by apply/eqP; lia.
    by rewrite map_reindex // hsz.
  - rewrite -hsz; congr (N.of_nat _); apply/perm_size/uniq_perm.
    + exact: N_lt_uniq.
    + exact: undup_uniq.
    + by move=> x; rewrite mem_undup; apply/idP/idP => /hi.
  - have /hr'/he [m hin hk] : (k <= k /\ k < k + n)%num by lia.
    exists (decrement_ids k m).
      elim: (measurements st) hin => [|m1 ms1 ih] //= [->|/ih]; by [left|right].
    by case: hk => hk; [left|right]; rewrite /= -hk; lia.
rewrite /read_g2o_file hst /=.
case hids: (pose_ids st) hs hi => [|first ids] hs hi.
  case: (file_pose_ids lines) hne hi => [|x s] // _ /(_ x) [_].
  by rewrite inE eqxx => /(_ isT).
case hc: (consecutive_from _ _); last by eexists.
case: hnr; exists first, (N.of_nat (size ids) + 1)%num => x; rewrite -hi.
have hM y : y \in first :: ids -> (y < size_t_modulus)%num.
  by move/hi/hwf.
apply: range_of_consecutive => //.
  by move=> y hy; apply: hM; rewrite inE hy orbT.
move: hc; rewrite /= size_t_sub_add1 ?eqxx //.
by apply: hM; rewrite inE eqxx.
Qed.

End Loader.

(** ** Projections onto the Stiefel manifold and the rotation group *)

Section UtilitiesProofs.
Variable F : realFieldType.
Variable E : External F.

Lemma stiefel_of_factors r d (U : 'M[F]_(r, d)) (V : 'M[F]_d) :
  U^T *m U = 1%:M -> V^T *m V = 1%:M -> is_stiefel (U *m V^T).
Proof.
move=> hU hV; rewrite /is_stiefel trmx_mul trmxK.
rewrite mulmxA -(mulmxA V) hU mulmx1.
exact: mulmx1C.
Qed.

Lemma diag_sq_eq1 n (s : 'rV[F]_n) :
  (forall i, 0 <= s 0 i) -> diag_mx s *m diag_mx s = 1%:M -> diag_mx s = 1%:M.
Proof.
move=> s_ge0 hs.
have s1 i : s 0 i = 1.
  move/matrixP/(_ i i): hs; rewrite mulmx_diag !mxE eqxx /= mulr1n => /eqP.
  by rewrite -expr2 (sqrp_eq1 (s_ge0 i)) => /eqP.
apply/matrixP => i j; rewrite !mxE; case: eqP => // _.
by rewrite s1.
Qed.

(** The singular values of a matrix with orthonormal columns are all 1. *)
Lemma stiefel_singular_values r d (P : 'M[F]_(r, d)) (s : SVD F r d) :
  is_stiefel P -> svd_spec P s -> diag_mx (singularValues s) = 1%:M.
Proof.
move=> hP [eqP hU hV s_ge0]; apply: diag_sq_eq1 => //.
move: hP; rewrite /is_stiefel {1 2}eqP !trmx_mul trmxK tr_diag_mx.
set U := matrixU s; set V := matrixV s; set S := diag_mx _ => hP.
have hV' : V *m V^T = 1%:M by exact: mulmx1C.
have -> : S *m S = V^T *m (V *m (S *m (U^T *m U) *m S) *m V^T) *m V.
  by rewrite hU mulmx1 !mulmxA hV mul1mx -!mulmxA hV mulmx1.
have -> : V *m (S *m (U^T *m U) *m S) *m V^T = V *m (S *m U^T) *m (U *m S *m V^T).
  by rewrite !mulmxA.
by rewrite hP mulmx1.
Qed.

(** C8: for an r-by-d matrix [M] with [r >= d], projecting the projection
    of [M] onto the Stiefel manifold gives the projection of [M] again, when
    [JacobiSVD] returns singular value decompositions of [M] and of its
    projection. *)
Theorem projectToStiefelManifold_idempotent r d (M : 'M[F]_(r, d)) :
  (d <= r)%N ->
  svd_spec M (JacobiSVD E M) ->
  (forall P, projectToStiefelManifold E M = Ok P -> svd_spec P (JacobiSVD E P)) ->
  rbind (projectToStiefelManifold E M) (@projectToStiefelManifold F E r d)
  = projectToStiefelManifold E M.
Proof.
move=> le_dr [_ hU hV _] hP.
have := hP (matrixU (JacobiSVD E M) *m (matrixV (JacobiSVD E M))^T).
rewrite /projectToStiefelManifold le_dr /= ?le_dr /= => /(_ erefl) hP'.
have hS := stiefel_singular_values (stiefel_of_factors hU hV) hP'.
by case: hP' => eqP _ _ _; rewrite [in RHS]eqP hS mulmx1.
Qed.

Lemma negate_last_colE m n (U : 'M[F]_(m, n)) :
  negate_last_col U = U *m diag_mx (last_sign F n).
Proof.
rewrite mul_mx_diag; apply/matrixP => i j; rewrite !mxE.
by case: ifP => _; rewrite ?mulrN1 ?mulr1.
Qed.

Lemma last_sign_sq n :
  diag_mx (last_sign F n) *m diag_mx (last_sign F n) = 1%:M.
Proof.
rewrite mulmx_diag; apply/matrixP => i j; rewrite !mxE.
by case: ifP => _; rewrite ?mulrNN mulr1.
Qed.

Lemma det_last_sign n : \det (diag_mx (last_sign F n.+1)) = -1.
Proof.
rewrite det_diag (bigD1 ord_max) //= mxE eqxx big1 ?mulr1 // => j ne_j.
rewrite mxE eqSS; case: eqP => // ej; case/eqP: ne_j.
exact: val_inj.
Qed.

Lemma det_orthogonal d (U : 'M[F]_d) :
  U^T *m U = 1%:M -> (\det U == 1) || (\det U == -1).
Proof.
move/(congr1 determinant); rewrite det_mulmx det_tr det1 -expr2 => /eqP.
by rewrite sqrf_eq1.
Qed.

Lemma projectToRotationGroup_rotation d (M : 'M[F]_d) :
  (matrixU (JacobiSVD E M))^T *m matrixU (JacobiSVD E M) = 1%:M ->
  (matrixV (JacobiSVD E M))^T *m matrixV (JacobiSVD E M) = 1%:M ->
  is_rotation (projectToRotationGroup E M).
Proof.
rewrite /projectToRotationGroup; set U := matrixU _; set V := matrixV _.
move=> hU hV.
have hdet : (\det U * \det V == 1) || (\det U * \det V == -1).
  case/orP: (det_orthogonal hU) => /eqP->; case/orP: (det_orthogonal hV) => /eqP->;
  by rewrite ?mulrNN ?mulr1 ?mul1r ?eqxx ?orbT.
case: ifP => hpos.
  split; first exact: (stiefel_of_factors hU hV).
  rewrite det_mulmx det_tr; case/orP: hdet => /eqP // e.
  by move: hpos; rewrite e oppr_gt0 ltr10.
have hneg : \det U * \det V = -1.
  by case/orP: hdet hpos => /eqP-> //; rewrite ltr01.
case: d M U V hU hV hdet hpos hneg => [|d] M U V hU hV _ _ hneg.
  by move: hneg; rewrite !det_mx00 mulr1 => /eqP; rewrite -subr_eq0 opprK -mulr2n pnatr_eq0.
rewrite negate_last_colE; split.
  apply: stiefel_of_factors => //.
  rewrite trmx_mul tr_diag_mx -mulmxA (mulmxA U^T) hU mul1mx.
  exact: last_sign_sq.
by rewrite !det_mulmx det_tr det_last_sign mulrN1 mulNr hneg opprK.
Qed.

End UtilitiesProofs.

(** ** The agent *)

Section AgentProofs.
Variable F : realFieldType.
Variable E : External F.
Variables r d : nat.

Local Notation PGOAgent := (PGOAgent E r d).

Lemma CHECK_Ok (b : bool) (msg : string) (u : unit) : CHECK b msg = Ok u -> b.
Proof. by case: b. Qed.

Lemma as_mx_mkMatrix (M : 'M[F]_(r, d)) : as_mx r d (mkMatrix M) = Some M.
Proof.
rewrite /as_mx /=; case: eqP => // e1; case: eqP => // e2.
by rewrite (eq_axiomK e1) (eq_axiomK e2) castmx_id.
Qed.

Lemma PGOAgentState_eqbP (s1 s2 : PGOAgentState) :
  reflect (s1 = s2) (PGOAgentState_eqb s1 s2).
Proof. by case: s1; case: s2; constructor. Qed.

(** C2: [reset] leaves the agent waiting for data in the next instance, at
    iteration 0, with empty neighbor dictionaries and team status and with
    the lifting matrix it had; it returns unless the trajectory it logs
    cannot be computed. *)
Theorem reset_spec (a : PGOAgent) :
  (forall a', reset a = Ok a' ->
     [/\ mState a' = WAIT_FOR_DATA,
         mInstanceNumber a' = (mInstanceNumber a + 1)%num,
         mIterationNumber a' = 0%num,
         [/\ neighborPoseDict a' = [::], neighborAuxPoseDict a' = [::]
           & mTeamStatus a' = [::]]
       & YLift a' = YLift a])
  /\ is_ok (reset a)
     = ~~ logData (mParams a)
       || is_ok (getTrajectoryInGlobalFrame (endOptimizationLoop a)).
Proof.
rewrite /reset.
have hp : mParams (endOptimizationLoop a) = mParams a.
  by rewrite /endOptimizationLoop; case: ifP.
have hy : YLift (endOptimizationLoop a) = YLift a.
  by rewrite /endOptimizationLoop; case: ifP.
have hi : mInstanceNumber (endOptimizationLoop a) = mInstanceNumber a.
  by rewrite /endOptimizationLoop; case: ifP.
rewrite hp; case: (logData _) => /=; last first.
  by split=> // a' [<-] /=; rewrite hy hi.
case: (getTrajectoryInGlobalFrame _) => [T|s|s] //=.
by split=> // a' [<-] /=; rewrite hy hi.
Qed.

(** C4: when the data matrices cannot be constructed, the non-accelerated
    [updateX] of an initialized agent returns [false] and leaves [X] as it
    was. *)
Theorem updateX_construction_failure (a : PGOAgent) :
  mState a = INITIALIZED ->
  (constructDataMatrices (setNeighborPoses (neighborPoseDict a) (mPoseGraph a))).1
    = false ->
  exists2 a', updateX true false a = Ok (false, a') & X a' = X a.
Proof.
move=> hs; rewrite /updateX /= hs /=.
case: (constructDataMatrices _) => ok g' /= ->.
by eexists.
Qed.


Lemma same_frame_trans (b a c : PGOAgent) :
  same_frame a b -> same_frame b c -> same_frame a c.
Proof. by move=> [h1 h2 h3 h4 h5] [k1 k2 k3 k4 k5]; split; congruence. Qed.

Lemma updateGamma_frame (a b : PGOAgent) :
  updateGamma a = Ok b -> same_frame a b /\ XPrev b = XPrev a.
Proof. by rewrite /updateGamma => H; bind_inv H; case: H => <-. Qed.

Lemma updateAlpha_frame (a b : PGOAgent) :
  updateAlpha a = Ok b -> same_frame a b /\ XPrev b = XPrev a.
Proof. by rewrite /updateAlpha => H; bind_inv H; case: H => <-. Qed.

Lemma updateY_frame (a b : PGOAgent) :
  updateY a = Ok b -> same_frame a b /\ XPrev b = XPrev a.
Proof.
rewrite /updateY => H; do 3![bind_inv H].
by case: H => <-.
Qed.

Lemma updateV_frame (a b : PGOAgent) :
  updateV a = Ok b -> same_frame a b /\ XPrev b = XPrev a.
Proof.
rewrite /updateV => H; do 4![bind_inv H].
by case: H => <-.
Qed.

Lemma updateX_frame o acc (a : PGOAgent) s (b : PGOAgent) :
  updateX o acc a = Ok (s, b) -> same_frame a b /\ XPrev b = XPrev a.
Proof.
rewrite /updateX; case: o => /=; last by case: acc => -[_ <-].
move=> H; do 2![bind_inv H].
case: (constructDataMatrices _) H => ok g' /=.
case: ok => /=; last by case=> _ <-.
by move=> H; do 2![bind_inv H]; case: H => _ <-.
Qed.

Lemma restartNesterovAcceleration_frame o (a b : PGOAgent) :
  restartNesterovAcceleration o a = Ok b -> same_frame a b.
Proof.
rewrite /restartNesterovAcceleration; case: ifP => _; last by case=> <-.
move=> H; bind_inv H; case: H => <-.
by case: x e => s a1 /updateX_frame [[]].
Qed.

Lemma iterate_reweight_frame (a b : PGOAgent) :
  iterate_reweight a = Ok b -> [/\ same_frame a b & XInit b = XInit a].
Proof.
rewrite /iterate_reweight => H; bind_inv H.
case: x e H => _; last by case=> <-.
move=> H; bind_inv H.
have [fx hx] : same_frame a x /\ XInit x = XInit a.
  move: e; rewrite /updateLoopClosuresWeights => H'; do 3![bind_inv H'].
  by case: H' => <-.
bind_inv H.
have [fx0 hx0] : same_frame a x0 /\ XInit x0 = XInit a.
  case: ifP e0 => _; last by case=> <-.
  by case: (XInit x) => // X0 [<-]; case: fx.
case: ifP H => _; last by case=> <-.
rewrite /initializeAcceleration => H; bind_inv H.
by case: ifP H => _ [<-]; case: fx0.
Qed.

Lemma shouldRestart_frame (a b : PGOAgent) :
  same_frame a b -> shouldRestart b = shouldRestart a.
Proof. by case=> _ hp _ hi _; rewrite /shouldRestart hp hi. Qed.


(** C6: in accelerated mode, an iteration of an initialized agent on which
    [shouldRestart] holds ends with [gamma = alpha = 0] and [V = Y = X],
    where [X] is what one non-accelerated [updateX] returns from the iterate
    [XPrev] saved at the start of the iteration. *)
Theorem iterate_restart (doOptimization : bool) (a a' : PGOAgent) :
  mState a = INITIALIZED ->
  shouldRestart (set_mIterationNumber (mIterationNumber a + 1)%num a) = Ok true ->
  iterate doOptimization a = Ok a' ->
  exists (b : PGOAgent) (success : bool) (b' : PGOAgent),
    [/\ exists2 a1,
          iterate_reweight (set_mIterationNumber (mIterationNumber a + 1)%num a)
          = Ok a1 & XPrev b = X a1,
        updateX doOptimization false (set_X (XPrev b) b) = Ok (success, b'),
        X a' = X b',
        V a' = X a' /\ Y a' = X a'
      & gamma a' = 0 /\ alpha a' = 0].
Proof.
move=> hs hr; rewrite /iterate => H; bind_inv H.
have [f1 _] := iterate_reweight_frame e.
have hs1 : mState x = INITIALIZED by case: f1 => _ _ -> _ _.
move: H; rewrite hs1 /= => H; bind_inv H.
case: x0 e0 H => success a7; rewrite /iterate_step.
have hacc : acceleration (mParams a).
  by move: hr; rewrite /shouldRestart /=; case: (acceleration _).
have -> : acceleration (mParams (set_XPrev (X x) x)) by case: f1 => _ /= -> _ _ _.
move=> H; bind_inv H; have [g1 p1] := updateGamma_frame e0.
bind_inv H; have [g2 p2] := updateAlpha_frame e1.
bind_inv H; have [g3 p3] := updateY_frame e2.
bind_inv H; case: x3 e3 H => s4 a4 e3 H; have [g4 p4] := updateX_frame e3.
bind_inv H; have [g5 p5] := updateV_frame e4.
have f5 : same_frame (set_mIterationNumber (mIterationNumber a + 1)%num a) x3.
  apply: same_frame_trans g5; apply: same_frame_trans g4.
  apply: same_frame_trans g3; apply: same_frame_trans g2.
  apply: same_frame_trans g1.
  by case: f1 => ? ? ? ? ?; split.
move: H; rewrite (shouldRestart_frame f5) hr /= => H; bind_inv H.
move: e5; rewrite /restartNesterovAcceleration.
have -> : acceleration (mParams x3) by case: f5 => _ -> _ _ _.
have -> : mState x3 = INITIALIZED by case: f5 => _ _ -> _ _.
move=> /= H'; bind_inv H'; case: x5 e5 H' => s6 a6 e5 [ex4].
case: H => _ ea7 H.
have ea' : [/\ X a' = X a6, V a' = X a6, Y a' = X a6, gamma a' = 0 & alpha a' = 0].
  by case: doOptimization H {e3 e5} => -[<-]; rewrite -ea7 -ex4.
case: ea' => h1 h2 h3 h4 h5.
exists x3, s6, a6; split=> //; last by rewrite h1.
by exists x => //; rewrite p5 p4 p3 p2 p1.
Qed.

(** Comparisons of doubles that are numbers. *)
Lemma dgtN (x y : double F) : x <> DNaN F -> y <> DNaN F -> ~~ dgt x y = dle x y.
Proof.
case: x => [|sx|x] //; case: y => [|sy|y] //= _ _; rewrite ?negbK //.
- by case: sx; case: sy.
- by rewrite -Order.TotalTheory.leNgt.
Qed.

Lemma dltN (x y : double F) : x <> DNaN F -> y <> DNaN F -> ~~ dlt x y = dge x y.
Proof.
case: x => [|sx|x] //; case: y => [|sy|y] //= _ _; rewrite ?negbK //.
- by case: sx; case: sy.
- by rewrite -Order.TotalTheory.leNgt.
Qed.

Lemma ddiv_NaN (x y : F) : ddiv x y = DNaN F <-> x = 0 /\ y = 0.
Proof.
rewrite /ddiv; case: (y =P 0) => [->|hy]; last by split=> // -[].
by case: (x =P 0) => [->|hx]; split=> // -[].
Qed.

(** The test of [iterate] on the flag [success]. *)
Lemma iterate_status_ready (success : bool) (a3 : PGOAgent) :
  let a' := iterate_status success a3 in
  [/\ X a' = X a3, XPrev a' = XPrev a3, convergence_ratio a' = convergence_ratio a3,
      relativeChange (mStatus a') = averageTranslationDistance E (X a3) (XPrev a3)
    & readyToTerminate (mStatus a')
      = [&& success,
            ~~ dgt (averageTranslationDistance E (X a3) (XPrev a3))
                   (relChangeTol (mParams a3))
          & ~~ dlt (convergence_ratio a3)
                   (robustOptMinConvergenceRatio (mParams a3))]].
Proof.
rewrite /iterate_status /=; split=> //.
by case: success; case: (dgt _ _); case: (dlt _ _).
Qed.

Lemma restartNesterovAcceleration_X o (a b : PGOAgent) :
  acceleration (mParams a) -> mState a = INITIALIZED ->
  restartNesterovAcceleration o a = Ok b ->
  exists s2 c2, updateX o false (set_X (XPrev a) a) = Ok (s2, c2) /\ X b = X c2.
Proof.
rewrite /restartNesterovAcceleration => -> -> /= H; bind_inv H.
by case: x e H => s2 c2 e [<-]; exists s2, c2.
Qed.

(** C3, as the code has it: after [iterate(true)] on an initialized agent,
    [readyToTerminate] holds exactly when [updateX] returned [true], the
    relative change is not greater than [relChangeTol] and the ratio of
    converged loop closures is not less than [robustOptMinConvergenceRatio].
    The flag is the one that the call [updateX(true, acceleration)] of
    [iterate] returned, on the agent [b] as the reweighting (and, in
    accelerated mode, [updateGamma], [updateAlpha] and [updateY]) left it; on a
    restart iteration [restartNesterovAcceleration] calls [updateX] once
    more, and the flag of that call is not used.  The relative change is
    that of the iterate at the end of the iteration with respect to the one
    saved at its start.  On numbers the two tests are [<=] and [>=]; the
    ratio is not a number when the graph has no loop closure, and the last
    test then passes. *)
Theorem iterate_readyToTerminate (a a' : PGOAgent) :
  mState a = INITIALIZED ->
  iterate true a = Ok a' ->
  exists (success : bool) (a1 b b' : PGOAgent),
    let accelerated := acceleration (mParams a) in
    let relChange := averageTranslationDistance E (X a') (XPrev a') in
    let ratio := convergence_ratio a' in
    let relChangeTol := relChangeTol (mParams a) in
    let minRatio := robustOptMinConvergenceRatio (mParams a) in
    [/\ [/\ iterate_reweight (set_mIterationNumber (mIterationNumber a + 1)%num a)
            = Ok a1,
            if accelerated
            then exists a2 a3,
                   [/\ updateGamma (set_XPrev (X a1) a1) = Ok a2,
                       updateAlpha a2 = Ok a3 & updateY a3 = Ok b]
            else b = set_XPrev (X a1) a1
          & updateX true accelerated b = Ok (success, b')],
        relativeChange (mStatus a') = relChange /\ XPrev a' = X a1,
        readyToTerminate (mStatus a')
        = [&& success, ~~ dgt relChange relChangeTol & ~~ dlt ratio minRatio],
        (relChange <> DNaN F -> relChangeTol <> DNaN F ->
         ratio <> DNaN F -> minRatio <> DNaN F ->
         readyToTerminate (mStatus a')
         = [&& success, dle relChange relChangeTol & dge ratio minRatio])
        /\ (ratio = DNaN F ->
            readyToTerminate (mStatus a')
            = success && ~~ dgt relChange relChangeTol)
      & if accelerated
        then forall c, updateV b' = Ok c ->
               (shouldRestart c = Ok false -> X a' = X b')
               /\ (shouldRestart c = Ok true ->
                   exists s2 c2,
                     updateX true false (set_X (XPrev c) c) = Ok (s2, c2)
                     /\ X a' = X c2)
        else X a' = X b'].
Proof.
move=> hs; rewrite /iterate => H; bind_inv H.
have [f1 _] := iterate_reweight_frame e.
have hs1 : mState x = INITIALIZED by case: f1 => _ _ -> _ _.
have hp1 : mParams x = mParams a by case: f1.
move: H; rewrite hs1 /= => H; bind_inv H.
case: x0 e0 H => success a3 e0 [<-].
have [hX hXP hratio hrel hready] := iterate_status_ready success a3.
have main :
    same_frame (set_XPrev (X x) x) a3 -> XPrev a3 = X x ->
    [/\ relativeChange (mStatus (iterate_status success a3))
        = averageTranslationDistance E (X (iterate_status success a3))
            (XPrev (iterate_status success a3))
        /\ XPrev (iterate_status success a3) = X x,
        readyToTerminate (mStatus (iterate_status success a3))
        = [&& success,
              ~~ dgt (averageTranslationDistance E (X (iterate_status success a3))
                        (XPrev (iterate_status success a3)))
                     (relChangeTol (mParams a))
            & ~~ dlt (convergence_ratio (iterate_status success a3))
                     (robustOptMinConvergenceRatio (mParams a))]
      & (averageTranslationDistance E (X (iterate_status success a3))
           (XPrev (iterate_status success a3)) <> DNaN F ->
         relChangeTol (mParams a) <> DNaN F ->
         convergence_ratio (iterate_status success a3) <> DNaN F ->
         robustOptMinConvergenceRatio (mParams a) <> DNaN F ->
         readyToTerminate (mStatus (iterate_status success a3))
         = [&& success,
               dle (averageTranslationDistance E (X (iterate_status success a3))
                      (XPrev (iterate_status success a3)))
                   (relChangeTol (mParams a))
             & dge (convergence_ratio (iterate_status success a3))
                   (robustOptMinConvergenceRatio (mParams a))])
        /\ (convergence_ratio (iterate_status success a3) = DNaN F ->
            readyToTerminate (mStatus (iterate_status success a3))
            = success
              && ~~ dgt (averageTranslationDistance E
                           (X (iterate_status success a3))
                           (XPrev (iterate_status success a3)))
                        (relChangeTol (mParams a)))].
  move=> [_ hp _ _ _] hxp.
  have hpa : mParams a3 = mParams a by rewrite hp.
  rewrite hX hXP hratio hrel hready hpa; split=> //.
  split; first by move=> n1 n2 n3 n4; rewrite dgtN // dltN.
  by move=> ->; rewrite andbT.
move: e0; rewrite /iterate_step /= hp1.
case hacc: (acceleration (mParams a)) => H.
- bind_inv H; have [g1 p1] := updateGamma_frame e0.
  bind_inv H; have [g2 p2] := updateAlpha_frame e1.
  bind_inv H; have [g3 p3] := updateY_frame e2.
  bind_inv H; case: x3 e3 H => s4 a4 e3 H; have [g4 p4] := updateX_frame e3.
  bind_inv H; have [g5 p5] := updateV_frame e4.
  bind_inv H; bind_inv H; case: H => es ea3.
  have f5 : same_frame (set_XPrev (X x) x) x3.
    exact: (same_frame_trans (same_frame_trans (same_frame_trans
             (same_frame_trans g1 g2) g3) g4) g5).
  have hxp5 : XPrev x3 = X x by rewrite p5 p4 p3 p2 p1.
  have hacc3 : acceleration (mParams x3).
    by case: f5 => _ -> _ _ _; rewrite /= hp1.
  have hs3 : mState x3 = INITIALIZED by case: f5 => _ _ -> _ _.
  have [g6 p6] : same_frame x3 x5 /\ XPrev x5 = XPrev x3.
    case: x4 e6 {e5} => [|[<-] //].
    move=> h6; split; first exact: restartNesterovAcceleration_frame h6.
    move: h6; rewrite /restartNesterovAcceleration hacc3 hs3 /= => H'.
    bind_inv H'; case: x4 e5 H' => s6 a6 /updateX_frame [_ p6] /= [<-] /=.
    by rewrite p6.
  have f3 : same_frame (set_XPrev (X x) x) a3.
    by rewrite -ea3; case: (same_frame_trans f5 g6) => ? ? ? ? ?; split.
  have hxp3 : XPrev a3 = X x by rewrite -ea3 /= p6.
  have [m1 m2 m3] := main f3 hxp3.
  exists success, x, x2, a4; split=> //.
  + by split=> //; [exists x0, x1|rewrite -es].
  + move=> c; rewrite e4 => -[<-]; rewrite e5; split=> -[ex4].
      move: e6; rewrite ex4 => -[ex5].
      rewrite -ea3 /= -ex5.
      by have [_ _ _ hv] : [/\ True, True, True & X x3 = X a4]
        by move: e4; rewrite /updateV => H'; do 4![bind_inv H']; case: H' => <-.
    move: e6; rewrite ex4 => /(restartNesterovAcceleration_X hacc3 hs3).
    by case=> s2 [c2 [h1 h2]]; exists s2, c2; split=> //; rewrite -ea3.
- bind_inv H; case: x0 e0 H => s4 a4 e0 [es ea3].
  have [g4 p4] := updateX_frame e0.
  have f3 : same_frame (set_XPrev (X x) x) a3.
    by rewrite -ea3; case: g4 => ? ? ? ? ?; split.
  have hxp3 : XPrev a3 = X x by rewrite -ea3 /= p4.
  have [m1 m2 m3] := main f3 hxp3.
  exists success, x, (set_XPrev (X x) x), a4; split=> //.
  + by split=> //; rewrite -es.
  + by rewrite -ea3.
Qed.

Lemma dict_find_set (k k' : PoseID) (v : LiftedPoseDyn F) (m : PoseDict F) :
  dict_find k (dict_set k' v m) = if k' == k then Some v else dict_find k m.
Proof.
elim: m => [|[k1 v1] m ih] /=; first by [].
case: (k1 =P k') => [->|ne] /=; first by case: ifP.
rewrite ih; case: (k1 =P k) => [e1|//]; case: (k' =P k) => // e2.
by case: ne; rewrite e1 e2.
Qed.

Lemma cache_neighbor_pose_spec aux nID st (a b : PGOAgent) it :
  cache_neighbor_pose aux nID st a it = Ok b ->
  [/\ mState b = mState a, mPoseGraph b = mPoseGraph a,
      mTeamStatus b = mTeamStatus a,
      cache_of (~~ aux) b = cache_of (~~ aux) a
    & cached_from nID [:: it] (mPoseGraph a) (mState a) (Some st)
        (cache_of aux a) (cache_of aux b)].
Proof.
rewrite /cache_neighbor_pose => H; do 3![bind_inv H].
move/CHECK_Ok/eqP: e => hk.
case: ifP H => [_ [<-]|/negbFE hn /=].
  split=> //; try by case: aux.
  by move=> k v hkv; left; case: aux hkv.
case: ifP => [/andP[/PGOAgentState_eqbP hs /PGOAgentState_eqbP ht]|_ [<-]]; last first.
  split=> //; try by case: aux.
  by move=> k v hkv; left; case: aux hkv.
have hin k v : (if it.1 == k then Some it.2 else dict_find k (cache_of aux a)) = Some v ->
    dict_find k (cache_of aux a) = Some v
    \/ [/\ robot_id k = nID, k \in neighborPublicPoseIDs (mPoseGraph a),
           List.In (k, v) [:: it], mState a = INITIALIZED
         & Some st = Some INITIALIZED].
  case: eqP => [<- [<-]|_]; last by left.
  by right; split=> //; [left; rewrite [LHS]surjective_pairing|rewrite ht].
by case: aux hin => hin [<-]; split=> // k v; rewrite /= dict_find_set; exact: hin.
Qed.

Lemma cached_from_trans nID it dict (g : PoseGraph E) mine theirs
  (d1 d2 d3 : PoseDict F) :
  cached_from nID [:: it] g mine theirs d1 d2 ->
  cached_from nID dict g mine theirs d2 d3 ->
  cached_from nID (it :: dict) g mine theirs d1 d3.
Proof.
move=> h12 h23 k v /h23 [/h12 [|[h1 h2 h3 h4 h5]]|[h1 h2 h3 h4 h5]]; first by left.
  by right; split=> //; case: h3 => // ->; left.
by right; split=> //; right.
Qed.

Lemma cache_neighbor_poses_spec aux nID st (a b : PGOAgent) dict :
  cache_neighbor_poses aux nID st a dict = Ok b ->
  [/\ mState b = mState a, mPoseGraph b = mPoseGraph a,
      mTeamStatus b = mTeamStatus a,
      cache_of (~~ aux) b = cache_of (~~ aux) a
    & cached_from nID dict (mPoseGraph a) (mState a) (Some st)
        (cache_of aux a) (cache_of aux b)].
Proof.
elim: dict a => [|it dict ih] a /=; first by case=> <-; split=> // k v; left.
move=> H; bind_inv H.
have [h1 h2 h3 h4 h5] := cache_neighbor_pose_spec e.
have [k1 k2 k3 k4 k5] := ih _ H.
split; rewrite ?k1 ?k2 ?k3 ?k4 //.
by apply: cached_from_trans h5 _; rewrite -h1 -h2.
Qed.

Lemma cache_neighbor_poses_total aux nID st (a : PGOAgent) (dict : PoseDict F) :
  (forall it, List.In it dict ->
     [/\ robot_id it.1 = nID, lp_r it.2 = r & lp_d it.2 = d]) ->
  is_ok (cache_neighbor_poses aux nID st a dict).
Proof.
elim: dict a => [|it dict ih] a h //=.
have [h1 h2 h3] := h it (or_introl erefl).
have ih' (b : PGOAgent) : is_ok (cache_neighbor_poses aux nID st b dict).
  exact: (ih b (fun it' hit' => h it' (or_intror hit'))).
rewrite /cache_neighbor_pose h1 h2 h3 !eqxx /=.
case: ifP => _ //=; case: ifP => _ //=.
by case: (aux) (ih') => /=.
Qed.

Lemma initializeInGlobalFrame_spec T (a b : PGOAgent) :
  initializeInGlobalFrame T a = Ok b ->
  [/\ mState b = INITIALIZED, mPoseGraph b = mPoseGraph a,
      mTeamStatus b = mTeamStatus a,
      neighborPoseDict b = [::] & neighborAuxPoseDict b = [::]].
Proof.
rewrite /initializeInGlobalFrame => H; bind_inv H.
set a1 := (if isOptimizationRunning a then _ else _) in H.
have ha1 : mPoseGraph a1 = mPoseGraph a /\ mTeamStatus a1 = mTeamStatus a.
  by rewrite /a1 /endOptimizationLoop; case: ifP => //= ->.
case: ha1 => hg ht.
do 3![bind_inv H]; bind_inv H.
have hx2 : [/\ mState x3 = INITIALIZED, mPoseGraph x3 = mPoseGraph a,
               mTeamStatus x3 = mTeamStatus a,
               neighborPoseDict x3 = [::] & neighborAuxPoseDict x3 = [::]].
  case: ifP e3 => _; last by case=> <-.
  rewrite /initializeAcceleration => H'; bind_inv H'.
  by move: H' => /= [<-].
case: ifP H => _; last by case=> <-.
rewrite /startOptimizationLoop => H; bind_inv H.
by case: ifP H hx2 => _ [<-].
Qed.

(** C9: an entry of [neighborPoseDict] (of [neighborAuxPoseDict]) after
    [updateNeighborPoses] (after [updateAuxNeighborPoses]) either was there
    before the call or was stored from [poseDict] under a pose ID of the
    named neighbor that is among the pose graph's [neighborPublicPoseIDs],
    with this agent and the neighbor both [INITIALIZED]; the other
    dictionary gains no entry; and the loop over [poseDict] does not abort on
    poses of the named neighbor with the agent's dimensions, whether it
    stores them or skips them. *)
Theorem neighbor_cache_invariant (neighborID : N) (poseDict : PoseDict F)
  (a : PGOAgent) :
  [/\ forall a', updateNeighborPoses neighborID poseDict a = Ok a' ->
        cached_from neighborID poseDict (mPoseGraph a) (mState a')
          (neighbor_state a neighborID)
          (neighborPoseDict a) (neighborPoseDict a')
        /\ cached_from neighborID [::] (mPoseGraph a) (mState a')
             (neighbor_state a neighborID)
             (neighborAuxPoseDict a) (neighborAuxPoseDict a'),
      forall a', updateAuxNeighborPoses neighborID poseDict a = Ok a' ->
        cached_from neighborID poseDict (mPoseGraph a) (mState a')
          (neighbor_state a neighborID)
          (neighborAuxPoseDict a) (neighborAuxPoseDict a')
        /\ neighborPoseDict a' = neighborPoseDict a
    & forall aux theirs (b : PGOAgent),
        (forall it, List.In it poseDict ->
           [/\ robot_id it.1 = neighborID, lp_r it.2 = r & lp_d it.2 = d]) ->
        is_ok (cache_neighbor_poses aux neighborID theirs b poseDict)].
Proof.
split; last by move=> aux theirs b; exact: cache_neighbor_poses_total.
- move=> a'; rewrite /updateNeighborPoses /neighbor_state => H; bind_inv H.
  case hst: (getNeighborStatus _ _) H => [status|]; last first.
    by case=> <-; split=> k v; left.
  move=> H; bind_inv H.
  have [h1 h2 h3 h4 h5] := cache_neighbor_poses_spec H.
  rewrite /= in h4 h5.
  have hx : [/\ mPoseGraph x0 = mPoseGraph a,
                forall k v, dict_find k (neighborPoseDict x0) = Some v ->
                            dict_find k (neighborPoseDict a) = Some v
              & forall k v, dict_find k (neighborAuxPoseDict x0) = Some v ->
                            dict_find k (neighborAuxPoseDict a) = Some v].
    case: ifP e0 => _; last by case=> <-.
    move=> H'; bind_inv H'; case: x1 e0 H' => [T|] _; last by case=> <-.
    by case/initializeInGlobalFrame_spec=> _ -> _ -> ->.
  case: hx => hg hd ha; move: h5; rewrite hg -h1 => h5; split=> k v.
    by case/h5; [move/hd; left|right].
  by rewrite h4 => /ha; left.
- move=> a'; rewrite /updateAuxNeighborPoses /neighbor_state => H.
  do 2![bind_inv H].
  case hst: (getNeighborStatus _ _) H => [status|]; last first.
    by case=> <-; split=> // k v; left.
  move=> H.
  have [h1 h2 h3 h4 h5] := cache_neighbor_poses_spec H.
  by split=> //; move: h5; rewrite h1.
Qed.


Lemma pose_at_0 q p (X : LiftedPoseArray F q p) x :
  pose_at X 0%num = Ok x -> exists X', X = x :: X'.
Proof. by case: X => [|x0 X'] //= [<-]; exists X'. Qed.

Lemma round_pose_rotation (t0 : 'cV[F]_d) (x : Pose F d) :
  svd_orthogonal E d -> is_rotation (rotation (round_pose E t0 x)).
Proof. by move=> h; have [hU hV] := h (rotation x); exact: projectToRotationGroup_rotation. Qed.

Lemma In_map_round (t0 : 'cV[F]_d) (T : PoseArray F d) y :
  List.In y [seq round_pose E t0 x | x <- T] ->
  exists x, y = round_pose E t0 x.
Proof. by elim: T => [|x T ih] //= [<-|/ih //]; exists x. Qed.

Lemma size_round_local (T : PoseArray F d) : size (round_local E T) = size T.
Proof. by case: T => //= x T; rewrite size_map. Qed.

Lemma setData_Ok n q p (M M' : LiftedPoseArray F q p) :
  setData n M = Ok M' -> M' = M /\ size M = n.
Proof. by rewrite /setData; case: eqP => //= <- [<-]. Qed.

(** X27: the rotation blocks of both trajectories are
    in SO(d) when the singular value decompositions have orthogonal factors;
    the first translation of the local-frame trajectory is zero; the
    translations of the global-frame trajectory are those of [X] relative to
    the global anchor, [Ya^T (p_i - pa)]; and both functions return a
    trajectory of [num_poses] poses for an initialized agent whose iterate has
    that many poses, at least one (and whose anchor is set). *)
Theorem trajectory_rounding (a : PGOAgent) :
  svd_orthogonal E d ->
  [/\ forall T, getTrajectoryInLocalFrame a = Ok (Some T) ->
        [/\ N.of_nat (size T) = num_poses a,
            forall x, List.In x T -> is_rotation (rotation x)
          & exists x T', T = x :: T' /\ translation x = 0],
      forall T, getTrajectoryInGlobalFrame a = Ok (Some T) ->
        exists2 Xa, globalAnchor a = Some Xa &
        [/\ N.of_nat (size T) = num_poses a,
            forall x, List.In x T -> is_rotation (rotation x)
          & [seq translation x | x <- T]
            = [seq (rotation Xa)^T *m (translation x - translation Xa) | x <- X a]],
      mState a = INITIALIZED -> X a <> [::] -> N.of_nat (size (X a)) = num_poses a ->
        exists T, getTrajectoryInLocalFrame a = Ok (Some T)
    & forall Xa, globalAnchor a = Some Xa ->
      mState a = INITIALIZED -> N.of_nat (size (X a)) = num_poses a ->
        exists T, getTrajectoryInGlobalFrame a = Ok (Some T)].
Proof.
move=> hsvd; split.
- move=> T; rewrite /getTrajectoryInLocalFrame; case: ifP => // _ H.
  bind_inv H; bind_inv H; case: H => <-.
  have [X' eX] := pose_at_0 e; have [-> hsz] := setData_Ok e0.
  split.
  + by rewrite size_round_local hsz N2Nat.id.
  + rewrite eX /= => y [<-|/In_map_round [x1 ->]]; exact: round_pose_rotation.
  + by rewrite eX /=; eexists; eexists; split; first by []; rewrite /= subrr.
- move=> T; rewrite /getTrajectoryInGlobalFrame.
  case: (globalAnchor a) => [Xa|] //; case: ifP => // _ H.
  bind_inv H; case: H => <-; have [-> hsz] := setData_Ok e.
  exists Xa => //; split.
  + by rewrite size_map hsz N2Nat.id.
  + by move=> y /In_map_round [x1 ->]; exact: round_pose_rotation.
  + rewrite -!map_comp; apply: eq_map => y /=.
    by rewrite mulmxBr.
- move=> hs hX hn; rewrite /getTrajectoryInLocalFrame hs /=.
  case: (X a) hX hn => [|x0 X'] // _ hn /=.
  by rewrite /setData /= size_map -hn Nat2N.id eqxx /=; eexists.
- move=> Xa hXa hs hn; rewrite /getTrajectoryInGlobalFrame hXa hs /=.
  by rewrite /setData /= size_map -hn Nat2N.id eqxx /=; eexists.
Qed.

End AgentProofs.

(** ** The statements on the small instance *)

Section Instance.
Import Example.

Local Notation read_g2o_file :=
  (read_g2o_file Rotation2D_toRotationMatrix Quaternion_toRotationMatrix
                 Matrix_inverse double_quotient).
Local Notation read_lines :=
  (read_lines Rotation2D_toRotationMatrix Quaternion_toRotationMatrix
              Matrix_inverse double_quotient).

Lemma lines_pose_ids : file_pose_ids lines = [:: 5; 6; 6; 7; 7; 8]%num.
Proof. by []. Qed.

Lemma lines_size_t : size_t_ids lines.
Proof.
move=> x; rewrite lines_pose_ids !inE.
by do 5![case/orP=> [/eqP->//|]]; move/eqP->.
Qed.

Lemma lines_range : is_range 5 4 (file_pose_ids lines).
Proof.
move=> x; rewrite lines_pose_ids !inE; split.
  by do 5![case/orP=> [/eqP->|]; first by lia]; move/eqP->; lia.
move=> hx.
have [->|[->|[->|->]]] : (x = 5 \/ x = 6 \/ x = 7 \/ x = 8)%num by lia.
- by [].
- by [].
- by [].
- by [].
Qed.

Lemma gap_lines_pose_ids : file_pose_ids gap_lines = [:: 5; 6; 6; 8]%num.
Proof. by []. Qed.

Lemma gap_lines_size_t : size_t_ids gap_lines.
Proof.
move=> x; rewrite gap_lines_pose_ids !inE.
by do 3![case/orP=> [/eqP->//|]]; move/eqP->.
Qed.

Lemma gap_lines_not_range :
  ~ (exists k n, is_range k n (file_pose_ids gap_lines)).
Proof.
rewrite gap_lines_pose_ids => -[k [n hr]].
have /hr h5 : (5%num : N) \in [:: 5; 6; 6; 8]%num by [].
have /hr h8 : (8%num : N) \in [:: 5; 6; 6; 8]%num by [].
have /hr : (k <= 7 /\ 7 < k + n)%num by lia.
by [].
Qed.

Lemma precise_edge_regular (i j : N) : regular_edge (precise_edge i j).
Proof.
apply: (@regular_information_scalar _ 1 0 _ 2 3) => //.
  by rewrite ulsubmx_information_SE2 /= comma_init_scalar2.
by rewrite drsubmx_information_SE2.
Qed.

Lemma edge_regular (i j : N) : regular_edge (edge i j).
Proof.
apply: (@regular_information_scalar _ 1 0 _ 1 1) => //.
  by rewrite ulsubmx_information_SE2 /= comma_init_scalar2.
by rewrite drsubmx_information_SE2.
Qed.

Lemma precise_edge3_regular (i j : N) : regular_edge (precise_edge3 i j).
Proof.
apply: (@regular_information_scalar _ 2 2 _ 4 2) => //.
  by rewrite ulsubmx_information_SE3 /= comma_init_scalar3.
by rewrite drsubmx_information_SE3 /= comma_init_scalar3.
Qed.

Lemma Example_inverse_spec : inverse_spec Matrix_inverse.
Proof. by []. Qed.

Lemma Example_quotient_spec : quotient_spec double_quotient.
Proof. by []. Qed.

Lemma read_g2o_file_precisions_witness :
  exists m1 m2 m3 m4 n,
    [/\ read_g2o_file default_measurement precise_lines
        = Ok ([:: m1; m2; m3; m4], n),
        kappa m1 = 3%:R /\ tau m1 = 2%:R,
        kappa m2 = 3%:R /\ tau m2 = 2%:R,
        kappa m3 = 1 /\ tau m3 = 1
      & kappa m4 = 1 /\ tau m4 = 4%:R].
Proof.
pose loaded :=
  if read_g2o_file default_measurement precise_lines is Ok x then x
  else ([::], 0%num).
pose m i := nth default_measurement loaded.1 i.
have e : read_g2o_file default_measurement precise_lines
         = Ok ([:: m 0%N; m 1%N; m 2%N; m 3%N], loaded.2).
  reflexivity.
have [hall _] :=
  read_g2o_file_precisions Example_inverse_spec Example_quotient_spec e.
have ep : parsed_edges precise_lines
          = [:: precise_edge 0 1; precise_edge 0 1; edge 1 2; precise_edge3 2 3].
  reflexivity.
move: hall; rewrite ep.
move=> /List.Forall2_cons_iff [/(_ (precise_edge_regular _ _)) [k1 t1]].
move=> /List.Forall2_cons_iff [/(_ (precise_edge_regular _ _)) [k2 t2]].
move=> /List.Forall2_cons_iff [/(_ (edge_regular _ _)) [k3 t3]].
move=> /List.Forall2_cons_iff [/(_ (precise_edge3_regular _ _)) [k4 t4] _].
exists (m 0%N), (m 1%N), (m 2%N), (m 3%N), loaded.2; split.
- exact: e.
- split; first by rewrite k1 precision_kappa_SE2.
  by rewrite t1 ulsubmx_information_SE2 /= comma_init_scalar2 scalar_precision.
- split; first by rewrite k2 precision_kappa_SE2.
  by rewrite t2 ulsubmx_information_SE2 /= comma_init_scalar2 scalar_precision.
- split; first by rewrite k3 precision_kappa_SE2.
  by rewrite t3 ulsubmx_information_SE2 /= comma_init_scalar2 scalar_precision.
- split; last first.
    by rewrite t4 ulsubmx_information_SE3 /= comma_init_scalar3 scalar_precision.
  rewrite k4 drsubmx_information_SE3 /= comma_init_scalar3.
  by rewrite mxtrace_invmx_scalar mulrA divff.
Defined.

Lemma read_g2o_file_reindex_witness :
  exists st,
    [/\ read_lines (initial_reader default_measurement) lines = Ok st,
        read_g2o_file default_measurement lines
        = Ok ([seq decrement_ids 5 m | m <- measurements st], 4%num)
      & exists msg, read_g2o_file default_measurement gap_lines = Fatal msg].
Proof.
pose final ls :=
  if read_lines (initial_reader default_measurement) ls is Ok st then st
  else initial_reader default_measurement.
have e : read_lines (initial_reader default_measurement) lines = Ok (final lines).
  reflexivity.
have eg : read_lines (initial_reader default_measurement) gap_lines
          = Ok (final gap_lines).
  reflexivity.
have [h _] := read_g2o_file_reindex lines_size_t e.
have [_ hg] := read_g2o_file_reindex gap_lines_size_t eg.
have [h1 _ _] := h 5%num 4%num (erefl _) (erefl _) lines_range.
exists (final lines); split=> //.
by apply: hg gap_lines_not_range.
Defined.


Lemma env_svd_spec (P : 'M[rat]_2) : P = 1%:M -> svd_spec P (JacobiSVD env P).
Proof.
move=> ->; split=> /=.
- by rewrite pid_mx_1 diag_const_mx trmx1 !mulmx1.
- by rewrite pid_mx_1 trmx1 mulmx1.
- by rewrite trmx1 mulmx1.
- by move=> i; rewrite mxE.
Qed.

Lemma env_svd_orthogonal : svd_orthogonal env 2.
Proof. by move=> M /=; rewrite pid_mx_1 trmx1 mulmx1. Qed.

Lemma projectToStiefelManifold_idempotent_witness :
  rbind (projectToStiefelManifold env (1%:M : 'M[rat]_2))
        (@projectToStiefelManifold rat env 2 2)
  = projectToStiefelManifold env (1%:M : 'M[rat]_2).
Proof.
apply: projectToStiefelManifold_idempotent => //; first exact: env_svd_spec.
move=> P [<-]; apply: env_svd_spec.
by rewrite /= pid_mx_1 trmx1 mulmx1.
Defined.

Lemma reset_spec_witness :
  exists a' : PGOAgent env 2 2,
    reset (agent false true) = Ok a'
    /\ [/\ mState a' = WAIT_FOR_DATA,
           mInstanceNumber a' = 4%num,
           mIterationNumber a' = 0%num,
           [/\ neighborPoseDict a' = [::], neighborAuxPoseDict a' = [::]
             & mTeamStatus a' = [::]]
         & YLift a' = Some 1%:M].
Proof.
pose a' := if reset (agent false true) is Ok b then b else agent false true.
have e : reset (agent false true) = Ok a' by reflexivity.
exists a'; split; first exact: e.
exact: ((reset_spec (agent false true)).1 a' e).
Defined.

Lemma updateX_construction_failure_witness :
  exists2 a' : PGOAgent env 2 2,
    updateX true false (agent false false) = Ok (false, a')
    & X a' = [:: pose11].
Proof.
by apply: (@updateX_construction_failure rat env 2 2 (agent false false)).
Defined.


Local Notation agent0 := (agent false true).

Lemma iterate_readyToTerminate_witness :
  [/\ exists a' : PGOAgent env 2 2,
        [/\ iterate true agent0 = Ok a', convergence_ratio a' = DNaN rat
          & readyToTerminate (mStatus a') = true],
      exists (a' : PGOAgent env 2 2) (ratio : rat),
        [/\ iterate true (agent2 1 0) = Ok a',
            convergence_ratio a' = DFin ratio, ratio = 1
          & readyToTerminate (mStatus a') = true],
      exists (a' : PGOAgent env 2 2) (ratio : rat),
        [/\ iterate true (agent2 1 2^-1) = Ok a',
            convergence_ratio a' = DFin ratio, ratio = 2^-1
          & readyToTerminate (mStatus a') = false]
    & exists a' : PGOAgent env 2 2,
        [/\ iterate true (agent true true) = Ok a',
            convergence_ratio a' = DNaN rat
          & readyToTerminate (mStatus a') = true]].
Proof.
have ready (a a' : PGOAgent env 2 2) acc :
    mState a = INITIALIZED -> mParams a = params acc ->
    sg_constructible (mPoseGraph a) ->
    iterate true a = Ok a' ->
    readyToTerminate (mStatus a') = ~~ dlt (convergence_ratio a') (DFin 1).
  move=> hs hp hc e.
  have [s [a1 [b [b' [[]]]]]] := iterate_readyToTerminate hs e.
  rewrite /iterate_reweight /shouldUpdateLoopClosureWeights /= hp /= => -[<-].
  move=> hb hx _ -> _ _.
  suff -> : s = true by [].
  have [hsb hpb hgb] : [/\ mState b = INITIALIZED, mParams b = params acc
                         & sg_constructible (mPoseGraph b)].
    case: acc hp hb {hx} => hp; last by move=> ->.
    case=> a2 [a3 [e1 e2 e3]].
    have [s1 p1 g1] : [/\ mState a2 = INITIALIZED, mParams a2 = params true
                        & mPoseGraph a2 = mPoseGraph a].
      by move: e1; rewrite /updateGamma => H; bind_inv H; case: H => <-.
    have [s2 p2 g2] : [/\ mState a3 = INITIALIZED, mParams a3 = params true
                        & mPoseGraph a3 = mPoseGraph a].
      by move: e2; rewrite /updateAlpha => H; bind_inv H; case: H => <-.
    move: e3; rewrite /updateY => H; do 3![bind_inv H]; case: H => <- /=.
    by rewrite g2.
  move: hx; rewrite /updateX /= hsb hpb /=.
  have -> : (if acc then CHECK acc "CHECK(mParams.acceleration)" else Ok tt)
            = Ok tt by case: (acc).
  rewrite /= /constructDataMatrices /=.
  have -> : sg_constructible
              (if acc then setNeighborPoses (neighborAuxPoseDict b) (mPoseGraph b)
               else setNeighborPoses (neighborPoseDict b) (mPoseGraph b))
    by case: (acc).
  by move=> /= H; bind_inv H; bind_inv H; case: H.
pose final (a : PGOAgent env 2 2) := if iterate true a is Ok b then b else a.
have efinal (a : PGOAgent env 2 2) :
    is_ok (iterate true a) -> iterate true a = Ok (final a).
  by rewrite /final; case: (iterate true a).
pose ratio (a : PGOAgent env 2 2) : rat :=
  if convergence_ratio (final a) is DFin q then q else 0.
have eratio (a : PGOAgent env 2 2) :
    (if convergence_ratio (final a) is DFin _ then true else false) ->
    convergence_ratio (final a) = DFin (ratio a).
  by rewrite /ratio; case: (convergence_ratio (final a)).
have enan (a : PGOAgent env 2 2) :
    (if convergence_ratio (final a) is DNaN then true else false) ->
    convergence_ratio (final a) = DNaN rat.
  by case: (convergence_ratio (final a)).
have e0 : iterate true agent0 = Ok (final agent0) by apply: efinal; vm_compute.
have e1 : iterate true (agent2 1 0) = Ok (final (agent2 1 0)).
  by apply: efinal; vm_compute.
have e2 : iterate true (agent2 1 2^-1) = Ok (final (agent2 1 2^-1)).
  by apply: efinal; vm_compute.
have e3 : iterate true (agent true true) = Ok (final (agent true true)).
  by apply: efinal; vm_compute.
have r0 : convergence_ratio (final agent0) = DNaN rat.
  by apply: enan; vm_compute.
have r1 : convergence_ratio (final (agent2 1 0)) = DFin (ratio (agent2 1 0)).
  by apply: eratio; vm_compute.
have r2 : convergence_ratio (final (agent2 1 2^-1))
          = DFin (ratio (agent2 1 2^-1)).
  by apply: eratio; vm_compute.
have r3 : convergence_ratio (final (agent true true)) = DNaN rat.
  by apply: enan; vm_compute.
have q1 : ratio (agent2 1 0) = 1 by apply/eqP; vm_compute.
have q2 : ratio (agent2 1 2^-1) = 2^-1 by apply/eqP; vm_compute.
split.
- exists (final agent0); split; [exact: e0|exact: r0|].
  by rewrite (ready agent0 _ false (erefl _) (erefl _) (erefl _) e0) r0.
- exists (final (agent2 1 0)), (ratio (agent2 1 0)).
  split; [exact: e1|exact: r1|exact: q1|].
  by rewrite (ready (agent2 1 0) _ false (erefl _) (erefl _) (erefl _) e1) r1 q1
             /= ?ltxx.
- exists (final (agent2 1 2^-1)), (ratio (agent2 1 2^-1)).
  split; [exact: e2|exact: r2|exact: q2|].
  by rewrite (ready (agent2 1 2^-1) _ false (erefl _) (erefl _) (erefl _) e2)
             r2 q2.
- exists (final (agent true true)); split; [exact: e3|exact: r3|].
  by rewrite (ready (agent true true) _ true (erefl _) (erefl _) (erefl _) e3) r3.
Defined.

(** On a graph without loop closures [updateX] returns [true] and the agent
    is ready to terminate, but the ratio of converged loop closures is 0/0,
    which is not at least [robustOptMinConvergenceRatio]: the test as the
    specification words it (C3) fails. *)
Lemma ready_without_loop_closures :
  exists b' a' : PGOAgent env 2 2,
    [/\ mState agent0 = INITIALIZED,
        updateX true false
          (set_XPrev [:: pose11] (set_mIterationNumber 8%num agent0))
        = Ok (true, b'),
        iterate true agent0 = Ok a',
        readyToTerminate (mStatus a') = true
      & ready_as_specified true a' = false].
Proof. by eexists; eexists; split; reflexivity. Qed.

Lemma iterate_restart_witness :
  exists (a' b b' : PGOAgent env 2 2) (success : bool),
    [/\ iterate true (agent true true) = Ok a',
        updateX true false (set_X (XPrev b) b) = Ok (success, b'),
        X a' = X b',
        V a' = X a' /\ Y a' = X a'
      & gamma a' = 0 /\ alpha a' = 0].
Proof.
have hok : is_ok (iterate true (agent true true)) by vm_compute.
have hr : shouldRestart (set_mIterationNumber
            (mIterationNumber (agent true true) + 1)%num (agent true true))
          = Ok true by vm_compute.
have hs : mState (agent true true) = INITIALIZED by [].
case e: (iterate true (agent true true)) hok => [a'|s|s] hok';
  [|discriminate hok'|discriminate hok'].
have [b [s [b' [_ h2 h3 h4 h5]]]] :=
  @iterate_restart rat env 2 2 true (agent true true) a' hs hr e.
exists a', b, b', s.
split; [reflexivity|exact: h2|exact: h3|exact: h4|exact: h5].
Defined.

Lemma trajectory_rounding_witness :
  (exists T x T',
     [/\ getTrajectoryInLocalFrame (agent2 1 0) = Ok (Some T),
         T = x :: T', N.of_nat (size T) = 2%num,
         forall y, List.In y T -> is_rotation (rotation y)
       & translation x = 0])
  /\ (exists T,
        [/\ getTrajectoryInGlobalFrame (agent2 1 0) = Ok (Some T),
            forall y, List.In y T -> is_rotation (rotation y)
          & [seq translation x | x <- T]
            = [:: (1%:M)^T *m (const_mx 1 - 0); (1%:M)^T *m (0 - 0)]]).
Proof.
have [h1 h2 h3 h4] := trajectory_rounding (agent2 1 0) env_svd_orthogonal.
split.
  have hne : X (agent2 1 0) <> [::] by [].
  have [T hT] := h3 (erefl _) hne (erefl _).
  have [hsz hr [x [T' [eT ht]]]] := h1 T hT.
  by exists T, x, T'; split.
have [T hT] := h4 origin (erefl _) (erefl _) (erefl _).
have [Xa [<-] [_ hr ht]] := h2 T hT.
by exists T; split.
Defined.

(** C5: the agent of the small instance is initialized, its single pose is
    at (1, 1) and its global anchor is the origin.  The first translation that
    [getTrajectoryInGlobalFrame] returns for it is (1, 1), not zero, where
    [getTrajectoryInLocalFrame] returns zero: the function subtracts the
    translation of the anchor, [Ya^T pa], although its comment says that the
    loop makes the first translation zero, as the loop of
    [getTrajectoryInLocalFrame] does. *)
Theorem getTrajectoryInGlobalFrame_first_translation :
  (exists T x T',
     [/\ mState agent0 = INITIALIZED /\ globalAnchor agent0 = Some origin,
         getTrajectoryInGlobalFrame agent0 = Ok (Some T), T = x :: T',
         translation x = const_mx 1 & translation x <> 0])
  /\ (exists T x T',
        [/\ getTrajectoryInLocalFrame agent0 = Ok (Some T), T = x :: T'
          & translation x = 0]).
Proof.
split.
  eexists; eexists; eexists; split; try reflexivity; first by split.
    by rewrite /= trmx1 !mul1mx subr0.
  rewrite /= trmx1 !mul1mx subr0 => /matrixP /(_ 0 0).
  by rewrite !mxE => /eqP; rewrite oner_eq0.
eexists; eexists; eexists; split; try reflexivity.
by rewrite /= subrr.
Qed.

Lemma neighbor_cache_invariant_witness :
  exists a' : PGOAgent env 2 2,
    [/\ updateNeighborPoses 1%num received agent0 = Ok a',
        dict_find (mkPoseID 1 0) (neighborPoseDict a') = Some (mkLiftedPoseDyn origin),
        dict_find (mkPoseID 1 4) (neighborPoseDict a') = None
      & cached_from 1%num received (mPoseGraph agent0) (mState a')
          (Some INITIALIZED) (neighborPoseDict agent0) (neighborPoseDict a')].
Proof.
pose a' := if updateNeighborPoses 1%num received agent0 is Ok b then b else agent0.
have e : updateNeighborPoses 1%num received agent0 = Ok a' by reflexivity.
have [h _ _] := neighbor_cache_invariant 1%num received agent0.
have [hc _] := h a' e.
by exists a'; split.
Defined.

End Instance.

(** ** More about the loader *)

Section LoaderBehaviour.
Variable F : realFieldType.
Variable Rotation2D_toRotationMatrix : F -> 'M[F]_2.
Variable Quaternion_toRotationMatrix : F -> F -> F -> F -> 'M[F]_3.
Variable Matrix_inverse : forall n, 'M[F]_n -> 'M[F]_n.
Variable double_quotient : F -> F -> F.

Local Notation read_line :=
  (read_line Rotation2D_toRotationMatrix Quaternion_toRotationMatrix
             Matrix_inverse double_quotient).
Local Notation read_lines :=
  (read_lines Rotation2D_toRotationMatrix Quaternion_toRotationMatrix
              Matrix_inverse double_quotient).
Local Notation read_g2o_file :=
  (read_g2o_file Rotation2D_toRotationMatrix Quaternion_toRotationMatrix
                 Matrix_inverse double_quotient).

Lemma read_lines_cat st (s1 s2 : seq (g2o_line F)) :
  read_lines st (s1 ++ s2) = rbind (read_lines st s1) (read_lines ^~ s2).
Proof.
elim: s1 st => [|l s1 ih] st //=.
by case: (read_line st l) => [st1|s|s] //=.
Qed.

(** X1: a file whose pose IDs are the [n] consecutive integers from 0 on is
    returned as it was read, no pose ID changed, and [num_poses] is [n]. *)
Theorem read_g2o_file_zero_based m0 lines st n :
  size_t_ids lines ->
  read_lines (initial_reader m0) lines = Ok st ->
  (0 < n)%num -> is_range 0 n (file_pose_ids lines) ->
  read_g2o_file m0 lines = Ok (measurements st, n).
Proof.
move=> hwf hst n0 hr.
have [hs hi hm _ he] := read_lines_ok (initial_reader_ok m0) hst.
have hr' : is_range 0 n (pose_ids st) by move=> x; rewrite hi; exact: hr.
have hb : (0 + n <= size_t_modulus)%num.
  have /hr/hwf : (0 <= 0 + n - 1 /\ 0 + n - 1 < 0 + n)%num by lia.
  by lia.
have h0 : (0 < size_t_modulus)%num by [].
rewrite /read_g2o_file hst /=.
case hids: (pose_ids st) hs hr' => [|first ids] hs hr'.
  by have /hr' : (0 <= 0 /\ 0 < 0 + n)%num by lia.
have fk := range_head hs hr'; rewrite {first}fk in hids hs hr' *.
have [-> hsz] := consecutive_of_range (prev := size_t_sub 0 1) hs hr' hb
                   (fun _ => size_t_sub_add1 h0).
by rewrite hsz eqxx.
Qed.

Lemma read_lines_Fatal st (lines : seq (g2o_line F)) tok :
  List.In (Unrecognized F tok) lines -> exists msg, read_lines st lines = Fatal msg.
Proof.
elim: lines st => [|l lines ih] st //= [->|hin] /=; first by eexists.
case e: (read_line st l) => [st1|s|s] /=.
- exact: ih.
- by eexists.
- move: e; rewrite /read_line.
  by case: (if l is Blank then _ else _) => [[e|e| | | |tok'|]|].
Qed.

(** X2: a line whose first token is none of those the loader knows aborts
    the loading, wherever the line stands in the file. *)
Theorem read_g2o_file_unrecognized m0 lines tok :
  List.In (Unrecognized F tok) lines ->
  exists msg, read_g2o_file m0 lines = Fatal msg.
Proof.
move=> /(read_lines_Fatal (initial_reader m0)) [msg e].
by exists msg; rewrite /read_g2o_file e.
Qed.

Lemma read_lines_no_edge st (lines : seq (g2o_line F)) :
  all (@no_edge F) lines ->
  (if last_line st is Some l then no_edge l && ~~ is_Blank l
   else if lines is l :: _ then ~~ is_Blank l else true) ->
  exists2 st', read_lines st lines = Ok st'
             & measurements st' = measurements st /\ pose_ids st' = pose_ids st.
Proof.
elim: lines st => [|l lines ih] st /=; first by exists st.
case/andP=> hl hall hlast.
have [st1 e1 [h1 h2 h3]] : exists2 st1, read_line st l = Ok st1
    & [/\ measurements st1 = measurements st, pose_ids st1 = pose_ids st
        & exists2 l', last_line st1 = Some l' & no_edge l' && ~~ is_Blank l'].
  rewrite /read_line.
  case: l hl hlast => [e|e| | | |tok|] //= _.
  - by move=> _; eexists; first by []; split=> //; eexists.
  - by move=> _; eexists; first by []; split=> //; eexists.
  - by move=> _; eexists; first by []; split=> //; eexists.
  - case: (last_line st) => [[e|e| | | |tok|]|] //= _;
      by eexists; first by []; split=> //; eexists.
rewrite e1 /=; case: h3 => l' hl' hne.
have [|st' -> [k1 k2]] := ih st1 hall; first by rewrite hl'.
by exists st'; rewrite // k1 k2.
Qed.

(** X3: on a file without any edge line, the empty file among them, the
    loader dereferences [pose_ids.begin()] of an empty set, which is
    undefined; when the first line of such a file is blank, the loader aborts
    before that, on the empty token. *)
Theorem read_g2o_file_no_edge m0 (lines : seq (g2o_line F)) :
  all (@no_edge F) lines ->
  if lines is Blank :: _
  then read_g2o_file m0 lines = Fatal "[read_g2o_file] Unrecognized type: !"
  else read_g2o_file m0 lines = Undefined "*pose_ids.begin() on an empty set".
Proof.
move=> hall.
have hne : ~~ (if lines is l :: _ then is_Blank l else false) ->
    read_g2o_file m0 lines = Undefined "*pose_ids.begin() on an empty set".
  move=> hb.
  have [|st e [_ h2]] := read_lines_no_edge (st := initial_reader m0) hall.
    by case: (lines) hb.
  by rewrite /read_g2o_file e /= h2.
by case: lines hall hne => [|[e|e| | | |tok|] lines] // _ h; apply: h.
Qed.

Lemma read_line_last st l st' :
  read_line st l = Ok st' -> ~~ is_Blank l -> read_line st' (Blank F) = read_line st' l.
Proof.
rewrite /read_line; case: l => [e|e| | | |tok|] //=; by case=> <-.
Qed.

(** X4: a blank line is read as a repetition of the line before it: the
    token and the fields keep what that line left in them, so that a blank
    line after an edge line adds the measurement of that edge once more. *)
Theorem read_g2o_file_blank_repeats m0 (s1 s2 : seq (g2o_line F)) l :
  ~~ is_Blank l ->
  read_g2o_file m0 (s1 ++ l :: Blank F :: s2) = read_g2o_file m0 (s1 ++ l :: l :: s2).
Proof.
move=> hl; rewrite /read_g2o_file !read_lines_cat.
case: (read_lines _ s1) => [st|s|s] //=.
case e: (read_line st l) => [st'|s|s] //=.
by rewrite (read_line_last e hl).
Qed.

End LoaderBehaviour.

Section LoaderOutput.
Variable F : realFieldType.
Variable Rotation2D_toRotationMatrix : F -> 'M[F]_2.
Variable Quaternion_toRotationMatrix : F -> F -> F -> F -> 'M[F]_3.
Variable Matrix_inverse : forall n, 'M[F]_n -> 'M[F]_n.
Variable double_quotient : F -> F -> F.

Local Notation read_line :=
  (read_line Rotation2D_toRotationMatrix Quaternion_toRotationMatrix
             Matrix_inverse double_quotient).
Local Notation read_lines :=
  (read_lines Rotation2D_toRotationMatrix Quaternion_toRotationMatrix
              Matrix_inverse double_quotient).
Local Notation read_g2o_file :=
  (read_g2o_file Rotation2D_toRotationMatrix Quaternion_toRotationMatrix
                 Matrix_inverse double_quotient).

Lemma mod_add_inj (M x j c : N) :
  (x < M)%num -> (j < M)%num -> ((x + c) mod M = (j + c) mod M)%num -> x = j.
Proof.
move=> hx hj.
have := N.Div0.div_mod (x + c) M; have := N.Div0.div_mod (j + c) M.
move: ((x + c) / M)%num ((j + c) / M)%num => q1 q2.
move: ((x + c) mod M)%num ((j + c) mod M)%num => r1 r2 h1 h2 e.
case: (N.lt_trichotomy q1 q2) => [lt|[eq|gt]].
- have := @N.mul_le_mono_l (q1 + 1)%num q2 M.
  by rewrite N.mul_add_distr_l N.mul_1_r; lia.
- by rewrite eq in h2; lia.
- have := @N.mul_le_mono_l (q2 + 1)%num q1 M.
  by rewrite N.mul_add_distr_l N.mul_1_r; lia.
Qed.

Lemma size_t_shift_eq (i j k : N) :
  (j < size_t_modulus)%num -> (k < size_t_modulus)%num ->
  (size_t_add (size_t_sub i k) 1 == size_t_sub j k) = (size_t_add i 1 == j).
Proof.
rewrite /size_t_add /size_t_sub.
have : (0 < size_t_modulus)%num by [].
move: size_t_modulus => M hM hj hk.
rewrite N.Div0.add_mod_idemp_l.
have -> : (i + M - k + 1 = (i + 1) + (M - k))%num by lia.
have -> : (j + M - k = j + (M - k))%num by lia.
rewrite -(N.Div0.add_mod_idemp_l (i + 1)).
apply/eqP/eqP => [|->//].
by apply: mod_add_inj => //; apply: N.mod_upper_bound; lia.
Qed.

Lemma fill_EDGE_SE2_loaded (m0 m : RelativeSEMeasurement F) (e : se2_fields F) :
  weight m = 1 -> isKnownInlier m = isKnownInlier m0 ->
  loaded_measurement m0
    (fill_EDGE_SE2 Rotation2D_toRotationMatrix Matrix_inverse double_quotient
                   m e).
Proof. by move=> hw hk; split=> //=; exists 2%N => //; left. Qed.

Lemma fill_EDGE_SE3_QUAT_loaded (m0 m : RelativeSEMeasurement F) (e : se3_fields F) :
  weight m = 1 -> isKnownInlier m = isKnownInlier m0 ->
  loaded_measurement m0
    (fill_EDGE_SE3_QUAT Quaternion_toRotationMatrix Matrix_inverse
                        double_quotient m e).
Proof. by move=> hw hk; split=> //=; exists 3%N => //; right. Qed.

Lemma read_line_loaded m0 st l st' :
  reader_loaded m0 st -> read_line st l = Ok st' -> reader_loaded m0 st'.
Proof.
case=> hw hk hm; rewrite /read_line.
case: (if l is Blank then _ else _) => [[e|e| | | |tok|]|] //; case=> <-;
  split=> //= m /In_rcons [->|/hm //].
- exact: fill_EDGE_SE2_loaded.
- exact: fill_EDGE_SE3_QUAT_loaded.
Qed.

Lemma read_lines_loaded m0 st lines st' :
  reader_loaded m0 st -> read_lines st lines = Ok st' -> reader_loaded m0 st'.
Proof.
elim: lines st => [|l lines ih] st hst /=; first by case=> <-.
case hl: (read_line st l) => [st1|s|s] //=.
by apply: ih; apply: read_line_loaded hl.
Qed.

Lemma reindex_loaded (m0 m : RelativeSEMeasurement F) k :
  (p2 m < size_t_modulus)%num -> (k < size_t_modulus)%num ->
  loaded_measurement m0 m -> loaded_measurement m0 (reindex k m).
Proof.
by move=> h2 hk [h1 hw hi hf hd]; split=> //=; rewrite size_t_shift_eq.
Qed.

(** X5: every measurement the loader returns has robot IDs 0 and weight 1,
    has [fixedWeight] set exactly when it leads from a pose to the next one,
    also after the reindexing, and carries a square [R] and a column [t] of
    dimension 2 or 3. *)
Theorem read_g2o_file_loaded m0 lines ms n m :
  size_t_ids lines ->
  read_g2o_file m0 lines = Ok (ms, n) -> List.In m ms ->
  loaded_measurement m0 m.
Proof.
move=> hwf; rewrite /read_g2o_file.
case hst: (read_lines _ _) => [st|s|s] //=.
have [hs hi hm _ _] := read_lines_ok (initial_reader_ok m0) hst.
have [|_ _ hl] := read_lines_loaded (m0 := m0) _ hst; first by split.
case hids: (pose_ids st) => [|first ids] //; case: ifP => // _ [<- _].
case: ifP => _; last exact: hl.
have hk : (first < size_t_modulus)%num.
  by apply: hwf; apply/hi; rewrite hids inE eqxx.
elim: (measurements st) hl hm => [|m1 ms1 ih] //= hl hm [<-|].
  apply: reindex_loaded => //; last by apply: hl; left.
  by have [_ /hi/hwf] := hm m1 (or_introl erefl).
by apply: ih => m' hm'; [apply: hl|apply: hm]; right.
Qed.

Lemma max_pose_count_foldl (ms : seq (RelativeSEMeasurement F)) (acc : N) :
  (forall m, List.In m ms ->
     (p1 m + 1 < size_t_modulus /\ p2 m + 1 < size_t_modulus)%num) ->
  let n := foldl (@max_pose_count F) acc ms in
  [/\ (acc <= n)%num,
      forall m, List.In m ms -> (p1 m < n /\ p2 m < n)%num
    & n = acc \/ exists2 m, List.In m ms & (p1 m + 1 = n \/ p2 m + 1 = n)%num].
Proof.
elim: ms acc => [|m ms ih] acc hb /=; first by split=> //; [lia|left].
have [b1 b2] := hb m (or_introl erefl).
have [h1 h2 h3] := ih (max_pose_count acc m) (fun m' hm' => hb m' (or_intror hm')).
have hacc : (acc <= max_pose_count acc m /\ p1 m < max_pose_count acc m
             /\ p2 m < max_pose_count acc m)%num.
  by rewrite /max_pose_count !size_t_add1_small //; lia.
have hcase : max_pose_count acc m = acc
             \/ (p1 m + 1 = max_pose_count acc m \/ p2 m + 1 = max_pose_count acc m)%num.
  by rewrite /max_pose_count !size_t_add1_small //; lia.
split.
- by lia.
- by move=> m' [<-|/h2 //]; lia.
- case: h3 => [->|[m' hm' hn]]; last by right; exists m' => //; right.
  by case: hcase => [->|hc]; [left|right; exists m => //; left].
Qed.

(** X6: [get_dimension_and_num_poses] returns 2 or 3 as dimension and, as
    number of poses, one more than the largest endpoint: every endpoint is
    below it and one of them is next to it, when no endpoint is the largest
    [size_t]. *)
Theorem get_dimension_and_num_poses_bound (ms : seq (RelativeSEMeasurement F))
  (dim n : N) :
  (forall m, List.In m ms ->
     (p1 m + 1 < size_t_modulus /\ p2 m + 1 < size_t_modulus)%num) ->
  get_dimension_and_num_poses ms = Ok (dim, n) ->
  [/\ dim = 2%num \/ dim = 3%num,
      forall m, List.In m ms -> (p1 m < n /\ p2 m < n)%num
    & exists2 m, List.In m ms & (p1 m + 1 = n \/ p2 m + 1 = n)%num].
Proof.
move=> hb; rewrite /get_dimension_and_num_poses.
case: ms hb => [|m0 ms] //= hb.
rewrite /CHECK; case: ifP => //= hd [ed en].
have [h1 h2 h3] := @max_pose_count_foldl (m0 :: ms) 0%num hb.
rewrite /= en in h1 h2 h3.
split=> //; first by rewrite -ed; case/orP: hd => /eqP->; [left|right].
case: h3 => // n0.
by have := h2 m0 (or_introl erefl); lia.
Qed.

Lemma decrement_ids_reindex (k : N) (ms : seq (RelativeSEMeasurement F)) :
  (forall m, List.In m ms ->
     [/\ (k <= p1 m)%num, (k <= p2 m)%num, (p1 m < size_t_modulus)%num
       & (p2 m < size_t_modulus)%num]) ->
  forall m', List.In m' (if k != 0%num then [seq reindex k m | m <- ms] else ms) ->
  exists2 m, List.In m ms
           & [/\ p1 m' = (p1 m - k)%num, p2 m' = (p2 m - k)%num & t m' = t m].
Proof.
move=> hb m'; case: eqP => [->|_] /=.
  by move=> hm'; exists m' => //; split=> //; lia.
rewrite map_reindex //.
elim: ms {hb} => [|m ms ih] //= [<-|/ih [m1 h1 h2]]; first by exists m; [left|].
by exists m1; [right|].
Qed.

(** X7: on the measurements that [read_g2o_file] returns,
    [get_dimension_and_num_poses] passes its checks and computes the number
    of poses that [read_g2o_file] stored in [num_poses]. *)
Theorem read_g2o_file_num_poses m0 lines ms n :
  size_t_ids lines -> (n < size_t_modulus)%num ->
  read_g2o_file m0 lines = Ok (ms, n) ->
  exists2 dim, get_dimension_and_num_poses ms = Ok (dim, n)
             & dim = 2%num \/ dim = 3%num.
Proof.
move=> hwf hn; rewrite /read_g2o_file.
case hst: (read_lines _ _) => [st|s|s] //=.
have [hs hi hm _ he] := read_lines_ok (initial_reader_ok m0) hst.
have [|_ _ hl] := read_lines_loaded (m0 := m0) _ hst; first by split.
case hids: (pose_ids st) => [|first ids] //; case: ifP => // hc [ems en].
have hM y : y \in first :: ids -> (y < size_t_modulus)%num.
  by rewrite -hids => /hi/hwf.
have hfirst : (first < size_t_modulus)%num by apply: hM; rewrite inE eqxx.
have en' : n = (N.of_nat (size ids) + 1)%num.
  by rewrite -en -[LHS]/(N.of_nat (size ids).+1) Nat2N.inj_succ; lia.
have hr : is_range first n (pose_ids st).
  rewrite hids en'; apply: range_of_consecutive.
  - by move: hs; rewrite hids.
  - by move=> y hy; apply: hM; rewrite inE hy orbT.
  - by move: hc; rewrite /= size_t_sub_add1 ?eqxx.
have n0 : (0 < n)%num by lia.
have hbounds m : List.In m (measurements st) ->
    [/\ (first <= p1 m)%num, (first <= p2 m)%num, (p1 m < size_t_modulus)%num
      & (p2 m < size_t_modulus)%num].
  move=> /hm [h1 h2]; have /hi/hwf ? := h1; have /hi/hwf ? := h2.
  by have /hr [? ?] := h1; have /hr [? ?] := h2.
have hms := decrement_ids_reindex hbounds; rewrite ems in hms.
have hlt m' : List.In m' ms -> (p1 m' < n /\ p2 m' < n)%num.
  move=> /hms [m /hm [h1 h2] [-> -> _]].
  by have /hr [? ?] := h1; have /hr [? ?] := h2; lia.
have htop : exists2 m', List.In m' ms & (p1 m' + 1 = n \/ p2 m' + 1 = n)%num.
  have /hr/he [m hin hk] : (first <= first + n - 1 /\ first + n - 1 < first + n)%num.
    by lia.
  have [m' hm' hp] : exists2 m', List.In m' ms
      & p1 m' = (p1 m - first)%num /\ p2 m' = (p2 m - first)%num.
    rewrite -ems; case: eqP => [->|_] /=.
      by exists m => //; split; lia.
    rewrite map_reindex //; exists (decrement_ids first m) => //.
    by elim: (measurements st) hin => [|m1 ms1 ih] //= [->|/ih]; [left|right].
  by exists m' => //; case: hp => -> ->; case: hk => <-; [left|right]; lia.
have hdim : exists2 m1, ms = m1 :: behead ms
    & Matrix_size (t m1) = 2%num \/ Matrix_size (t m1) = 3%num.
  case: htop => m' hm' _; case: (ms) hm' hms => [|m1 ms1] // _ hms.
  exists m1 => //; have [m /hl [_ _ _ _ [dim hd [_ _ er ec]]] [_ _ et]] :=
    hms m1 (or_introl erefl).
  by rewrite /Matrix_size et er ec muln1; case: hd => ->; [left|right].
case: hdim => m1 ems1 hd.
have hb m : List.In m ms ->
    (p1 m + 1 < size_t_modulus /\ p2 m + 1 < size_t_modulus)%num.
  by move=> /hlt; lia.
have [h1 h2 h3] := @max_pose_count_foldl ms 0%num hb.
have efold : foldl (@max_pose_count F) 0%num ms = n.
  case: h3 => [e0|[m hin hp]].
    by case: htop => m' /h2; rewrite e0; lia.
  case: htop => m' /h2 hm' hp'.
  by have := hlt m hin; lia.
exists (Matrix_size (t m1)) => //.
rewrite /get_dimension_and_num_poses -efold ems1 /=.
by case: hd => ->.
Qed.

End LoaderOutput.

(** ** More about the projections and the measurement error *)

Section UtilitiesBehaviour.
Variable F : realFieldType.
Variable E : External F.

(** X8: [projectToRotationGroup] is a retraction onto SO(d): its value is a
    rotation when the factors of the decomposition are orthogonal, whatever the
    sign of their determinants, and a rotation is its own projection when
    [JacobiSVD] returns a singular value decomposition of it. *)
Theorem projectToRotationGroup_retraction d (M : 'M[F]_d) :
  ((matrixU (JacobiSVD E M))^T *m matrixU (JacobiSVD E M) = 1%:M ->
   (matrixV (JacobiSVD E M))^T *m matrixV (JacobiSVD E M) = 1%:M ->
   is_rotation (projectToRotationGroup E M))
  /\ (is_rotation M -> svd_spec M (JacobiSVD E M) ->
      projectToRotationGroup E M = M).
Proof.
split; first exact: projectToRotationGroup_rotation.
move=> [hM hdet] hsvd.
have hS := stiefel_singular_values hM hsvd.
case: hsvd => eM hU hV _.
have eUV : M = matrixU (JacobiSVD E M) *m (matrixV (JacobiSVD E M))^T.
  by rewrite {1}eM hS mulmx1.
rewrite /projectToRotationGroup.
have -> : \det (matrixU (JacobiSVD E M)) * \det (matrixV (JacobiSVD E M)) = 1.
  by rewrite -(det_tr (matrixV _)) -det_mulmx -eUV.
by rewrite ltr01 -eUV.
Qed.

Lemma stiefel_leq r d (M : 'M[F]_(r, d)) : is_stiefel M -> (d <= r)%N.
Proof.
move=> hM; have := mxrankM_maxr M^T M.
rewrite hM mxrank1 => /leq_trans; apply.
exact: rank_leq_row.
Qed.

(** X9: [projectToStiefelManifold] aborts on a matrix with fewer rows than
    columns; otherwise its value has orthonormal columns when the factors of the
    decomposition have, and a matrix with orthonormal columns is its own
    projection. *)
Theorem projectToStiefelManifold_retraction r d (M : 'M[F]_(r, d)) :
  [/\ (r < d)%N -> exists msg, projectToStiefelManifold E M = Fatal msg,
      (d <= r)%N ->
      (matrixU (JacobiSVD E M))^T *m matrixU (JacobiSVD E M) = 1%:M ->
      (matrixV (JacobiSVD E M))^T *m matrixV (JacobiSVD E M) = 1%:M ->
      exists2 P, projectToStiefelManifold E M = Ok P & is_stiefel P
    & is_stiefel M -> svd_spec M (JacobiSVD E M) ->
      projectToStiefelManifold E M = Ok M].
Proof.
rewrite /projectToStiefelManifold; split.
- by rewrite ltnNge => /negbTE -> /=; eexists.
- by move=> -> hU hV /=; eexists; first by []; exact: stiefel_of_factors.
- move=> hM hsvd; rewrite (stiefel_leq hM) /=.
  have hS := stiefel_singular_values hM hsvd.
  by case: hsvd => eM _ _ _; rewrite [in RHS]eM hS mulmx1.
Qed.

Lemma squaredNorm_tr m n (A : 'M[F]_(m, n)) : squaredNorm A = \tr (A^T *m A).
Proof.
rewrite /squaredNorm /mxtrace exchange_big /=; apply: eq_bigr => j _.
by rewrite mxE; apply: eq_bigr => i _; rewrite mxE expr2.
Qed.

Lemma squaredNorm_ge0 m n (A : 'M[F]_(m, n)) : 0 <= squaredNorm A.
Proof.
by rewrite /squaredNorm; apply: sumr_ge0 => i _; apply: sumr_ge0 => j _; rewrite sqr_ge0.
Qed.

Lemma squaredNorm_eq0 m n (A : 'M[F]_(m, n)) : (squaredNorm A == 0) = (A == 0).
Proof.
apply/eqP/eqP => [h|->]; last first.
  rewrite /squaredNorm big1 // => i _; rewrite big1 // => j _.
  by rewrite mxE expr0n.
apply/matrixP => i j; rewrite mxE.
have h1 : \sum_j A i j ^+ 2 = 0.
  by apply: (psumr_eq0P _ h) => // i' _; apply: sumr_ge0 => j' _; exact: sqr_ge0.
have h2 : A i j ^+ 2 = 0 by apply: (psumr_eq0P _ h1) => // j' _; exact: sqr_ge0.
by apply/eqP; rewrite -(sqrf_eq0 (A i j)) h2.
Qed.

Lemma squaredNorm_isometry q m n (Q : 'M[F]_(q, m)) (A : 'M[F]_(m, n)) :
  Q^T *m Q = 1%:M -> squaredNorm (Q *m A) = squaredNorm A.
Proof.
by move=> hQ; rewrite !squaredNorm_tr trmx_mul mulmxA -(mulmxA A^T) hQ mulmx1.
Qed.

(** X10: with positive precisions the measurement error is not negative,
    and it is zero exactly when the two poses agree with the measurement:
    [R2 = R1 R] and [t2 = t1 + R1 t]. *)
Theorem computeMeasurementError_zero r d (m : RelativeSEMeasurement F)
  (mR : 'M[F]_d) (mt : 'cV[F]_d) (R1 R2 : 'M[F]_(r, d)) (t1 t2 : 'cV[F]_r) :
  as_mx d d (R m) = Some mR -> as_mx d 1 (t m) = Some mt ->
  0 < kappa m -> 0 < tau m ->
  exists2 e, computeMeasurementError m R1 t1 R2 t2 = Ok e
           & 0 <= e /\ (e = 0 <-> R2 = R1 *m mR /\ t2 = t1 + R1 *m mt).
Proof.
move=> hR ht hk hu; rewrite /computeMeasurementError hR ht.
eexists; first by []; split.
  by rewrite addr_ge0 // mulr_ge0 ?squaredNorm_ge0 // ltW.
split=> [/eqP|[-> ->]]; last first.
  have -> : R1 *m mR - R1 *m mR = 0 by rewrite subrr.
  have -> : t1 + R1 *m mt - t1 - R1 *m mt = 0 by rewrite [t1 + _]addrC addrK subrr.
  have e0 p q : squaredNorm (0 : 'M[F]_(p, q)) = 0.
    by apply/eqP; rewrite squaredNorm_eq0.
  by rewrite !e0 !mulr0 addr0.
rewrite paddr_eq0 ?mulr_ge0 ?squaredNorm_ge0 ?ltW //.
rewrite !mulf_eq0 !squaredNorm_eq0 !gt_eqF //= !subr_eq0.
case/andP=> /eqP h1 /eqP h2; split=> //.
by rewrite -h2 addrC subrK.
Qed.

(** X11: the measurement error does not change when both poses are
    multiplied on the left by a matrix with orthonormal columns, such as the
    lifting matrix. *)
Theorem computeMeasurementError_invariant q r d (m : RelativeSEMeasurement F)
  (Q : 'M[F]_(q, r)) (R1 R2 : 'M[F]_(r, d)) (t1 t2 : 'cV[F]_r) :
  Q^T *m Q = 1%:M ->
  computeMeasurementError m (Q *m R1) (Q *m t1) (Q *m R2) (Q *m t2)
  = computeMeasurementError m R1 t1 R2 t2.
Proof.
move=> hQ; rewrite /computeMeasurementError.
case: (as_mx d d _) => [mR|] //; case: (as_mx d 1 _) => [mt|] //.
rewrite -mulmxA -!mulmxBr -mulmxA -mulmxBr.
by rewrite !(squaredNorm_isometry _ hQ).
Qed.

End UtilitiesBehaviour.

(** ** More about the agent *)

Section AgentBehaviour.
Variable F : realFieldType.
Variable E : External F.
Variables r d : nat.

Local Notation PGOAgent := (PGOAgent E r d).

(** *** Termination *)

Lemma mem_robot_ids (n id : N) : (id \in robot_ids n) = (id <? n)%num.
Proof.
apply/mapP/idP => [[i]|h].
  by rewrite mem_iota add0n => /andP[_ /ltP hi] ->; apply/N.ltb_lt; lia.
exists (N.to_nat id); last by rewrite N2Nat.id.
by rewrite mem_iota add0n; apply/ltP; move/N.ltb_lt: h; lia.
Qed.

Lemma team_ready_all (team : seq (N * PGOAgentStatus F)) (ids : seq N) :
  (forall id st, getNeighborStatus team id = Some st -> agentID st = id) ->
  team_ready team ids
  = Ok (all (fun id => if getNeighborStatus team id is Some st
                       then PGOAgentState_eqb (state st) INITIALIZED
                            && readyToTerminate st
                       else false) ids).
Proof.
move=> hid; elim: ids => [|id ids ih] //=.
case hst: (getNeighborStatus team id) => [st|] //=.
rewrite (hid _ _ hst) eqxx /=.
by case: (PGOAgentState_eqb _ _) => //=; case: (readyToTerminate st).
Qed.

(** X12: when every status of the team is filed under the ID it carries,
    [shouldTerminate] returns, and it returns [true] exactly when the iteration
    number exceeds [maxNumIters] or every robot with an ID below [numRobots],
    this one included, has a status in the team that is [INITIALIZED] and ready
    to terminate. *)
Theorem shouldTerminate_spec (a : PGOAgent) :
  (forall id st, getNeighborStatus (mTeamStatus a) id = Some st -> agentID st = id) ->
  exists2 b, shouldTerminate a = Ok b
    & b <-> (maxNumIters (mParams a) < iteration_number a)%num
            \/ forall id, (id < numRobots (mParams a))%num ->
                 exists st, [/\ getNeighborStatus (mTeamStatus a) id = Some st,
                                state st = INITIALIZED & readyToTerminate st].
Proof.
move=> hid; rewrite /shouldTerminate; case: N.ltb_spec => hlt.
  by exists true => //; split=> // _; left.
rewrite (team_ready_all _ hid); eexists; first by [].
split=> [/allP h|[hgt|h]].
- right=> id /N.ltb_lt; rewrite -mem_robot_ids => /h.
  case: (getNeighborStatus _ _) => [st|] // /andP[/PGOAgentState_eqbP h1 h2].
  by exists st.
- by move: hgt hlt; rewrite /iteration_number; lia.
- apply/allP => id; rewrite mem_robot_ids => /N.ltb_lt /h [st [-> -> ->]].
  by [].
Qed.

(** *** What an iteration keeps *)

Lemma iterate_step_frame o (a : PGOAgent) s (b : PGOAgent) :
  iterate_step o a = Ok (s, b) -> same_frame a b.
Proof.
rewrite /iterate_step; case: ifP => _ H.
  bind_inv H; have [g1 _] := updateGamma_frame e.
  bind_inv H; have [g2 _] := updateAlpha_frame e0.
  bind_inv H; have [g3 _] := updateY_frame e1.
  bind_inv H; case: x2 e2 H => s4 a4 e2 H; have [g4 _] := updateX_frame e2.
  bind_inv H; have [g5 _] := updateV_frame e3.
  bind_inv H; bind_inv H; case: H => _ <-.
  have g6 : same_frame x2 x4.
    by case: x3 e5 {e4} => [/restartNesterovAcceleration_frame|[<-]].
  have := same_frame_trans (same_frame_trans (same_frame_trans
            (same_frame_trans (same_frame_trans g1 g2) g3) g4) g5) g6.
  by case=> ? ? ? ? ?; split.
bind_inv H; case: x e H => s4 a4 /updateX_frame [g4 _] [_ <-].
by case: g4 => ? ? ? ? ?; case: (o); split.
Qed.

(** X13: an iteration that returns has added one to the iteration number
    and has left the state, the instance number, the ID and the parameters of
    the agent as they were. *)
Theorem iterate_frame (doOptimization : bool) (a a' : PGOAgent) :
  iterate doOptimization a = Ok a' ->
  [/\ mIterationNumber a' = (mIterationNumber a + 1)%num,
      mState a' = mState a,
      mInstanceNumber a' = mInstanceNumber a,
      mID a' = mID a
    & mParams a' = mParams a].
Proof.
rewrite /iterate => H; bind_inv H.
have [[h1 h2 h3 h4 h5] _] := iterate_reweight_frame e.
rewrite /= in h1 h2 h3 h4 h5.
case: ifP H => _; last by case=> <-.
move=> H; bind_inv H; case: x0 e0 H => s b /iterate_step_frame [k1 k2 k3 k4 k5].
rewrite /= in k1 k2 k3 k4 k5.
by case: (doOptimization) => -[<-]; split; rewrite /= ?k1 ?k2 ?k3 ?k4 ?k5.
Qed.

(** X14: on an agent that is not initialized, [iterate] changes the
    iteration number only, as long as no update of the weights is due (never
    with the quadratic cost); with a robust cost, the iteration on which the
    update is due aborts on the check of [updateLoopClosuresWeights]. *)
Theorem iterate_not_initialized (doOptimization : bool) (a : PGOAgent) :
  mState a <> INITIALIZED ->
  let a1 := set_mIterationNumber (mIterationNumber a + 1)%num a in
  let inner := robustOptInnerIters (mParams a) in
  [/\ costType (robustCostParams (mParams a)) = L2 -> iterate doOptimization a = Ok a1,
      costType (robustCostParams (mParams a)) <> L2 -> inner <> 0%num ->
      ((mIterationNumber a + 2) mod inner)%num <> 0%num ->
      iterate doOptimization a = Ok a1
    & costType (robustCostParams (mParams a)) <> L2 -> inner <> 0%num ->
      ((mIterationNumber a + 2) mod inner)%num = 0%num ->
      exists msg, iterate doOptimization a = Fatal msg].
Proof.
move=> hs a1 inner.
have hs1 : PGOAgentState_eqb (mState a) INITIALIZED = false.
  by apply/PGOAgentState_eqbP.
have e2 : (mIterationNumber a + 1 + 1 = mIterationNumber a + 2)%num by lia.
have hdue : costType (robustCostParams (mParams a)) <> L2 -> inner <> 0%num ->
    shouldUpdateLoopClosureWeights a1
    = Ok (((mIterationNumber a + 2) mod inner)%num == 0%num).
  move=> hc hi; rewrite /shouldUpdateLoopClosureWeights /= e2 /unsigned_mod -/inner.
  by case: (costType _) hc => //= _; case: eqP.
rewrite /iterate -/a1 /iterate_reweight; split.
- by move=> hc; rewrite /shouldUpdateLoopClosureWeights /= hc /= hs1.
- by move=> hc hi /eqP/negbTE hm; rewrite hdue // hm /= hs1.
- move=> hc hi /eqP hm; rewrite hdue // hm /=.
  by rewrite /updateLoopClosuresWeights /= hs1 /=; eexists.
Qed.

End AgentBehaviour.

Section AgentAlignment.
Variable F : realFieldType.
Variable E : External F.
Variables r d : nat.

Local Notation PGOAgent := (PGOAgent E r d).

(** *** Rigid transforms *)

Lemma Pose_mulA (A B C : Pose F d) :
  Pose_mul (Pose_mul A B) C = Pose_mul A (Pose_mul B C).
Proof.
by rewrite /Pose_mul /= mulmxA mulmxDr mulmxA addrA.
Qed.

Lemma Pose_mulVT (T : Pose F d) :
  (rotation T)^T *m rotation T = 1%:M ->
  Pose_mul (Pose_inverse T) T = Pose_Identity F d.
Proof. by move=> h; rewrite /Pose_mul /Pose_inverse /= h subrr. Qed.

Lemma Pose_mul1 (T : Pose F d) : Pose_mul T (Pose_Identity F d) = T.
Proof. by case: T => R t; rewrite /Pose_mul /= mulmx1 mulmx0 add0r. Qed.

Lemma Pose_mulKV (A T : Pose F d) :
  (rotation T)^T *m rotation T = 1%:M ->
  Pose_mul (Pose_mul A (Pose_inverse T)) T = A.
Proof. by move=> h; rewrite Pose_mulA Pose_mulVT // Pose_mul1. Qed.

Lemma as_LiftedPose_mk (x : LiftedPose F r d) :
  as_LiftedPose r d (mkLiftedPoseDyn x) = Some x.
Proof.
rewrite /as_LiftedPose /=; case: eqP => // e1; case: eqP => // e2.
by rewrite (eq_axiomK e1) (eq_axiomK e2) !castmx_id; case: x.
Qed.

(** X16: the transform [T] that [computeNeighborTransform] returns aligns
    the frames: composed with the local estimate of this robot's end of the
    edge and with the measurement (inverted for an incoming edge), it gives the
    neighbor's pose brought down by the lifting matrix, when the rotations of
    the measurement and of the local estimate are orthogonal. *)
Theorem computeNeighborTransform_aligns (m : RelativeSEMeasurement F)
  (neighbor_pose : LiftedPoseDyn F) (a : PGOAgent) (T : Pose F d) :
  computeNeighborTransform m neighbor_pose a = Ok T ->
  exists YL np dT T1,
    [/\ YLift a = Some YL,
        as_LiftedPose r d neighbor_pose = Some np,
        measured_transform d m = Ok dT,
        exists2 Tl, TLocalInit a = Some Tl
          & pose_at Tl (if r2 m == getID a then p2 m else p1 m) = Ok T1
      & (rotation dT)^T *m rotation dT = 1%:M ->
        (rotation T1)^T *m rotation T1 = 1%:M ->
        Pose_mul (Pose_mul T T1) (if r2 m == getID a then Pose_inverse dT else dT)
        = lmul_pose YL^T np].
Proof.
rewrite /computeNeighborTransform => H.
bind_inv H; move: e H; case hY: (YLift a) => [YL|] //= [<-] H.
do 2![bind_inv H]; bind_inv H; move: e1 H.
case hnp: (as_LiftedPose r d neighbor_pose) => [np|] //= [<-] H.
bind_inv H; bind_inv H; move: e2 H; case hT: (TLocalInit a) => [Tl|] //= [<-] H.
bind_inv H; case: x5 e2 H => Tf T1 e2 /= [<-].
exists YL, np, x3, T1.
case: ifP e2 => hr H; bind_inv H; case: H => <- <-; split=> //; try by exists Tl.
- move=> hd h1; rewrite Pose_mulKV // Pose_mulKV //=.
  by rewrite trmxK; exact: mulmx1C.
- by move=> hd h1; rewrite Pose_mulKV // Pose_mulKV.
Qed.

End AgentAlignment.

Section AgentReweighting.
Variable F : realFieldType.
Variable E : External F.
Variables r d : nat.

Local Notation PGOAgent := (PGOAgent E r d).

Lemma same_edge_refl (m : RelativeSEMeasurement F) : same_edge m m.
Proof. by case: m. Qed.

Lemma reweigh_same_edge (a : PGOAgent) (m m' : RelativeSEMeasurement F)
  (x1 x2 : LiftedPose F r d) :
  reweigh a m x1 x2 = Ok m' -> same_edge m m'.
Proof. by rewrite /reweigh => H; bind_inv H; case: H => <-. Qed.

Lemma for_each_pointwise A B (f : A -> result B) (s : seq A) (s' : seq B) :
  for_each f s = Ok s' -> pointwise (fun x y => f x = Ok y) s s'.
Proof.
elim: s s' => [|x s ih] s' /=; first by case=> <-.
case e: (f x) => [y|msg|msg] //=; case e0: (for_each f s) => [ys|msg|msg] //= [<-].
have [hsz hp] := ih _ e0; split; first by rewrite /= hsz.
by move=> x1 y1 /= [[<- <-]|/hp].
Qed.

Lemma pointwise_impl A B (P Q : A -> B -> Prop) (s : seq A) (s' : seq B) :
  (forall x y, P x y -> Q x y) -> pointwise P s s' -> pointwise Q s s'.
Proof. by move=> h [hsz hp]; split=> // x y /hp /h. Qed.

Lemma reweigh_private_spec (a : PGOAgent) (m m' : RelativeSEMeasurement F) :
  reweigh_private a m = Ok m' ->
  same_edge m m' /\ (isKnownInlier m -> m' = m).
Proof.
rewrite /reweigh_private; case: ifP => hk.
  by case=> <-; split=> //; exact: same_edge_refl.
by move=> H; do 2![bind_inv H]; split=> //; exact: reweigh_same_edge H.
Qed.

Lemma reweigh_shared_spec (a : PGOAgent) (m m' : RelativeSEMeasurement F) :
  reweigh_shared a m = Ok m' ->
  [/\ same_edge m m',
      isKnownInlier m -> m' = m,
      (other_robot a m < getID a)%num -> m' = m
    & dict_find (mkPoseID (other_robot a m)
                          (if r1 m == getID a then p2 m else p1 m))
                (neighborPoseDict a) = None -> m' = m].
Proof.
rewrite /reweigh_shared /other_robot /neighbor_pose; case: ifP => hk.
  by case=> <-; split=> //; exact: same_edge_refl.
case: ifP => h1.
  case: N.ltb_spec => hlt; first by case=> <-; split=> //; exact: same_edge_refl.
  move=> H; bind_inv H.
  case hf: (dict_find _ _) H => [v|]; last first.
    by case=> <-; split=> //; exact: same_edge_refl.
  move=> H; bind_inv H; split=> //; first exact: reweigh_same_edge H.
  by lia.
case: N.ltb_spec => hlt; first by case=> <-; split=> //; exact: same_edge_refl.
move=> H; bind_inv H.
case hf: (dict_find _ _) H => [v|]; last first.
  by case=> <-; split=> //; exact: same_edge_refl.
move=> H; bind_inv H; split=> //; first exact: reweigh_same_edge H.
by lia.
Qed.

(** X15: [updateLoopClosuresWeights] changes nothing of a loop closure but
    its weight, leaves the known inliers as they are, and leaves a shared loop
    closure as it is when the other robot has the smaller ID or when the pose
    of the other robot is not in [neighborPoseDict]; it changes neither [X]
    nor the dictionary. *)
Theorem updateLoopClosuresWeights_edges (a a' : PGOAgent) :
  updateLoopClosuresWeights a = Ok a' ->
  exists private shared,
    let g0 := clearDataMatrices (mPoseGraph a) in
    let g1 := set_privateLoopClosures private g0 in
    [/\ mPoseGraph a' = set_sharedLoopClosures shared g1,
        X a' = X a /\ neighborPoseDict a' = neighborPoseDict a,
        pointwise (fun m m' => same_edge m m' /\ (isKnownInlier m -> m' = m))
                  (privateLoopClosures g0) private
      & pointwise (fun m m' =>
                     [/\ same_edge m m',
                         isKnownInlier m -> m' = m,
                         (other_robot a m < getID a)%num -> m' = m
                       & dict_find (mkPoseID (other_robot a m)
                                      (if r1 m == getID a then p2 m else p1 m))
                                   (neighborPoseDict a) = None -> m' = m])
                  (sharedLoopClosures g1) shared].
Proof.
rewrite /updateLoopClosuresWeights => H; do 3![bind_inv H]; case: H => <-.
exists x0, x1; split=> //.
- by apply: pointwise_impl (for_each_pointwise e0) => m m' /reweigh_private_spec.
- by apply: pointwise_impl (for_each_pointwise e1) => m m' /reweigh_shared_spec.
Qed.

End AgentReweighting.

Section AgentCache.
Variable F : realFieldType.
Variable E : External F.
Variables r d : nat.

Local Notation PGOAgent := (PGOAgent E r d).

Lemma cache_dims_nil : cache_dims r d ([::] : PoseDict F).
Proof. by []. Qed.

Lemma cache_dims_set (k : PoseID) (v : LiftedPoseDyn F) (m : PoseDict F) :
  lp_r v = r -> lp_d v = d -> cache_dims r d m -> cache_dims r d (dict_set k v m).
Proof.
move=> hr hd hm k' v'; rewrite dict_find_set; case: ifP => _; last exact: hm.
by case=> <-.
Qed.

Lemma cache_neighbor_pose_dims aux nID st (a b : PGOAgent) it :
  cache_neighbor_pose aux nID st a it = Ok b ->
  cache_dims r d (neighborPoseDict a) /\ cache_dims r d (neighborAuxPoseDict a) ->
  cache_dims r d (neighborPoseDict b) /\ cache_dims r d (neighborAuxPoseDict b).
Proof.
rewrite /cache_neighbor_pose => H [h1 h2]; do 3![bind_inv H].
move/CHECK_Ok/eqP: e0 => hr; move/CHECK_Ok/eqP: e1 => hd.
case: ifP H => _; first by case=> <-.
case: ifP => _; last by case=> <-.
by case: (aux) => -[<-]; split=> //=; apply: cache_dims_set.
Qed.

Lemma cache_neighbor_poses_dims aux nID st (a b : PGOAgent) dict :
  cache_neighbor_poses aux nID st a dict = Ok b ->
  cache_dims r d (neighborPoseDict a) /\ cache_dims r d (neighborAuxPoseDict a) ->
  cache_dims r d (neighborPoseDict b) /\ cache_dims r d (neighborAuxPoseDict b).
Proof.
elim: dict a => [|it dict ih] a /=; first by case=> <-.
case e: (cache_neighbor_pose _ _ _ _ _) => [a1|s|s] //= H h.
by apply: ih H _; apply: cache_neighbor_pose_dims e h.
Qed.

(** X17: the poses in the two neighbor dictionaries have the dimensions of
    the agent: [updateNeighborPoses] and [updateAuxNeighborPoses] keep this,
    and under it [getNeighborPoseInGlobalFrame] never aborts. *)
Theorem neighbor_cache_dims (neighborID : N) (poseDict : PoseDict F) (a : PGOAgent) :
  cache_dims r d (neighborPoseDict a) /\ cache_dims r d (neighborAuxPoseDict a) ->
  [/\ forall a', updateNeighborPoses neighborID poseDict a = Ok a' ->
        cache_dims r d (neighborPoseDict a')
        /\ cache_dims r d (neighborAuxPoseDict a'),
      forall a', updateAuxNeighborPoses neighborID poseDict a = Ok a' ->
        cache_dims r d (neighborPoseDict a')
        /\ cache_dims r d (neighborAuxPoseDict a')
    & forall nID poseID, is_ok (getNeighborPoseInGlobalFrame nID poseID a)].
Proof.
move=> h; split.
- move=> a'; rewrite /updateNeighborPoses => H; bind_inv H.
  case: (getNeighborStatus _ _) H => [status|]; last by case=> <-.
  move=> H; bind_inv H; apply: cache_neighbor_poses_dims H _.
  case: ifP e0 => _; last by case=> <-.
  move=> H'; bind_inv H'; case: x1 e0 H' => [T|] _; last by case=> <-.
  by case/initializeInGlobalFrame_spec=> _ _ _ -> ->.
- move=> a'; rewrite /updateAuxNeighborPoses => H; do 2![bind_inv H].
  case: (getNeighborStatus _ _) H => [status|]; last by case=> <-.
  by move=> H; apply: cache_neighbor_poses_dims H _.
- move=> nID poseID; rewrite /getNeighborPoseInGlobalFrame.
  case: (globalAnchor a) => [Xa|] //; case: ifP => // _.
  case hf: (dict_find _ _) => [Xi|] //.
  have [hr hd] := h.1 _ _ hf.
  rewrite hr hd !eqxx /= /as_LiftedPose.
  by case: eqP => // e1; case: eqP.
Qed.

Lemma cache_neighbor_pose_stores aux nID (a b : PGOAgent) it :
  cache_neighbor_pose aux nID INITIALIZED a it = Ok b ->
  mState a = INITIALIZED ->
  [/\ mState b = mState a, mPoseGraph b = mPoseGraph a,
      mNumPosesReceived b = (mNumPosesReceived a + 1)%num
    & cache_of aux b
      = if it.1 \in neighborPublicPoseIDs (mPoseGraph a)
        then dict_set it.1 it.2 (cache_of aux a) else cache_of aux a].
Proof.
rewrite /cache_neighbor_pose /hasNeighborPose => H hs; do 3![bind_inv H].
move: H; rewrite /= hs /=.
by case: (it.1 \in _) => /=; case: (aux) => -[<-].
Qed.

Lemma cache_neighbor_poses_stores aux nID (a b : PGOAgent) dict :
  cache_neighbor_poses aux nID INITIALIZED a dict = Ok b ->
  mState a = INITIALIZED -> uniq [seq it.1 | it <- dict] ->
  [/\ forall k v, List.In (k, v) dict ->
        k \in neighborPublicPoseIDs (mPoseGraph a) ->
        dict_find k (cache_of aux b) = Some v,
      forall k, k \notin [seq it.1 | it <- dict] ->
        dict_find k (cache_of aux b) = dict_find k (cache_of aux a)
    & mNumPosesReceived b = (mNumPosesReceived a + N.of_nat (size dict))%num].
Proof.
elim: dict a => [|it dict ih] a /=.
  by case=> <- _ _; split=> //; lia.
case e: (cache_neighbor_pose _ _ _ _ _) => [a1|s|s] //= H hs /andP[hnotin hu].
have [k1 k2 k3 k4] := cache_neighbor_pose_stores e hs.
have [h1 h2 h3] := ih a1 H (etrans k1 hs) hu.
split.
- move=> k v [ekv|hin] hk; last by apply: h1 => //; rewrite k2.
  have ek : it.1 = k by rewrite ekv.
  rewrite h2 -?ek // k4 ek hk dict_find_set -ek eqxx.
  by rewrite ekv.
- move=> k; rewrite inE negb_or => /andP[hne hk].
  rewrite h2 // k4; case: ifP => // _.
  by rewrite dict_find_set eq_sym (negbTE hne).
- rewrite h3 k3 -[N.pos (Pos.of_succ_nat _)]/(N.of_nat (size dict).+1) Nat2N.inj_succ.
  by lia.
Qed.

Lemma initializeInGlobalFrame_received T (a b : PGOAgent) :
  initializeInGlobalFrame T a = Ok b -> mNumPosesReceived b = mNumPosesReceived a.
Proof.
rewrite /initializeInGlobalFrame => H; bind_inv H.
set a1 := (if isOptimizationRunning a then _ else _) in H.
have ha1 : mNumPosesReceived a1 = mNumPosesReceived a.
  by rewrite /a1 /endOptimizationLoop; case: ifP => //= ->.
do 3![bind_inv H]; bind_inv H.
have hx2 : mNumPosesReceived x3 = mNumPosesReceived a.
  case: ifP e3 => _; last by case=> <-.
  rewrite /initializeAcceleration => H'; bind_inv H'.
  by move: H' => /= [<-].
case: ifP H => _; last by case=> <-.
rewrite /startOptimizationLoop => H; bind_inv H.
by case: ifP H hx2 => _ [<-].
Qed.

(** X18: when the agent is [INITIALIZED] after the call and the neighbor
    reports [INITIALIZED], every pose of [poseDict] whose ID is among
    [neighborPublicPoseIDs] is found in the dictionary afterwards, and
    [mNumPosesReceived] has grown by the number of poses of [poseDict]. *)
Theorem neighbor_cache_stores (neighborID : N) (poseDict : PoseDict F)
  (a : PGOAgent) :
  neighbor_state a neighborID = Some INITIALIZED ->
  uniq [seq it.1 | it <- poseDict] ->
  (forall a', updateNeighborPoses neighborID poseDict a = Ok a' ->
     mState a' = INITIALIZED ->
     (forall k v, List.In (k, v) poseDict ->
        k \in neighborPublicPoseIDs (mPoseGraph a) ->
        dict_find k (neighborPoseDict a') = Some v)
     /\ mNumPosesReceived a'
        = (mNumPosesReceived a + N.of_nat (size poseDict))%num)
  /\ (forall a', updateAuxNeighborPoses neighborID poseDict a = Ok a' ->
        mState a' = INITIALIZED ->
        (forall k v, List.In (k, v) poseDict ->
           k \in neighborPublicPoseIDs (mPoseGraph a) ->
           dict_find k (neighborAuxPoseDict a') = Some v)
        /\ mNumPosesReceived a'
           = (mNumPosesReceived a + N.of_nat (size poseDict))%num).
Proof.
rewrite /neighbor_state => hst hu; split=> a'.
- rewrite /updateNeighborPoses => H; bind_inv H.
  case hs: (getNeighborStatus _ _) hst H => [status|] //= [est] H hs'.
  bind_inv H; rewrite est in H.
  have [q1 q2 _ _ _] := cache_neighbor_poses_spec H.
  have [h1 _ h3] := cache_neighbor_poses_stores (aux := false) H (etrans (esym q1) hs') hu.
  have [g1 g2] : mPoseGraph x0 = mPoseGraph a
                 /\ mNumPosesReceived x0 = mNumPosesReceived a.
    case: ifP e0 => _; last by case=> <-.
    move=> H'; bind_inv H'; case: x1 e0 H' => [T|] _; last by case=> <-.
    by move=> hi; have [_ -> _ _ _] := initializeInGlobalFrame_spec hi;
       rewrite (initializeInGlobalFrame_received hi).
  by split; [move=> k v hin hk; apply: h1 => //; rewrite g1|rewrite h3 g2].
- rewrite /updateAuxNeighborPoses => H; do 2![bind_inv H].
  case hs: (getNeighborStatus _ _) hst H => [status|] //= [est] H hs'.
  rewrite est in H.
  have [q1 q2 _ _ _] := cache_neighbor_poses_spec H.
  have [h1 _ h3] := cache_neighbor_poses_stores (aux := true) H (etrans (esym q1) hs') hu.
  by split.
Qed.

End AgentCache.

Section AgentSharing.
Variable F : realFieldType.
Variable E : External F.
Variables r d : nat.
Variable myPublicPoseIDs : PoseGraph E -> seq PoseID.

Local Notation PGOAgent := (PGOAgent E r d).
Local Notation getSharedPoseDict := (getSharedPoseDict myPublicPoseIDs).
Local Notation getAuxSharedPoseDict := (getAuxSharedPoseDict myPublicPoseIDs).

Lemma dict_find_rcons (k k' : PoseID) (v : LiftedPoseDyn F) (m : PoseDict F) :
  dict_find k (rcons m (k', v))
  = if dict_find k m is Some x then Some x
    else if k' == k then Some v else None.
Proof.
elim: m => [|[k1 v1] m ih] //=.
by case: ifP.
Qed.

Lemma dict_find_emplace (k k' : PoseID) (v : LiftedPoseDyn F) (m : PoseDict F) :
  dict_find k (dict_emplace k' v m)
  = if dict_find k m is Some x then Some x
    else if k' == k then Some v else None.
Proof.
rewrite /dict_emplace; case hk': (dict_find k' m) => [x'|].
  case hk: (dict_find k m) => [x|] //.
  by case: eqP => // e; rewrite e hk in hk'.
exact: dict_find_rcons.
Qed.

Lemma In_emplace (k : PoseID) (v : LiftedPoseDyn F) (m : PoseDict F) it :
  List.In it (dict_emplace k v m) -> List.In it m \/ it = (k, v).
Proof.
rewrite /dict_emplace; case: (dict_find k m) => [x|]; first by left.
by move/In_rcons => [->|]; [right|left].
Qed.

Lemma dict_find_In (k : PoseID) (v : LiftedPoseDyn F) (m : PoseDict F) :
  dict_find k m = Some v -> List.In (k, v) m.
Proof.
elim: m => [|[k1 v1] m ih] //=.
by case: eqP => [-> [->]|_ /ih]; [left|right].
Qed.

Lemma shared_poses_spec (a : PGOAgent) (Xs : LiftedPoseArray F r d)
  (ids : seq PoseID) (map0 map : PoseDict F) :
  shared_poses a Xs ids map0 = Ok map ->
  [/\ forall it, List.In it map ->
        List.In it map0
        \/ [/\ it.1 \in ids, robot_id it.1 = getID a
             & exists2 x, pose_at Xs (frame_id it.1) = Ok x
                        & it.2 = mkLiftedPoseDyn x],
      forall k v, dict_find k map0 = Some v -> dict_find k map = Some v
    & forall k, k \in ids -> exists v, dict_find k map = Some v].
Proof.
elim: ids map0 => [|id ids ih] map0 /=.
  by case=> <-; split=> //; left.
move=> H; do 2![bind_inv H]; move/CHECK_Ok/eqP: e => hid.
have [h1 h2 h3] := ih _ H; split.
- move=> it /h1 [/In_emplace [|->]|[k1 k2 k3]]; first by left.
    by right; split=> //=; [rewrite inE eqxx|exists x0].
  by right; split=> //; rewrite inE k1 orbT.
- by move=> k v hk; apply: h2; rewrite dict_find_emplace hk.
- move=> k; rewrite inE => /orP[/eqP->|/h3 //].
  case hk: (dict_find id map0) => [v|].
    by exists v; apply: h2; rewrite dict_find_emplace hk.
  eexists; apply: h2.
  by rewrite dict_find_emplace hk eqxx.
Qed.

Lemma shared_poses_contents (a : PGOAgent) (Xs : LiftedPoseArray F r d)
  (ids : seq PoseID) (map : PoseDict F) :
  shared_poses a Xs ids [::] = Ok map ->
  [/\ forall k, k \in ids ->
        robot_id k = getID a
        /\ exists2 x, pose_at Xs (frame_id k) = Ok x
                    & dict_find k map = Some (mkLiftedPoseDyn x),
      forall k v, dict_find k map = Some v -> k \in ids
    & forall it, List.In it map ->
        [/\ robot_id it.1 = getID a, lp_r it.2 = r & lp_d it.2 = d]].
Proof.
move=> /shared_poses_spec [h1 _ h3]; split.
- move=> k /h3 [v hv]; have [//|[_ k2 [x k3 /= ev]]] := h1 _ (dict_find_In hv).
  by split=> //; exists x => //; rewrite hv ev.
- by move=> k v /dict_find_In /h1 [//|[]].
- by move=> it /h1 [//|[_ k2 [x _ ->]]].
Qed.

(** X19: the dictionary that [getSharedPoseDict] returns holds, for every
    ID of [myPublicPoseIDs], the pose of [X] at its frame, and nothing else;
    each of its entries is what [getSharedPose] returns for that frame, when
    [X] has [num_poses] poses. *)
Theorem getSharedPoseDict_contents (a : PGOAgent) (map : PoseDict F) :
  getSharedPoseDict a = Ok (Some map) ->
  [/\ forall k, k \in myPublicPoseIDs (mPoseGraph a) ->
        robot_id k = getID a
        /\ exists2 x, pose_at (X a) (frame_id k) = Ok x
                    & dict_find k map = Some (mkLiftedPoseDyn x),
      forall k v, dict_find k map = Some v -> k \in myPublicPoseIDs (mPoseGraph a)
    & N.of_nat (size (X a)) = num_poses a ->
      forall k v, dict_find k map = Some v ->
        exists2 x, getSharedPose (frame_id k) a = Ok (Some x)
                 & v = mkLiftedPoseDyn x].
Proof.
rewrite /getSharedPoseDict /getSharedPose; case: ifP => // _ H; bind_inv H.
case: H => <-; have [h1 h2 _] := shared_poses_contents e; split=> //.
move=> hn k v hv; have [_ [x0 hx hv']] := h1 _ (h2 _ _ hv).
exists x0; last by move: hv; rewrite hv' => -[].
case: N.leb_spec => [hle|_]; last by rewrite hx.
move: hx; rewrite /pose_at nth_default //.
by rewrite size_map; apply/leP; lia.
Qed.

(** X20: what one agent publishes another accepts: on a dictionary
    returned by [getSharedPoseDict] or [getAuxSharedPoseDict], the loops of
    [updateNeighborPoses] and of [updateAuxNeighborPoses] of an agent with the
    same dimensions pass all their checks, and so do the two functions for an
    agent with another ID (that does not wait for its initialization, for the
    first; in accelerated mode, for the second). *)
Theorem shared_poses_accepted (a b : PGOAgent) (map : PoseDict F) :
  getSharedPoseDict a = Ok (Some map) \/ getAuxSharedPoseDict a = Ok (Some map) ->
  [/\ forall aux theirs, is_ok (cache_neighbor_poses aux (getID a) theirs b map),
      acceleration (mParams b) -> mID b <> mID a ->
      is_ok (updateAuxNeighborPoses (getID a) map b)
    & mID b <> mID a -> mState b <> WAIT_FOR_INITIALIZATION ->
      is_ok (updateNeighborPoses (getID a) map b)].
Proof.
move=> hmap.
have hit : forall it, List.In it map ->
    [/\ robot_id it.1 = getID a, lp_r it.2 = r & lp_d it.2 = d].
  case: hmap; rewrite /getSharedPoseDict /getAuxSharedPoseDict => H.
    by case: ifP H => // _ H; bind_inv H; case: H => <-;
       have [] := shared_poses_contents e.
  by bind_inv H; case: ifP H => // _ H; bind_inv H; case: H => <-;
     have [] := shared_poses_contents e0.
have hloop aux theirs (c : PGOAgent) :
    is_ok (cache_neighbor_poses aux (getID a) theirs c map).
  exact: cache_neighbor_poses_total.
split=> //.
- move=> hacc /eqP hne; rewrite /updateAuxNeighborPoses hacc /= /getID.
  by rewrite eq_sym hne /=; case: (getNeighborStatus _ _).
- move=> /eqP hne /PGOAgentState_eqbP/negbTE hs.
  rewrite /updateNeighborPoses /getID eq_sym hne /= hs /=.
  by case: (getNeighborStatus _ _).
Qed.

(** X21: [getPoseInGlobalFrame] and [getTrajectoryInGlobalFrame] agree:
    the pose of the trajectory at an index is the pose that
    [getPoseInGlobalFrame] returns for it, with the same translation and with
    the rotation block projected to the rotation group; and the former returns a
    pose for every index below [num_poses] when the latter returns a
    trajectory. *)
Theorem getPoseInGlobalFrame_trajectory (a : PGOAgent) (poseID : N) :
  (forall T Ti, getTrajectoryInGlobalFrame a = Ok (Some T) ->
     getPoseInGlobalFrame poseID a = Ok (Some Ti) ->
     pose_at T poseID
     = Ok (mkLiftedPose (projectToRotationGroup E (rotation Ti)) (translation Ti)))
  /\ (forall T, getTrajectoryInGlobalFrame a = Ok (Some T) ->
        (poseID < num_poses a)%num ->
        exists Ti, getPoseInGlobalFrame poseID a = Ok (Some Ti)).
Proof.
rewrite /getTrajectoryInGlobalFrame /getPoseInGlobalFrame.
case: (globalAnchor a) => [Xa|]; last by split.
case: ifP => _; first by split.
split=> T.
- move=> Ti H; bind_inv H; case: H => <-; have [-> _] := setData_Ok e.
  case: N.leb_spec => // _ H; bind_inv H; case: H => <-.
  move: e0; rewrite /pose_at -!map_comp.
  case hi: (N.to_nat poseID < size (X a))%N; last first.
    by rewrite nth_default // size_map leqNgt hi.
  by rewrite !(nth_map x0) //=; case=> ->.
- move=> H hlt; bind_inv H; have [_ hsz] := setData_Ok e.
  have -> : (num_poses a <=? poseID)%num = false by apply/N.leb_gt.
  rewrite /pose_at; move: hsz; rewrite size_map => hsz.
  have hi : (N.to_nat poseID < size (X a))%N by rewrite hsz; apply/ltP; lia.
  case: (X a) hi => [|x0 Xs] // hi.
  by rewrite (nth_map x0) //=; eexists.
Qed.

End AgentSharing.

Section AgentNesterov.
Variable F : realFieldType.
Variable E : External F.
Variables r d : nat.

Local Notation PGOAgent := (PGOAgent E r d).

Lemma nesterov_algebra (n g s c : F) :
  n != 0 -> g * (2%:R * n) = 1 + s -> s ^+ 2 = 1 + 4%:R * n ^+ 2 * c ^+ 2 ->
  n * g ^+ 2 - g = n * c ^+ 2.
Proof.
move=> n0 eg s2.
have e1 : n * g ^+ 2 - g = g * (g * n - 1).
  by rewrite mulrBr mulr1 mulrA -expr2 mulrC.
have e2 : (g * n - 1) * 2%:R = s - 1.
  rewrite mulrBl mul1r -mulrA [n * _]mulrC eg -[2%:R]/(1 + 1) opprD addrA.
  by rewrite [1 + s]addrC addrK.
have h2 : (2%:R : F) != 0 by rewrite pnatr_eq0.
have h4 : 2%:R * n * 2%:R != 0 by rewrite !mulf_neq0.
apply: (mulIf h4); rewrite e1 mulrACA eg e2.
rewrite [(1 + s) * _]mulrC [1 + s]addrC -[X in (s - X) * (s + X)](expr1n _ 2).
have -> : (s - 1 ^+ 2) * (s + 1 ^+ 2) = s ^+ 2 - 1.
  by rewrite !expr1n -subr_sqr expr1n.
rewrite s2 [1 + _]addrC addrK.
have -> : 2%:R * n * 2%:R = 4%:R * n by rewrite mulrAC -natrM.
by rewrite [RHS]mulrC mulrA -[4%:R * n * n]mulrA -expr2.
Qed.

(** X22: when [sqrt] returns the square root of the number [updateGamma]
    applies it to, and there is at least one robot, the new [gamma] solves
    [n gamma'^2 - gamma' = n gamma^2] with [n] the number of robots, it is at
    least [1 / n], and the [alpha] that [updateAlpha] computes from it lies in
    (0, 1], so that [updateY] combines [X] and [V] convexly. *)
Theorem nesterov_coefficients (a a1 a2 : PGOAgent) :
  sqrt_at E (updateGamma_radicand a) -> (0 < numRobots (mParams a))%num ->
  updateGamma a = Ok a1 -> updateAlpha a1 = Ok a2 ->
  let n := numRobotsF a in
  [/\ n * gamma a1 ^+ 2 - gamma a1 = n * gamma a ^+ 2,
      1 / n <= gamma a1,
      alpha a2 = 1 / (gamma a1 * n)
    & 0 < alpha a2 <= 1].
Proof.
move=> hsqrt hN H1 H2 n.
rewrite /updateGamma in H1; bind_inv H1; case: H1 => ea1.
rewrite /updateAlpha in H2; bind_inv H2; case: H2 => ea2.
rewrite -ea2 -ea1 /= /numRobotsF /= -/(numRobotsF a) -/n.
have n0 : 0 < n.
  rewrite /n /numRobotsF ltr0n; apply/ltP.
  by move: hN; lia.
have n_neq0 : n != 0 by rewrite gt_eqF.
set s := sqrt E _.
have h4 : 0 <= 4%:R * n ^+ 2 * gamma a ^+ 2.
  by apply: mulr_ge0; [apply: mulr_ge0; [exact: ler0n|exact: sqr_ge0]|exact: sqr_ge0].
have [s0 s2] : 0 <= s /\ s ^+ 2 = 1 + 4%:R * n ^+ 2 * gamma a ^+ 2.
  exact: hsqrt.
have s1 : 1 <= s.
  by rewrite -(@ler_sqr _ 1 s) ?nnegrE ?ler01 // expr1n s2 lerDl.
have n2 : 0 < 2%:R * n by rewrite mulr_gt0 // ltr0n.
set g := (1 + s) / (2%:R * n).
have eg : g * (2%:R * n) = 1 + s by rewrite /g divfK // gt_eqF.
have egn : g * n = (1 + s) / 2%:R.
  by rewrite /g invfM mulrA -[_ / _ * n]mulrA mulVf // mulr1.
have hg1 : 1 <= g * n.
  rewrite egn ler_pdivlMr ?ltr0n // mul1r -[2%:R]/(1 + 1) lerD2l.
  exact: s1.
have hg0 : 0 < g * n by exact: lt_le_trans ltr01 hg1.
split.
- exact: nesterov_algebra eg s2.
- by rewrite ler_pdivrMr // mul1r.
- by [].
- by rewrite divr_gt0 ?ltr01 //= ler_pdivrMr // mul1r.
Qed.

(** *** The lifting matrix *)

Lemma as_mx_Some m n (M : Matrix F) (A : 'M[F]_(m, n)) :
  as_mx m n M = Some A -> M = mkMatrix A.
Proof.
case: M => rw cl c; rewrite /as_mx /=.
case: eqP => // e1; case: eqP => // e2 [<-].
by case: _ / e1; case: _ / e2; rewrite castmx_id.
Qed.

(** X23: agent 0 hands out the lifting matrix that it was given or that
    its constructor drew; an agent with another ID aborts when it is asked for
    it; and any agent of the same dimensions accepts the matrix that
    [getLiftingMatrix] returned and then holds the same lifting matrix. *)
Theorem lifting_matrix_roundtrip :
  [/\ forall (M : Matrix F) (a a' : PGOAgent),
        mID a = 0%num -> setLiftingMatrix M a = Ok a' ->
        getLiftingMatrix a' = Ok (Some M),
      forall (params : PGOAgentParameters E) (g g' : rand_state E) (a : PGOAgent),
        PGOAgent_new r d 0%num params g = Ok (a, g') ->
        getLiftingMatrix a = Ok (Some (fixedStiefelVariable d r g).1),
      forall a : PGOAgent, mID a <> 0%num ->
        exists msg, getLiftingMatrix a = Fatal msg
    & forall (a0 b : PGOAgent) (M : Matrix F),
        getLiftingMatrix a0 = Ok (Some M) ->
        exists2 b', setLiftingMatrix M b = Ok b' & YLift b' = YLift a0].
Proof.
have hset (M : Matrix F) (a a' : PGOAgent) :
    mID a = 0%num -> setLiftingMatrix M a = Ok a' ->
    getLiftingMatrix a' = Ok (Some M).
  rewrite /setLiftingMatrix /getLiftingMatrix => h0 H; do 2![bind_inv H].
  case hM: (as_mx r d M) H => [YL|] // [<-] /=.
  by rewrite h0 eqxx /= (as_mx_Some hM).
split=> //.
- move=> params g g' a; rewrite /PGOAgent_new eqxx.
  case: (fixedStiefelVariable d r g) => M g1 H; bind_inv H; case: H => <- _.
  exact: hset e.
- move=> a /eqP/negbTE h; rewrite /getLiftingMatrix h /=.
  by eexists.
- move=> a0 b M; rewrite /getLiftingMatrix => H; bind_inv H.
  case hY: (YLift a0) H => [YL|] // -[<-].
  rewrite /setLiftingMatrix /= !eqxx /= as_mx_mkMatrix.
  by eexists.
Qed.

End AgentNesterov.

Section AgentInitialization.
Variable F : realFieldType.
Variable E : External F.
Variables r d : nat.
Variable Pose_new : Pose F d.
Variable chordalInitialization : nat -> N -> seq (RelativeSEMeasurement F) -> Matrix F.
Variable odometryInitialization : nat -> N -> seq (RelativeSEMeasurement F) -> Matrix F.
Variable localMeasurements : PoseGraph E -> seq (RelativeSEMeasurement F).
Variable odometry : PoseGraph E -> seq (RelativeSEMeasurement F).

Local Notation PGOAgent := (PGOAgent E r d).
Local Notation initializeLocalTrajectory :=
  (@initializeLocalTrajectory F E r d chordalInitialization odometryInitialization
     localMeasurements odometry).
Local Notation initialize :=
  (@initialize F E r d Pose_new chordalInitialization odometryInitialization
     localMeasurements odometry).

Lemma initializeInGlobalFrame_TLocalInit T (a b : PGOAgent) :
  initializeInGlobalFrame T a = Ok b ->
  TLocalInit b = TLocalInit a /\ TLocalInit a <> None.
Proof.
rewrite /initializeInGlobalFrame => H; bind_inv H.
set a1 := (if isOptimizationRunning a then _ else _) in H.
have ha1 : TLocalInit a1 = TLocalInit a.
  by rewrite /a1 /endOptimizationLoop; case: ifP => //= ->.
bind_inv H; have hne : TLocalInit a <> None.
  by move: e0; rewrite /= ha1; case: (TLocalInit a).
do 2![bind_inv H]; bind_inv H.
have hx2 : TLocalInit x3 = TLocalInit a.
  case: ifP e3 => _; last by case=> <-.
  rewrite /initializeAcceleration => H'; bind_inv H'.
  by move: H' => /= [<-].
split=> //; case: ifP H => _; last by case=> <-.
rewrite /startOptimizationLoop => H; bind_inv H.
by case: ifP H hx2 => _ [<-].
Qed.

Lemma initialize_states TInitPtr (a a' : PGOAgent) :
  initialize TInitPtr a = Ok a' ->
  [/\ mState a = WAIT_FOR_DATA,
      PoseGraph_n (mPoseGraph a) = 0%num -> a' = a
    & PoseGraph_n (mPoseGraph a) <> 0%num ->
      mState a' = (if (mID a == 0%num) || ~~ multirobot_initialization (mParams a)
                   then INITIALIZED else WAIT_FOR_INITIALIZATION)
      /\ TLocalInit a' <> None].
Proof.
rewrite /initialize => H; do 2![bind_inv H].
move/CHECK_Ok/PGOAgentState_eqbP: e => hs.
case: eqP H => [h0 [<-]|hn H]; first by split.
split=> // _; bind_inv H.
have [h1 h2 h3] : [/\ mID x1 = mID a, mParams x1 = mParams a & TLocalInit x1 <> None].
  move: e; case: (match TInitPtr with Some _ => _ | None => _ end) => [T|].
    by case=> <-.
  by rewrite /initializeLocalTrajectory => H'; do 2![bind_inv H']; case: H' => <-.
move: H; rewrite /= h1 h2; case: ifP => _; last by case=> <-.
move=> H; have [-> _ _ _ _] := initializeInGlobalFrame_spec H.
by have [-> _] := initializeInGlobalFrame_TLocalInit H.
Qed.

(** X24: [initialize] returns only on an agent that waits for data; it
    leaves an agent with an empty pose graph as it is; otherwise the agent is
    [INITIALIZED] when its ID is 0 or the initialization across robots is off
    and waits for its initialization if not, it holds a local trajectory, and
    a second [initialize] aborts. *)
Theorem initialize_once TInitPtr (a a' : PGOAgent) :
  initialize TInitPtr a = Ok a' ->
  [/\ mState a = WAIT_FOR_DATA,
      PoseGraph_n (mPoseGraph a) = 0%num -> a' = a,
      PoseGraph_n (mPoseGraph a) <> 0%num ->
      mState a' = (if (mID a == 0%num) || ~~ multirobot_initialization (mParams a)
                   then INITIALIZED else WAIT_FOR_INITIALIZATION)
      /\ TLocalInit a' <> None
    & PoseGraph_n (mPoseGraph a) <> 0%num ->
      forall TInitPtr', exists msg, initialize TInitPtr' a' = Fatal msg].
Proof.
move=> H; have [h1 h2 h3] := initialize_states H; split=> // hn T2.
have [hs _] := h3 hn.
rewrite /initialize.
have -> : PGOAgentState_eqb (mState a') WAIT_FOR_DATA = false.
  by rewrite hs; case: ifP.
by eexists.
Qed.

Lemma as_PoseArray_mk (T : PoseArray F d) :
  as_PoseArray d (mkPoseArrayDyn T) = Some T.
Proof.
rewrite /as_PoseArray /=; case: eqP => // e.
by rewrite (eq_axiomK e).
Qed.

Lemma Pose_mul1l (T : Pose F d) : Pose_mul (Pose_Identity F d) T = T.
Proof. by case: T => R t; rewrite /Pose_mul /= !mul1mx addr0. Qed.

(** X25: an agent that waits for data and runs no optimization thread,
    with a lifting matrix and a pose graph of as many poses as the trajectory
    it is given, whose ID is 0 or whose initialization across robots is off,
    is [INITIALIZED] by [initialize]: it keeps the given trajectory as [TLocalInit], its iterate
    [X] is the lift of the trajectory moved by [Pose(d)] (the trajectory itself
    when [Pose(d)] is the identity), [XInit] is [X], and the neighbor
    dictionaries are empty. *)
Theorem initialize_provided (T : PoseArray F d) (a : PGOAgent) (YL : 'M[F]_(r, d)) :
  mState a = WAIT_FOR_DATA -> mOptimizationThread a = false ->
  PoseGraph_n (mPoseGraph a) <> 0%num -> N.of_nat (size T) = num_poses a ->
  (mID a == 0%num) || ~~ multirobot_initialization (mParams a) ->
  YLift a = Some YL ->
  size (LiftedPoseArray_new E r d (num_poses a)) = size T ->
  exists2 a', initialize (Some (mkPoseArrayDyn T)) a = Ok a'
    & [/\ mState a' = INITIALIZED, TLocalInit a' = Some T,
          X a' = lmul_array YL [seq Pose_mul Pose_new x | x <- T],
          Pose_new = Pose_Identity F d -> X a' = lmul_array YL T
        & XInit a' = Some (X a')
          /\ neighborPoseDict a' = [::] /\ neighborAuxPoseDict a' = [::]].
Proof.
move=> hs ht hn hsz hid hY hnew.
rewrite /initialize hs ht /= as_PoseArray_mk hsz eqxx /=.
have -> : (PoseGraph_n (mPoseGraph a) == 0%num) = false by apply/eqP.
rewrite /= hid /initializeInGlobalFrame /= hY /= /isOptimizationRunning /= ht /=.
set a1 := set_neighborAuxPoseDict _ _.
have -> : transform_poses Pose_new (num_poses a1) T
          = Ok [seq Pose_mul Pose_new x | x <- T].
  rewrite /transform_poses /num_poses /= -/(num_poses a) -hsz Nat2N.id leqnn.
  by rewrite take_size drop_size cats0.
rewrite /a1 /= /setData /= !size_map hnew eqxx /=.
have hI : Pose_new = Pose_Identity F d ->
    lmul_array YL [seq Pose_mul Pose_new x | x <- T] = lmul_array YL T.
  move=> ->; congr (lmul_array _ _).
  by rewrite -[RHS]map_id; apply: eq_map => x; rewrite Pose_mul1l.
case hacc: (acceleration (mParams a)) => /=.
  rewrite /initializeAcceleration /= hacc /=.
  by eexists; first by []; split.
by eexists; first by []; split.
Qed.

End AgentInitialization.

(** ** The partition of the poses among the workers *)

Section RGDMasterProofs.

Lemma N_iota_cat (start : N) (a b : nat) :
  N_iota start (a + b) = N_iota start a ++ N_iota (start + N.of_nat a)%num b.
Proof.
rewrite /N_iota iotaD map_cat add0n; congr (_ ++ _).
rewrite -[a in iota a b]addn0 iotaDl -map_comp; apply: eq_map => i /=.
by rewrite -plusE Nat2N.inj_add; lia.
Qed.

Lemma N_iota_rcons (start : N) (a : nat) :
  N_iota start a.+1 = rcons (N_iota start a) (start + N.of_nat a)%num.
Proof. by rewrite -addn1 N_iota_cat /N_iota /= N.add_0_r cats1. Qed.

Lemma size_N_iota (start : N) (a : nat) : size (N_iota start a) = a.
Proof. by rewrite /N_iota size_map size_iota. Qed.

Lemma for_each_rcons A B (f : A -> result B) (s : seq A) (x : A) :
  for_each f (rcons s x)
  = rbind (for_each f s) (fun ys => rbind (f x) (fun y => Ok (rcons ys y))).
Proof.
elim: s => [|z s ih] /=; first by case: (f x).
rewrite ih; case: (f z) => [y|msg|msg] //=.
by case: (for_each f s) => [ys|msg|msg] //=; case: (f x).
Qed.

Lemma unsigned_mul_small (a b : N) :
  (a * b < unsigned_modulus)%num -> unsigned_mul a b = (a * b)%num.
Proof. by move=> h; rewrite /unsigned_mul N.mod_small. Qed.

Lemma unsigned_add_small (a b : N) :
  (a + b < unsigned_modulus)%num -> unsigned_add a b = (a + b)%num.
Proof. by move=> h; rewrite /unsigned_add N.mod_small. Qed.

Lemma unsigned_sub_small (a b : N) :
  (b <= a)%num -> (a < unsigned_modulus)%num -> unsigned_sub a b = (a - b)%num.
Proof.
rewrite /unsigned_sub => hb ha.
have e : (a + unsigned_modulus - b = (a - b) + 1 * unsigned_modulus)%num by lia.
by rewrite e N.Div0.mod_add N.mod_small; lia.
Qed.

Lemma mul_pred_add (p t : N) :
  (0 < t)%num -> (p * t = p * (t - 1) + p)%num.
Proof.
move=> t0; have et : t = ((t - 1) + 1)%num by lia.
by rewrite [in LHS]et N.mul_add_distr_l N.mul_1_r.
Qed.

Lemma per_bounds (n t : N) :
  (0 < t)%num -> (t <= n)%num -> (0 < n / t /\ n / t * t <= n)%num.
Proof.
move=> t0 tn; have h := N.Div0.mul_div_le n t.
split; last by rewrite N.mul_comm.
by apply: N.div_str_pos; lia.
Qed.

Lemma per_mul_le (n t i : N) :
  (0 < t)%num -> (t <= n)%num -> (i <= t)%num -> (n / t * i <= n)%num.
Proof.
move=> t0 tn hi; have [_ h] := per_bounds t0 tn.
by have := @N.mul_le_mono_l i t (n / t)%num hi; lia.
Qed.

Lemma worker_inner (n t i : N) :
  (0 < t)%num -> (t <= n)%num -> (n < unsigned_modulus)%num ->
  (i + 1 < t)%num ->
  worker_updateIndices n t (n / t)%num i
  = Ok (N_iota (n / t * i)%num (N.to_nat (n / t))).
Proof.
move=> t0 tn nM hi; have [p0 pt] := per_bounds t0 tn.
have h1 := @per_mul_le n t i t0 tn.
have h2 := @per_mul_le n t (i + 1)%num t0 tn.
have e2 : (n / t * (i + 1) = n / t * i + n / t)%num by lia.
rewrite /worker_updateIndices unsigned_add_small; try lia.
rewrite !unsigned_mul_small; try lia.
rewrite !unsigned_sub_small; try lia.
have -> : (i == (t - 1)%num) = false by apply/eqP; lia.
rewrite /push_indices.
have -> : ((n / t * (i + 1) - 1)%num == (unsigned_modulus - 1)%num) = false.
  by apply/eqP; lia.
have -> : (n / t * i <=? n / t * (i + 1) - 1)%num by apply/N.leb_le; lia.
by congr (Ok (N_iota _ (N.to_nat _))); lia.
Qed.

Lemma worker_last (n t : N) :
  (0 < t)%num -> (t <= n)%num -> (n < unsigned_modulus)%num ->
  worker_updateIndices n t (n / t)%num (t - 1)%num
  = Ok (N_iota (n / t * (t - 1))%num (N.to_nat (n - n / t * (t - 1)))).
Proof.
move=> t0 tn nM; have [p0 pt] := per_bounds t0 tn.
have h1 := @per_mul_le n t (t - 1)%num t0 tn.
have e2 := @mul_pred_add (n / t)%num t t0.
rewrite /worker_updateIndices.
have -> : unsigned_sub t 1 = (t - 1)%num by rewrite unsigned_sub_small; lia.
rewrite eqxx unsigned_mul_small; try lia.
rewrite unsigned_sub_small; try lia.
rewrite /push_indices.
have -> : ((n - 1)%num == (unsigned_modulus - 1)%num) = false by apply/eqP; lia.
have -> : (n / t * (t - 1) <=? n - 1)%num by apply/N.leb_le; lia.
by congr (Ok (N_iota _ (N.to_nat _))); lia.
Qed.

Lemma workers_inner (n t : N) (k : nat) :
  (0 < t)%num -> (t <= n)%num -> (n < unsigned_modulus)%num ->
  (N.of_nat k < t)%num ->
  for_each (worker_updateIndices n t (n / t)%num) (N_iota 0 k)
  = Ok [seq N_iota (n / t * N.of_nat i)%num (N.to_nat (n / t)) | i <- iota 0 k].
Proof.
move=> t0 tn nM; elim: k => [|k ih] // hk.
have hk' : (N.of_nat k + 1 < t)%num by move: hk; rewrite Nat2N.inj_succ; lia.
have -> : [seq N_iota (n / t * N.of_nat i)%num (N.to_nat (n / t)) | i <- iota 0 k.+1]
          = rcons [seq N_iota (n / t * N.of_nat i)%num (N.to_nat (n / t))
                     | i <- iota 0 k]
                  (N_iota (n / t * N.of_nat k)%num (N.to_nat (n / t))).
  by rewrite -addn1 iotaD map_cat /= add0n cats1.
rewrite N_iota_rcons for_each_rcons ih; try lia.
by rewrite /= ?N.add_0_l worker_inner.
Qed.

Lemma flatten_inner (per : N) (k : nat) :
  flatten [seq N_iota (per * N.of_nat i)%num (N.to_nat per) | i <- iota 0 k]
  = N_iota 0 (N.to_nat (per * N.of_nat k)).
Proof.
elim: k => [|k ih]; first by rewrite N.mul_0_r.
rewrite -[in LHS]addn1 iotaD map_cat flatten_cat ih /= add0n cats0.
have -> : N.to_nat (per * N.of_nat k.+1)
          = (N.to_nat (per * N.of_nat k) + N.to_nat per)%N.
  by rewrite -plusE Nat2N.inj_succ; lia.
by rewrite N_iota_cat N2Nat.id N.add_0_l.
Qed.

(** X26: with at least one worker, at most as many workers as poses and
    fewer than [2^32] poses, [solve] hands every worker at least one pose index, and the vectors of
    the workers, one after the other, are the indices 0, 1, ..., n - 1: every
    pose is updated by exactly one worker. *)
Theorem solve_updateIndices_partition (NDEBUG : bool) (n num_threads : N) :
  (0 < num_threads)%num -> (num_threads <= n)%num -> (n < unsigned_modulus)%num ->
  exists2 parts, solve_updateIndices NDEBUG n num_threads = Ok (Some parts)
    & [/\ size parts = N.to_nat num_threads,
          flatten parts = N_iota 0 (N.to_nat n)
        & forall p, List.In p parts -> p <> [::]].
Proof.
move=> t0 tn nM; have [p0 pt] := per_bounds t0 tn.
rewrite /solve_updateIndices.
have -> : (num_threads == 0%num) = false by apply/eqP; lia.
have -> : (n / num_threads == 0)%num = false by apply/eqP; lia.
have -> : (if NDEBUG then Ok tt
           else CHECK (~~ false) "assert(numPosesPerWorker != 0)") = Ok tt.
  by case: NDEBUG.
rewrite /=.
set k := (N.to_nat num_threads).-1.
have ek : N.to_nat num_threads = k.+1.
  by rewrite /k prednK //; apply/ltP; lia.
have ekN : N.of_nat k = (num_threads - 1)%num.
  by have : N.of_nat k.+1 = num_threads; [rewrite -ek N2Nat.id|rewrite Nat2N.inj_succ; lia].
rewrite ek N_iota_rcons for_each_rcons workers_inner //; try lia.
rewrite /= ?N.add_0_l ekN worker_last //=.
eexists; first by []; split.
- by rewrite size_rcons size_map size_iota.
- rewrite -cats1 flatten_cat flatten_inner //= cats0 ekN.
  have -> : N.to_nat n
            = (N.to_nat (n / num_threads * (num_threads - 1))
               + N.to_nat (n - n / num_threads * (num_threads - 1)))%N.
    rewrite -plusE.
    have := @per_mul_le n num_threads (num_threads - 1)%num t0 tn.
    by lia.
  by rewrite N_iota_cat N2Nat.id N.add_0_l.
- move=> p /In_rcons [->|].
    have hlast : (0 < n - n / num_threads * (num_threads - 1))%num.
      have e2 := @mul_pred_add (n / num_threads)%num num_threads t0.
      by lia.
    move/(congr1 size); rewrite size_N_iota /= => e0.
    by move: hlast; rewrite -(N2Nat.id (n - _)) e0.
  elim: (iota 0 k) => [|i s ih] //= [<-|/ih //].
  move/(congr1 size); rewrite size_N_iota /= => e0.
  by move: p0; rewrite -(N2Nat.id (n / _)) e0.
Qed.

End RGDMasterProofs.

(** ** The further statements on the small instance *)

Section FurtherInstances.
Import Example Example2.

Local Notation read_g2o_file :=
  (read_g2o_file Rotation2D_toRotationMatrix Quaternion_toRotationMatrix
                 Matrix_inverse double_quotient).
Local Notation read_lines :=
  (read_lines Rotation2D_toRotationMatrix Quaternion_toRotationMatrix
              Matrix_inverse double_quotient).
Local Notation agent0 := (agent false true).

Lemma lines0_pose_ids : file_pose_ids lines0 = [:: 0; 1; 1; 2]%num.
Proof. by []. Qed.

Lemma lines0_size_t : size_t_ids lines0.
Proof.
move=> x; rewrite lines0_pose_ids !inE.
by do 3![case/orP=> [/eqP->//|]]; move/eqP->.
Qed.

Lemma lines0_range : is_range 0 3 (file_pose_ids lines0).
Proof.
move=> x; rewrite lines0_pose_ids !inE; split.
  by do 3![case/orP=> [/eqP->|]; first by lia]; move/eqP->; lia.
move=> hx.
have [->|[->|->]] : (x = 0 \/ x = 1 \/ x = 2)%num by lia.
- by [].
- by [].
- by [].
Qed.

Lemma read_g2o_file_zero_based_witness :
  exists st,
    read_lines (initial_reader default_measurement) lines0 = Ok st
    /\ read_g2o_file default_measurement lines0 = Ok (measurements st, 3%num).
Proof.
pose final :=
  if read_lines (initial_reader default_measurement) lines0 is Ok st then st
  else initial_reader default_measurement.
have e : read_lines (initial_reader default_measurement) lines0 = Ok final.
  reflexivity.
exists final; split; first exact: e.
have h0 : (0 < 3)%num by [].
exact: (read_g2o_file_zero_based lines0_size_t e h0 lines0_range).
Defined.

Lemma read_g2o_file_unrecognized_witness :
  exists msg, read_g2o_file default_measurement unknown_lines = Fatal msg.
Proof.
apply: (@read_g2o_file_unrecognized _ _ _ _ _ _ unknown_lines "VERTEX_XYZ").
by right; left.
Defined.

Lemma read_g2o_file_no_edge_witness :
  read_g2o_file default_measurement vertex_lines
  = Undefined "*pose_ids.begin() on an empty set".
Proof.
exact: (@read_g2o_file_no_edge _ Rotation2D_toRotationMatrix
          Quaternion_toRotationMatrix Matrix_inverse double_quotient
          default_measurement vertex_lines (erefl _)).
Defined.

Lemma read_g2o_file_blank_repeats_witness :
  read_g2o_file default_measurement [:: edge 0 1; Blank rat]
  = read_g2o_file default_measurement [:: edge 0 1; edge 0 1].
Proof.
exact: (@read_g2o_file_blank_repeats _ Rotation2D_toRotationMatrix
          Quaternion_toRotationMatrix Matrix_inverse double_quotient
          default_measurement [::] [::] (edge 0 1)
          (erefl _)).
Defined.

Lemma read_g2o_file_loaded_witness :
  exists ms n m,
    [/\ read_g2o_file default_measurement lines = Ok (ms, n), List.In m ms
      & loaded_measurement default_measurement m].
Proof.
pose loaded :=
  if read_g2o_file default_measurement lines is Ok x then x else ([::], 0%num).
have e : read_g2o_file default_measurement lines = Ok (loaded.1, loaded.2).
  reflexivity.
have hin : List.In (head default_measurement loaded.1) loaded.1.
  by left.
exists loaded.1, loaded.2, (head default_measurement loaded.1); split=> //.
exact: (read_g2o_file_loaded lines_size_t e hin).
Defined.

Lemma two_measurements_size_t (m : RelativeSEMeasurement rat) :
  List.In m two_measurements ->
  (p1 m + 1 < size_t_modulus /\ p2 m + 1 < size_t_modulus)%num.
Proof. by case=> [<-|[<-|[]]]. Qed.

Lemma get_dimension_and_num_poses_bound_witness :
  get_dimension_and_num_poses two_measurements = Ok (2%num, 4%num)
  /\ exists2 m, List.In m two_measurements & (p1 m + 1 = 4 \/ p2 m + 1 = 4)%num.
Proof.
have e : get_dimension_and_num_poses two_measurements = Ok (2%num, 4%num).
  reflexivity.
split; first exact: e.
have [_ _ h] := get_dimension_and_num_poses_bound two_measurements_size_t e.
exact: h.
Defined.

Lemma read_g2o_file_num_poses_witness :
  exists ms dim,
    read_g2o_file default_measurement lines = Ok (ms, 4%num)
    /\ get_dimension_and_num_poses ms = Ok (dim, 4%num).
Proof.
pose loaded :=
  if read_g2o_file default_measurement lines is Ok x then x else ([::], 0%num).
have e : read_g2o_file default_measurement lines = Ok (loaded.1, 4%num).
  reflexivity.
have h4 : (4 < size_t_modulus)%num by [].
have [dim hd _] := read_g2o_file_num_poses lines_size_t h4 e.
by exists loaded.1, dim; split; [exact: e|exact: hd].
Defined.


Lemma rotation_1 : is_rotation (1%:M : 'M[rat]_2).
Proof. by split; rewrite ?trmx1 ?mulmx1 ?det1. Qed.

Lemma projectToRotationGroup_retraction_witness :
  is_rotation (projectToRotationGroup env (1%:M : 'M[rat]_2))
  /\ projectToRotationGroup env (1%:M : 'M[rat]_2) = 1%:M.
Proof.
have [h1 h2] := projectToRotationGroup_retraction env (1%:M : 'M[rat]_2).
have [hU hV] := env_svd_orthogonal (1%:M : 'M[rat]_2).
split; first exact: (h1 hU hV).
exact: (h2 rotation_1 (env_svd_spec (erefl _))).
Defined.

Lemma projectToStiefelManifold_retraction_witness :
  projectToStiefelManifold env (1%:M : 'M[rat]_2) = Ok 1%:M.
Proof.
have [_ _ h] := projectToStiefelManifold_retraction env (1%:M : 'M[rat]_2).
apply: h; last exact: (env_svd_spec (erefl _)).
by rewrite /is_stiefel trmx1 mulmx1.
Defined.

Lemma default_measurement_R : as_mx 2 2 (R default_measurement) = Some 1%:M.
Proof. exact: as_mx_mkMatrix. Qed.

Lemma default_measurement_t : as_mx 2 1 (t default_measurement) = Some 0.
Proof. exact: as_mx_mkMatrix. Qed.

Lemma computeMeasurementError_zero_witness :
  exists2 e,
    computeMeasurementError default_measurement
      (1%:M : 'M[rat]_2) (0 : 'cV[rat]_2) (1%:M : 'M[rat]_2) (0 : 'cV[rat]_2)
    = Ok e
    & 0 <= e /\ (e = 0 <-> (1%:M : 'M[rat]_2) = 1%:M *m 1%:M
                           /\ (0 : 'cV[rat]_2) = 0 + 1%:M *m 0).
Proof.
exact: (computeMeasurementError_zero (1%:M : 'M[rat]_2) (1%:M : 'M[rat]_2)
          (0 : 'cV[rat]_2) (0 : 'cV[rat]_2)
          default_measurement_R default_measurement_t (erefl _) (erefl _)).
Defined.

Lemma computeMeasurementError_invariant_witness :
  computeMeasurementError default_measurement
    ((1%:M : 'M[rat]_2) *m (1%:M : 'M[rat]_2)) ((1%:M : 'M[rat]_2) *m (0 : 'cV[rat]_2))
    ((1%:M : 'M[rat]_2) *m (1%:M : 'M[rat]_2)) ((1%:M : 'M[rat]_2) *m (0 : 'cV[rat]_2))
  = computeMeasurementError default_measurement
      (1%:M : 'M[rat]_2) (0 : 'cV[rat]_2) (1%:M : 'M[rat]_2) (0 : 'cV[rat]_2).
Proof.
apply: computeMeasurementError_invariant.
by rewrite trmx1 mulmx1.
Defined.

Lemma agent0_team (id : N) (st : PGOAgentStatus rat) :
  getNeighborStatus (mTeamStatus agent0) id = Some st -> agentID st = id.
Proof. by rewrite /=; case: eqP => // <- [<-]. Qed.

Lemma shouldTerminate_spec_witness :
  exists2 b, shouldTerminate agent0 = Ok b
    & b <-> (maxNumIters (mParams agent0) < iteration_number agent0)%num
            \/ forall id, (id < numRobots (mParams agent0))%num ->
                 exists st, [/\ getNeighborStatus (mTeamStatus agent0) id = Some st,
                                state st = INITIALIZED & readyToTerminate st].
Proof. exact: (shouldTerminate_spec agent0_team). Defined.

Lemma iterate_frame_witness :
  exists a' : PGOAgent env 2 2,
    iterate true agent0 = Ok a'
    /\ [/\ mIterationNumber a' = 8%num, mState a' = INITIALIZED,
           mInstanceNumber a' = 3%num, mID a' = 0%num
         & mParams a' = params false].
Proof.
pose a' := if iterate true agent0 is Ok b then b else agent0.
have e : iterate true agent0 = Ok a' by reflexivity.
exists a'; split; first exact: e.
exact: (iterate_frame e).
Defined.

Lemma iterate_not_initialized_witness :
  iterate true waiting = Ok (set_mIterationNumber 8%num waiting)
  /\ exists msg, iterate true robust_waiting = Fatal msg.
Proof.
have hw : mState waiting <> INITIALIZED by [].
have hr : mState robust_waiting <> INITIALIZED by [].
have [h1 _ _] := iterate_not_initialized true hw.
have [_ _ h3] := iterate_not_initialized true hr.
split; first exact: (h1 (erefl _)).
by apply: h3.
Defined.

Lemma updateLoopClosuresWeights_edges_witness :
  exists (a' : PGOAgent env 2 2) m1 m2,
    [/\ updateLoopClosuresWeights agent3 = Ok a',
        X a' = X agent3,
        mPoseGraph a'
        = set_sharedLoopClosures [:: m2]
            (set_privateLoopClosures [:: m1]
               (clearDataMatrices (mPoseGraph agent3))),
        same_edge (loop_closure 2^-1) m1 & same_edge shared_edge m2].
Proof.
have [a' e] : exists a', updateLoopClosuresWeights agent3 = Ok a'.
  rewrite /updateLoopClosuresWeights /= /reweigh_private /= /reweigh /=.
  rewrite /computeMeasurementError !as_mx_mkMatrix /=.
  rewrite /reweigh_shared /= /neighbor_pose /= as_LiftedPose_mk /=.
  rewrite /reweigh /computeMeasurementError !as_mx_mkMatrix /=.
  by eexists.
have [private [shared /= [h1 [h2 _] [s3 h3] [s4 h4]]]] :=
  updateLoopClosuresWeights_edges e.
case: private s3 h1 h3 => [|m1 [|? ?]] //= _ h1 h3.
case: shared s4 h1 h4 => [|m2 [|? ?]] //= _ h1 h4.
exists a', m1, m2; split=> //.
- by have [] := h3 _ _ (or_introl erefl).
- by have [] := h4 _ _ (or_introl erefl).
Defined.

Lemma computeNeighborTransform_aligns_witness :
  exists (T : Pose rat 2) YL np dT T1,
    [/\ computeNeighborTransform shared_edge (mkLiftedPoseDyn origin) agent0 = Ok T,
        YLift agent0 = Some YL,
        as_LiftedPose 2 2 (mkLiftedPoseDyn origin) = Some np,
        measured_transform 2 shared_edge = Ok dT
      & (rotation dT)^T *m rotation dT = 1%:M ->
        (rotation T1)^T *m rotation T1 = 1%:M ->
        Pose_mul (Pose_mul T T1) dT = lmul_pose YL^T np].
Proof.
have [T e] : exists T,
    computeNeighborTransform shared_edge (mkLiftedPoseDyn origin) agent0 = Ok T.
  rewrite /computeNeighborTransform /= as_LiftedPose_mk /measured_transform.
  by rewrite !as_mx_mkMatrix /=; eexists.
have [YL [np [dT [T1 [h1 h2 h3 _ h5]]]]] := computeNeighborTransform_aligns e.
by exists T, YL, np, dT, T1.
Defined.

Local Notation getSharedPoseDict :=
  (@getSharedPoseDict rat env 2 2 myPublicPoseIDs).
Local Notation getAuxSharedPoseDict :=
  (@getAuxSharedPoseDict rat env 2 2 myPublicPoseIDs).
Local Notation initialize :=
  (@initialize rat env 2 2 Pose_new chordalInitialization chordalInitialization
     localMeasurements localMeasurements).

Lemma neighbor_cache_dims_witness :
  exists a' : PGOAgent env 2 2,
    [/\ updateNeighborPoses 1%num received agent0 = Ok a',
        cache_dims 2 2 (neighborPoseDict a')
      & is_ok (getNeighborPoseInGlobalFrame 1%num 0%num agent0)].
Proof.
pose a' := if updateNeighborPoses 1%num received agent0 is Ok b then b else agent0.
have e : updateNeighborPoses 1%num received agent0 = Ok a' by reflexivity.
have h0 : cache_dims 2 2 (neighborPoseDict agent0)
          /\ cache_dims 2 2 (neighborAuxPoseDict agent0) by [].
have [h1 _ h3] := neighbor_cache_dims 1%num received h0.
have [h _] := h1 a' e.
by exists a'; split; [exact: e|exact: h|exact: h3].
Defined.

Lemma neighbor_cache_stores_witness :
  exists a' : PGOAgent env 2 2,
    [/\ updateNeighborPoses 1%num received agent0 = Ok a',
        dict_find (mkPoseID 1 0) (neighborPoseDict a') = Some (mkLiftedPoseDyn origin)
      & mNumPosesReceived a' = 2%num].
Proof.
pose a' := if updateNeighborPoses 1%num received agent0 is Ok b then b else agent0.
have e : updateNeighborPoses 1%num received agent0 = Ok a' by reflexivity.
have hn : neighbor_state agent0 1%num = Some INITIALIZED by [].
have hu : uniq [seq it.1 | it <- received] by [].
have [h _] := neighbor_cache_stores hn hu.
have hs : mState a' = INITIALIZED by [].
have [h1 h2] := h a' e hs.
exists a'; split; [exact: e| |exact: h2].
by apply: h1; [left|].
Defined.

Lemma getSharedPoseDict_contents_witness :
  exists map,
    [/\ getSharedPoseDict agent0 = Ok (Some map),
        dict_find (mkPoseID 0 0) map = Some (mkLiftedPoseDyn pose11)
      & forall k v, dict_find k map = Some v -> k \in [:: mkPoseID 0 0]].
Proof.
pose map := if getSharedPoseDict agent0 is Ok (Some m) then m else [::].
have e : getSharedPoseDict agent0 = Ok (Some map) by reflexivity.
have [h1 h2 _] := getSharedPoseDict_contents e.
have [_ [x hx hf]] := h1 (mkPoseID 0 0) (erefl _).
exists map; split; [exact: e| |exact: h2].
by move: hx hf => [<-].
Defined.

Lemma shared_poses_accepted_witness :
  exists map,
    [/\ getSharedPoseDict agent0 = Ok (Some map),
        is_ok (updateNeighborPoses (getID agent0) map (agent1 false))
      & exists2 mapY, getAuxSharedPoseDict (agent true true) = Ok (Some mapY)
          & is_ok (updateAuxNeighborPoses (getID (agent true true)) mapY (agent1 true))].
Proof.
pose map := if getSharedPoseDict agent0 is Ok (Some m) then m else [::].
have e : getSharedPoseDict agent0 = Ok (Some map) by reflexivity.
pose mapY := if getAuxSharedPoseDict (agent true true) is Ok (Some m) then m else [::].
have eY : getAuxSharedPoseDict (agent true true) = Ok (Some mapY) by reflexivity.
have [_ _ h1] := shared_poses_accepted (agent1 false) (or_introl e).
have [_ h2 _] := shared_poses_accepted (agent1 true) (or_intror eY).
exists map; split; [exact: e|by apply: h1|].
by exists mapY; [exact: eY|apply: h2].
Defined.

Lemma getPoseInGlobalFrame_trajectory_witness :
  exists T Ti,
    [/\ getTrajectoryInGlobalFrame agent0 = Ok (Some T),
        getPoseInGlobalFrame 0%num agent0 = Ok (Some Ti)
      & pose_at T 0%num
        = Ok (mkLiftedPose (projectToRotationGroup env (rotation Ti)) (translation Ti))].
Proof.
pose T := if getTrajectoryInGlobalFrame agent0 is Ok (Some T) then T else [::].
have e : getTrajectoryInGlobalFrame agent0 = Ok (Some T) by reflexivity.
have [h1 h2] := getPoseInGlobalFrame_trajectory agent0 0%num.
have [Ti hTi] := h2 T e (erefl _).
by exists T, Ti; split; [exact: e|exact: hTi|apply: h1].
Defined.

Lemma accelerated_sqrt : sqrt_at env (updateGamma_radicand (agent true true)).
Proof.
rewrite /sqrt_at /updateGamma_radicand /= expr0n /= mulr0 addr0.
by rewrite expr1n.
Qed.

Lemma nesterov_coefficients_witness :
  exists a1 a2 : PGOAgent env 2 2,
    [/\ updateGamma (agent true true) = Ok a1, updateAlpha a1 = Ok a2,
        1 / numRobotsF (agent true true) <= gamma a1
      & 0 < alpha a2 <= 1].
Proof.
pose a1 := if updateGamma (agent true true) is Ok b then b else agent true true.
have e1 : updateGamma (agent true true) = Ok a1 by reflexivity.
pose a2 := if updateAlpha a1 is Ok b then b else a1.
have e2 : updateAlpha a1 = Ok a2 by reflexivity.
have hN : (0 < numRobots (mParams (agent true true)))%num by [].
have [_ h2 _ h4] := nesterov_coefficients accelerated_sqrt hN e1 e2.
by exists a1, a2; split; [exact: e1|exact: e2|exact: h2|exact: h4].
Defined.

Lemma initialize_once_witness :
  exists a' : PGOAgent env 2 2,
    [/\ initialize None waiting = Ok a', mState a' = INITIALIZED
      & exists msg, initialize None a' = Fatal msg].
Proof.
have hok : is_ok (initialize None waiting) by vm_compute.
have hn : PoseGraph_n (mPoseGraph waiting) <> 0%num by [].
case e: (initialize None waiting) hok => [a'|s|s] hok';
  [|discriminate hok'|discriminate hok'].
have [_ _ h3 h4] := initialize_once e.
have [hs _] := h3 hn.
by exists a'; split; [reflexivity|exact: hs|apply: h4].
Defined.

Lemma initialize_provided_witness :
  exists2 a' : PGOAgent env 2 2,
    initialize (Some (mkPoseArrayDyn [:: pose11])) waiting = Ok a'
    & mState a' = INITIALIZED /\ X a' = lmul_array 1%:M [:: pose11].
Proof.
have hn : PoseGraph_n (mPoseGraph waiting) <> 0%num by [].
have hsz : N.of_nat (size [:: pose11]) = num_poses waiting by [].
have hid : (mID waiting == 0%num) || ~~ multirobot_initialization (mParams waiting).
  by [].
have hnew : size (LiftedPoseArray_new env 2 2 (num_poses waiting)) = size [:: pose11].
  by [].
have [a' e [h1 _ _ h4 _]] :=
  @initialize_provided rat env 2 2 Pose_new chordalInitialization
    chordalInitialization localMeasurements localMeasurements
    [:: pose11] waiting 1%:M (erefl _) (erefl _) hn hsz hid (erefl _) hnew.
by exists a'; [exact: e|split; [exact: h1|apply: h4]].
Defined.

Lemma solve_updateIndices_partition_witness :
  exists2 parts, solve_updateIndices false 10 3 = Ok (Some parts)
    & flatten parts = N_iota 0 10.
Proof.
have h0 : (0 < 3)%num by [].
have h1 : (3 <= 10)%num by [].
have h2 : (10 < unsigned_modulus)%num by [].
have [parts e [_ h _]] := solve_updateIndices_partition false h0 h1 h2.
by exists parts; [exact: e|exact: h].
Defined.

Lemma lifting_matrix_roundtrip_witness :
  exists M : Matrix rat,
    [/\ getLiftingMatrix agent0 = Ok (Some M),
        exists msg, getLiftingMatrix (agent1 false) = Fatal msg,
        exists2 b', setLiftingMatrix M (agent1 false) = Ok b'
                  & YLift b' = YLift agent0
      & exists a g',
          PGOAgent_new 2 2 0%num (params false) (5%num : rand_state env)
          = Ok (a, g')
          /\ getLiftingMatrix a
             = Ok (Some (fixedStiefelVariable (E := env) 2 2 5%num).1)].
Proof.
have [h1 h2 h3 h4] := @lifting_matrix_roundtrip rat env 2 2.
pose M := if getLiftingMatrix agent0 is Ok (Some M) then M
          else mkMatrix (0 : 'M[rat]_(2, 2)).
have e : getLiftingMatrix agent0 = Ok (Some M) by reflexivity.
have ne : mID (agent1 false) <> 0%num by [].
have hok : is_ok (PGOAgent_new 2 2 0%num (params false) (5%num : rand_state env)).
  by rewrite /PGOAgent_new /= /setLiftingMatrix /= as_mx_mkMatrix.
exists M; split.
- exact: e.
- exact: h3 _ ne.
- exact: h4 agent0 (agent1 false) M e.
- case en: (PGOAgent_new 2 2 0%num (params false) (5%num : rand_state env)) hok
    => [[a g']|s|s] // _.
  by exists a, g'; split=> //; apply: h2 en.
Defined.

End FurtherInstances.
